(** * DeepSeek Bypass: detection and replacement of filtered answers

    A shallow embedding of the extension's content script ([content.js],
    in its revision with the retry control, [hideWarning] and the guarded
    [showWarning]), of its background service worker ([background.js],
    in its revision with GPT_SYSTEM_PROMPT), of the interception layer
    ([injected.js]) and of the options page ([options.js]), followed by
    the properties of the specification that were checked against them
    and by further properties of the code.

    Conventions.
    - A JavaScript string is the list of its UTF-16 code units.
    - A call that may throw returns a [result]; [Throw] carries the
      exception.  Nothing in the scripts catches one, except the [catch]
      of the fetch chain in the background worker.
    - The DOM is a tree of element and text nodes; an element carries the
      identity ([eid]) through which the script keeps a reference to it.
    - [event.data] is taken to be an object whose [index] is an integer or
      absent and whose [manual] is a boolean or absent. *)

From Stdlib Require Import NArith ZArith Ascii String.
From stdpp Require Import gmap strings list.

Set Warnings "-register-all".
Local Open Scope N_scope.

(** ** JavaScript strings *)

Abbreviation jsstring := (list N).

(** The code units of an ASCII literal. *)
Fixpoint str (s : string) : jsstring :=
  match s with
  | EmptyString => []
  | String a r => N_of_ascii a :: str r
  end.

(** [\d] of a regular expression without the unicode flag: [0-9]. *)
Definition is_digit (c : N) : bool := (48 <=? c) && (c <=? 57).

(** [\s], which is also what [String.prototype.trim] strips: WhiteSpace and
    LineTerminator of ECMA-262 (TAB LF VT FF CR SP NBSP, U+1680,
    U+2000..U+200A, LS, PS, U+202F, U+205F, U+3000, ZWNBSP). *)
Definition is_space (c : N) : bool :=
  ((9 <=? c) && (c <=? 13)) || (c =? 32) || (c =? 160) || (c =? 5760)
  || ((8192 <=? c) && (c <=? 8202)) || (c =? 8232) || (c =? 8233)
  || (c =? 8239) || (c =? 8287) || (c =? 12288) || (c =? 65279).

Definition slash : N := 47.

Fixpoint drop_while (p : N -> bool) (s : jsstring) : jsstring :=
  match s with
  | c :: r => if p c then drop_while p r else s
  | [] => []
  end.

Fixpoint take_while (p : N -> bool) (s : jsstring) : jsstring :=
  match s with
  | c :: r => if p c then c :: take_while p r else []
  | [] => []
  end.

(** [String.prototype.trim]. *)
Definition trim_start (s : jsstring) : jsstring := drop_while is_space s.
Definition trim_end (s : jsstring) : jsstring :=
  rev (drop_while is_space (rev s)).
Definition trim (s : jsstring) : jsstring := trim_end (trim_start s).

(** ** Text normalizer: [cleanText]

    [text.replace(/\d+\s*\/\s*\d+$/, '').trim()].

    The pattern ends in [$] (no multiline flag), so a match that starts
    at some index runs to the end of the text: [marker s] tells whether the
    whole of [s] matches [\d+\s*\/\s*\d+].  Digits, white space and the
    slash are disjoint classes, so the greedy reading is the only one. *)
Definition marker (s : jsstring) : bool :=
  match take_while is_digit s with
  | [] => false
  | _ :: _ =>
      match drop_while is_space (drop_while is_digit s) with
      | c :: r =>
          (c =? slash) &&
          match take_while is_digit (drop_while is_space r) with
          | [] => false
          | _ :: _ =>
              match drop_while is_digit (drop_while is_space r) with
              | [] => true
              | _ :: _ => false
              end
          end
      | [] => false
      end
  end.

(** The index at which the regular expression matches: the leftmost one. *)
Fixpoint find_marker (s : jsstring) : option nat :=
  if marker s then Some 0%nat
  else match s with
       | [] => None
       | _ :: r => S <$> find_marker r
       end.

(** [text.replace(re, '')]: without the [g] flag only the leftmost match is
    replaced; it reaches the end of the text, so what is left is the text
    before it. *)
Definition replace_marker (s : jsstring) : jsstring :=
  match find_marker s with
  | Some i => take i s
  | None => s
  end.

Definition cleanText (text : jsstring) : jsstring :=
  trim (replace_marker text).

(** ** Exceptions

    The script catches nothing: an exception ends the running handler. *)
Inductive error :=
| TypeError (reading : string)   (* property access on null or undefined *)
| SyntaxError.                   (* thrown by JSON.parse *)

Inductive result (A : Type) :=
| Ok (a : A)
| Throw (e : error).
Arguments Ok {A} a.
Arguments Throw {A} e.

#[export] Instance result_ret : MRet result := fun A a => Ok a.
#[export] Instance result_bind : MBind result := fun A B f r =>
  match r with
  | Ok a => f a
  | Throw e => Throw e
  end.

Definition returns {A} (r : result A) : bool :=
  match r with Ok _ => true | Throw _ => false end.

(** ** Messages *)

Inductive role := User | Assistant | System | Developer.

(** [{ role, content, censored? }]; [censored] is absent on user
    messages. *)
Record message := Message {
  msg_role : role;
  content : jsstring;
  censored : option bool
}.

(** [arr.slice(0, -1)]. *)
Definition but_last {A} (l : list A) : list A := removelast l.

(** ** Conversation identity: [getChatIdFromUrl]

    [window.location.pathname.match(/\/chat\/s\/([a-f0-9-]+)/)]: the
    leftmost place where ["/chat/s/"] is followed by at least one character
    of the class; the group captures the longest run of them. *)
Definition is_id_char (c : N) : bool :=
  is_digit c || ((97 <=? c) && (c <=? 102)) || (c =? 45).

Fixpoint strip_prefix (p s : jsstring) : option jsstring :=
  match p, s with
  | [], _ => Some s
  | a :: p', b :: s' => if a =? b then strip_prefix p' s' else None
  | _ :: _, [] => None
  end.

Definition chat_id_at (s : jsstring) : option jsstring :=
  match strip_prefix (str "/chat/s/") s with
  | Some r =>
      match take_while is_id_char r with
      | [] => None
      | id => Some id
      end
  | None => None
  end.

Fixpoint getChatIdFromUrl (pathname : jsstring) : option jsstring :=
  match chat_id_at pathname with
  | Some id => Some id
  | None =>
      match pathname with
      | [] => None
      | _ :: r => getChatIdFromUrl r
      end
  end.

(** ** Conversation history store

    [localStorage] is used under the single key LOCAL_STORAGE_KEY.  The text
    kept there is represented by what [JSON.parse] makes of it: either it
    is no JSON text, or it is the JSON text of a mapping from conversation
    ids to message lists, which is what [JSON.stringify(chats)] writes.
    [None] is the absent key, for which [getItem] gives [null]. *)
Inductive item :=
| NotJson
| Chats (chats : gmap jsstring (list message)).

(** [JSON.parse(localStorage.getItem(LOCAL_STORAGE_KEY))]; [JSON.parse(null)]
    is [null]. *)
Definition JSON_parse (it : option item) : result (option (gmap jsstring (list message))) :=
  match it with
  | None => Ok None
  | Some NotJson => Throw SyntaxError
  | Some (Chats m) => Ok (Some m)
  end.

(** [!chatId]: [null] and the empty string are falsy. *)
Definition no_id (chatId : option jsstring) : bool :=
  match chatId with
  | None | Some [] => true
  | Some (_ :: _) => false
  end.

(** The part of the page the store depends on. *)
Record storage := Storage {
  pathname : jsstring;             (* window.location.pathname *)
  localStorage : option item
}.

Definition saveHistory (messages : list message) (st : storage) : result storage :=
  let chatId := getChatIdFromUrl (pathname st) in
  match chatId with
  | None | Some [] => Ok st
  | Some id =>
      parsed ← JSON_parse (localStorage st);
      let chats := default ∅ parsed in
      Ok (Storage (pathname st) (Some (Chats (<[id := messages]> chats))))
  end.

(** [chats[chatId] || []] reads a property of the parsed object; for the
    ids of [getChatIdFromUrl], texts of [a-f], digits and [-], none of
    which names an inherited property, this is the lookup in the map. *)
Definition restoreHistory (chatId : option jsstring) (st : storage) : result (list message) :=
  match chatId with
  | None | Some [] => Ok []
  | Some id =>
      parsed ← JSON_parse (localStorage st);
      let chats := default ∅ parsed in
      Ok (default [] (chats !! id))
  end.

(** ** Censorship classifier: [isCensored]

    [censorshipRegex.test(responseText)] for
    [/\b(sorry|apologies|...|try again later)\b/i]. *)

(** [\w] without the unicode flag: [A-Za-z0-9_]. *)
Definition is_word (c : N) : bool :=
  is_digit c || ((65 <=? c) && (c <=? 90)) || ((97 <=? c) && (c <=? 122))
  || (c =? 95).

(** Canonicalize of an ignore-case match without the unicode flag, as far
    as it can meet an ASCII pattern character: a code unit of 128 or more
    never canonicalizes to one below 128. *)
Definition upper (c : N) : N :=
  if (97 <=? c) && (c <=? 122) then c - 32 else c.

Definition censorship_phrases : list jsstring :=
  map str
    ["sorry"; "apologies"; "unfortunately"; "i cannot"; "i can't";
     "i am unable"; "beyond my scope"; "restricted"; "not allowed";
     "not permitted"; "cannot discuss"; "not within my capabilities";
     "sensitive topic"; "refer to official sources"; "ethical guidelines";
     "compliance requirements"; "content restrictions"; "safety concerns";
     "security reasons"; "not supported"; "The server is busy";
     "try again later"]%string.

(** The pattern text [p] read at the head of [s], ignoring case: the last
    code unit read and what follows it. *)
Fixpoint match_ci (p s : jsstring) (last : option N) : option (option N * jsstring) :=
  match p with
  | [] => Some (last, s)
  | a :: p' =>
      match s with
      | b :: s' => if upper a =? upper b then match_ci p' s' (Some b) else None
      | [] => None
      end
  end.

Definition word_at (c : option N) : bool :=
  match c with Some c => is_word c | None => false end.

(** [\b] between two neighbouring positions. *)
Definition boundary (before after : option N) : bool :=
  xorb (word_at before) (word_at after).

(** A match of the whole pattern that starts in front of [s], [before]
    being the code unit in front of it. *)
Definition censored_at (before : option N) (s : jsstring) : bool :=
  boundary before (head s) &&
  existsb (fun p =>
    match match_ci p s before with
    | Some (last, rest) => boundary last (head rest)
    | None => false
    end) censorship_phrases.

Fixpoint censored_from (before : option N) (s : jsstring) : bool :=
  censored_at before s ||
  match s with
  | [] => false
  | c :: r => censored_from (Some c) r
  end.

Definition isCensored (responseText : jsstring) : bool :=
  censored_from None responseText.

(** ** Background service worker: the [checkCensorship] listener *)

(** [chrome.storage.local], keys [openai_api_key] and [openai_model]. *)
Record config := Config {
  openai_api_key : option jsstring;
  openai_model : option jsstring
}.

(** [{ action, content, history, manual }]. *)
Record request := Request {
  action : jsstring;
  req_content : jsstring;
  history : list message;
  req_manual : bool
}.

(** The body of the POST to the completions endpoint, with the bearer
    credential of its header. *)
Record completion_call := CompletionCall {
  bearer : jsstring;
  model : jsstring;
  messages : list message
}.

(** One element of [data.choices]: without a [message], reading
    [message.content] throws; the [content] of a message is a text, or
    it is [null] or absent ([None]), as in the schema of the provider. *)
Inductive choice :=
| NoMessage
| Choice (message_content : option jsstring).

(** How the call to the provider ends. *)
Inductive fetched :=
| Rejected                                   (* fetch rejects *)
| NoJson                                     (* response.json() rejects *)
| NullBody                                   (* the body parses to null *)
| Data (choices : option (list choice)).     (* the parsed body, data.choices *)

(** What the listener does with a request. *)
Inductive reaction :=
| Unhandled                      (* another action: nothing is sent back *)
| Raises (e : error)
| Responds (replacement : jsstring)
| Fetches (call : completion_call) (k : fetched -> option jsstring).
    (* the call is issued; its outcome [o] ends in
       sendResponse({replacement: k o}), the replacement being a text,
       or [null] or left out ([None]) *)

Definition DEFAULT_OPENAI_MODEL : jsstring := str "gpt-3.5-turbo".

Definition truthy (s : option jsstring) : option jsstring :=
  match s with
  | Some (c :: r) => Some (c :: r)
  | _ => None
  end.

(** [s.startsWith(p)]. *)
Definition startsWith (p s : jsstring) : bool :=
  match strip_prefix p s with Some _ => true | None => false end.

(** The two [then] callbacks and the [catch] of the fetch chain: a
    body that is [null] and a first choice without a message make the
    second callback throw, which the [catch] answers. *)
Definition on_fetched (o : fetched) : option jsstring :=
  match o with
  | Rejected | NoJson | NullBody => Some (str "Error: OpenAI API request failed.")
  | Data None | Data (Some []) => Some (str "Error: Unable to fetch a response from GPT.")
  | Data (Some (NoMessage :: _)) => Some (str "Error: OpenAI API request failed.")
  | Data (Some (Choice content :: _)) => content
  end.

Section Background.

(** The text of the constant GPT_SYSTEM_PROMPT. *)
Variable GPT_SYSTEM_PROMPT : jsstring.

Definition system_message (openaiModel : jsstring) : message :=
  Message (if startsWith (str "o3") openaiModel then Developer else System)
          GPT_SYSTEM_PROMPT None.

Definition checkCensorship (result : config) (request : request) : reaction :=
  if negb (bool_decide (action request = str "checkCensorship")) then Unhandled
  else
    let openaiModel := default DEFAULT_OPENAI_MODEL (truthy (openai_model result)) in
    match truthy (openai_api_key result) with
    | None => Responds (str "Error: No OpenAI API key set. Skipping censorship bypass.")
    | Some apiKey =>
        match last (history request) with
        | None => Raises (TypeError "content")
        | Some final =>
            let assistantPrompt := content final in
            let messages :=
              system_message openaiModel :: but_last (history request) in
            if isCensored assistantPrompt then
              Fetches (CompletionCall (str "Bearer " ++ apiKey) openaiModel messages)
                      on_fetched
            else Responds assistantPrompt
        end
    end.

End Background.

(** ** The document

    An element carries its identity [eid]; a reference held by the script
    ([chatBubbles[i]], [messageElement]) is that identity.  The root
    stands for the [document] node itself.  Tag names, attributes other
    than [class], styles and comment nodes play no part in what the script
    decides and are left out. *)
Inductive node :=
| Text (data : jsstring)
| Elem (eid : nat) (classes : list jsstring) (kids : list node).

(** Markup as [innerHTML] reads and writes it: the same forest without
    node identities. *)
Inductive html :=
| HText (data : jsstring)
| HElem (classes : list jsstring) (kids : list html).

Definition children (n : node) : list node :=
  match n with
  | Elem _ _ ks => ks
  | Text _ => []
  end.

Definition is_element (n : node) : bool :=
  match n with Elem _ _ _ => true | Text _ => false end.

Definition is_elem (i : nat) (n : node) : bool :=
  match n with
  | Elem j _ _ => bool_decide (j = i)
  | Text _ => false
  end.

(** [n.classList && n.classList.contains(c)]: a text node has no
    [classList]. *)
Definition has_class (c : jsstring) (n : node) : bool :=
  match n with
  | Elem _ cs _ => bool_decide (c ∈ cs)
  | Text _ => false
  end.

Fixpoint first_some {A} (l : list (option A)) : option A :=
  match l with
  | [] => None
  | Some a :: _ => Some a
  | None :: r => first_some r
  end.

(** The identities of the elements of a tree, in document order. *)
Fixpoint ids (n : node) : list nat :=
  match n with
  | Text _ => []
  | Elem i _ ks => i :: concat (map ids ks)
  end.

(** Node identities are pairwise distinct. *)
Definition wf (d : node) : Prop := NoDup (ids d).

Fixpoint max_id (n : node) : nat :=
  match n with
  | Text _ => 0
  | Elem i _ ks => Nat.max i (list_max (map max_id ks))
  end.

(** An identity no node of the document has. *)
Definition fresh (d : node) : nat := S (max_id d).

(** The element a reference denotes. *)
Fixpoint find (i : nat) (n : node) : option node :=
  match n with
  | Text _ => None
  | Elem j _ ks =>
      if bool_decide (j = i) then Some n else first_some (map (find i) ks)
  end.

Definition has_child (i : nat) (ks : list node) : bool := existsb (is_elem i) ks.

(** [parentNode]. *)
Fixpoint parentNode (i : nat) (n : node) : option node :=
  match n with
  | Text _ => None
  | Elem _ _ ks =>
      if has_child i ks then Some n else first_some (map (parentNode i) ks)
  end.

(** A child list cut at the child [i]: what precedes it, the child, what
    follows it. *)
Fixpoint split_at (i : nat) (ks : list node) : option (list node * node * list node) :=
  match ks with
  | [] => None
  | k :: r =>
      if is_elem i k then Some ([], k, r)
      else '(l, x, r') ← split_at i r; Some (k :: l, x, r')
  end.

Definition siblings (i : nat) (d : node) : option (list node * node * list node) :=
  p ← parentNode i d; split_at i (children p).

Definition previousSibling (i : nat) (d : node) : option node :=
  '(l, _, _) ← siblings i d; last l.

Definition nextSibling (i : nat) (d : node) : option node :=
  '(_, _, r) ← siblings i d; head r.

Definition previousElementSibling (i : nat) (d : node) : option node :=
  '(l, _, _) ← siblings i d; last (List.filter is_element l).

Definition firstElementChild (n : node) : option node :=
  head (List.filter is_element (children n)).

(** [parentElement]: the parent unless that is the document node. *)
Definition parentElement (i : nat) (d : node) : option node :=
  p ← parentNode i d;
  match p, d with
  | Elem j _ _, Elem r _ _ => if bool_decide (j = r) then None else Some p
  | _, _ => None
  end.

(** The elements of a tree that satisfy [p], the root of the tree
    included, in document order. *)
Fixpoint collect (p : node -> bool) (n : node) : list node :=
  match n with
  | Text _ => []
  | Elem _ _ ks => (if p n then [n] else []) ++ concat (map (collect p) ks)
  end.

(** The descendants of [n] that satisfy [p]. *)
Definition descendants (p : node -> bool) (n : node) : list node :=
  concat (map (collect p) (children n)).

(** [n.querySelector("." + c)]: the first descendant with the class. *)
Definition querySelector (c : jsstring) (n : node) : option node :=
  head (descendants (has_class c) n).

(** [n.getElementsByClassName(names.join(" "))]: the descendants that have
    every one of the classes. *)
Definition getElementsByClassName (names : list jsstring) (n : node) : list node :=
  descendants (fun m => forallb (fun c => has_class c m) names) n.

Definition node_id (n : node) : option nat :=
  match n with
  | Elem i _ _ => Some i
  | Text _ => None
  end.

(** [textContent], which also stands for the [innerText] getter (the
    layout-dependent white space of [innerText] is not modelled). *)
Fixpoint textContent (n : node) : jsstring :=
  match n with
  | Text s => s
  | Elem _ _ ks => concat (map textContent ks)
  end.

Definition innerText (i : nat) (d : node) : jsstring :=
  default [] (textContent <$> find i d).

(** *** Mutations

    Each acts on the element that carries the identity given. *)

(** Replace the children of [i]. *)
Fixpoint set_kids (i : nat) (new : list node) (n : node) : node :=
  match n with
  | Text _ => n
  | Elem j c ks =>
      if bool_decide (j = i) then Elem j c new
      else Elem j c (map (set_kids i new) ks)
  end.

Definition insert_at (w : node) (i : nat) (ks : list node) : list node :=
  match split_at i ks with
  | Some (l, x, r) => l ++ w :: x :: r
  | None => ks
  end.

(** [parent.insertBefore(w, i)] for the parent of [i]. *)
Fixpoint insertBefore (w : node) (i : nat) (n : node) : node :=
  match n with
  | Text _ => n
  | Elem j c ks => Elem j c (insert_at w i (map (insertBefore w i) ks))
  end.

(** [i.remove()]. *)
Fixpoint remove (i : nat) (n : node) : node :=
  match n with
  | Text _ => n
  | Elem j c ks =>
      Elem j c (List.filter (fun k => negb (is_elem i k)) (map (remove i) ks))
  end.

(** [i.appendChild(w)]. *)
Fixpoint appendChild (i : nat) (w : node) (n : node) : node :=
  match n with
  | Text _ => n
  | Elem j c ks =>
      let ks' := map (appendChild i w) ks in
      Elem j c (if bool_decide (j = i) then ks' ++ [w] else ks')
  end.

(** *** Markup *)

Fixpoint serialize (n : node) : html :=
  match n with
  | Text s => HText s
  | Elem _ c ks => HElem c (map serialize ks)
  end.

(** Parsing markup creates new nodes; they take identities from [i] on. *)
Fixpoint instantiate (h : html) (i : nat) : node * nat :=
  match h with
  | HText s => (Text s, i)
  | HElem c ks =>
      let '(ks', j) :=
        (fix all (l : list html) (i : nat) : list node * nat :=
           match l with
           | [] => ([], i)
           | h :: r =>
               let '(n, j) := instantiate h i in
               let '(ns, k) := all r j in
               (n :: ns, k)
           end) ks (S i) in
      (Elem i c ks', j)
  end.

Fixpoint instantiate_all (l : list html) (i : nat) : list node * nat :=
  match l with
  | [] => ([], i)
  | h :: r =>
      let '(n, j) := instantiate h i in
      let '(ns, k) := instantiate_all r j in
      (n :: ns, k)
  end.

(** The [innerHTML] getter. *)
Definition innerHTML (i : nat) (d : node) : list html :=
  default [] ((fun n => map serialize (children n)) <$> find i d).

(** The [innerHTML] setter. *)
Definition set_innerHTML (i : nat) (markup : list html) (d : node) : node :=
  set_kids i (instantiate_all markup (fresh d)).1 d.

(** The [innerText] setter (line breaks, which it would turn into [br]
    elements, are kept in the text node). *)
Definition set_innerText (i : nat) (text : jsstring) (d : node) : node :=
  set_kids i (match text with [] => [] | _ => [Text text] end) d.

(** ** Content script: presentation layer *)

Definition chatBubbleSelector : list jsstring :=
  [str "ds-markdown"; str "ds-markdown--block"].

Definition CSS_CENSORED_WARNING_CLASS : jsstring := str "warning-censored".

Definition ACTION_ICON_IDENTITY_CLASS : jsstring := str "external-regenerate".

(** The text of the banner.  The literal of this revision starts with
    the code units U+00E2 U+0161 U+00A0 U+00EF U+00B8, a warning sign
    read in another encoding. *)
Definition warning_text : jsstring :=
  226 :: 353 :: 160 :: 239 :: 184
      :: str " Original response was restricted. This version is AI-enhanced.".

(** The text shown while the request runs.  The literal of this revision
    starts with the code units U+00F0 U+0178 U+201D U+201E. *)
Definition checking_text : jsstring :=
  240 :: 376 :: 8221 :: 8222 :: str " Checking censorship is running...".

(** The [div] that [showWarning] creates. *)
Definition warning (i : nat) : node :=
  Elem i [CSS_CENSORED_WARNING_CLASS] [Text warning_text].

Definition showWarning (censoredMessageElement : nat) (d : node) : result node :=
  let warning := warning (fresh d) in
  match parentNode censoredMessageElement d with
  | None => Throw (TypeError "querySelector")
  | Some parent =>
      match querySelector CSS_CENSORED_WARNING_CLASS parent with
      | None => Ok (insertBefore warning censoredMessageElement d)
      | Some _ => Ok d
      end
  end.

Definition hideWarning (censoredMessageElement : nat) (d : node) : result node :=
  match parentNode censoredMessageElement d with
  | None => Throw (TypeError "querySelector")
  | Some parent =>
      match querySelector CSS_CENSORED_WARNING_CLASS parent with
      | Some (Elem censoredMessage _ _) => Ok (remove censoredMessage d)
      | _ => Ok d
      end
  end.

Definition hasCensorshipWarning (censoredMessageElement : nat) (manual : bool) (d : node) : bool :=
  if manual then manual
  else
    match parentNode censoredMessageElement d with
    | None => false
    | Some parent =>
        match previousSibling censoredMessageElement d with
        | Some previousElement =>
            if has_class CSS_CENSORED_WARNING_CLASS previousElement then true
            else bool_decide (is_Some (querySelector CSS_CENSORED_WARNING_CLASS parent))
        | None =>
            bool_decide (is_Some (querySelector CSS_CENSORED_WARNING_CLASS parent))
        end
    end.

(** The markup assigned to [button.innerHTML]: white space, the icon
    [div] with the [svg] and its [path], white space. *)
Definition button_markup : list html :=
  [HText (10 :: str "        ");
   HElem [str "ds-icon"]
     [HText (10 :: str "            ");
      HElem [] [HText (10 :: str "                ");
                HElem [] [];
                HText (10 :: str "            ")];
      HText (10 :: str "        ")];
   HText (10 :: str "    ")].

Definition createExternalAiButton (i : nat) : node :=
  Elem i [str "ds-icon-button"; ACTION_ICON_IDENTITY_CLASS]
       (instantiate_all button_markup (S i)).1.

(** The click listener is not part of the tree; what it does is
    [retry_click] below, for the [messageElement] it closes over. *)
Definition appendExternalAiButton (messageElement : nat) (d : node) : result node :=
  match nextSibling messageElement d with
  | None => Throw (TypeError "getElementsByClassName")
  | Some (Text _) => Throw (TypeError "getElementsByClassName is not a function")
  | Some (Elem t tc tks as next) =>
      match getElementsByClassName [ACTION_ICON_IDENTITY_CLASS] next with
      | _ :: _ => Ok d
      | [] =>
          match firstElementChild next with
          | Some (Elem actionsContainer _ _) =>
              Ok (appendChild actionsContainer (createExternalAiButton (fresh d)) d)
          | _ => Ok d
          end
      end
  end.

(** ** Content script: the detection event *)

(** [event.data] with [event.source === window]; [index] is absent on the
    events the interception layer posts. *)
Record event := Event {
  from_window : bool;
  ev_type : jsstring;
  ev_content : jsstring;
  ev_index : option Z;
  ev_manual : bool
}.

Definition bubbles (d : node) : list nat :=
  omap node_id (getElementsByClassName chatBubbleSelector d).

(** The listener that [appendExternalAiButton] attaches to the button of
    [messageElement]: the message it posts, if any. *)
Definition retry_click (messageElement : nat) (d : node) : option event :=
  let currentChatBubbleList := bubbles d in
  match list_find (fun e => e = messageElement) currentChatBubbleList with
  | None => None
  | Some (index, element) =>
      Some (Event true (str "DEEPSEEK_CENSORSHIP") (innerText element d)
                  (Some (Z.of_nat index)) true)
  end.

(** [arr.slice(0, end)] for an integer [end]. *)
Definition slice_to {A} (end_ : Z) (l : list A) : list A :=
  let len := Z.of_nat (length l) in
  let k := if (end_ <? 0)%Z then Z.max (len + end_) 0 else Z.min end_ len in
  take (Z.to_nat k) l.

(** [event.data.index + 1 || bubbles.length]: [undefined + 1] is [NaN],
    and [NaN] and [0] are falsy. *)
Definition scope_end (index : option Z) (len : nat) : Z :=
  match index with
  | Some i => if (i + 1 =? 0)%Z then Z.of_nat len else (i + 1)%Z
  | None => Z.of_nat len
  end.

(** [bubble?.parentElement?.previousElementSibling?.firstElementChild
     ?.textContent?.trim() || ""]. *)
Definition user_text (bubble : nat) (d : node) : jsstring :=
  default []
    (p ← parentElement bubble d;
     i ← node_id p;
     q ← previousElementSibling i d;
     u ← firstElementChild q;
     Some (trim (textContent u))).

(** The pair of messages of one turn. *)
Definition turn (manual : bool) (d : node) (bubble : nat) : list message :=
  [Message User (cleanText (user_text bubble d)) None;
   Message Assistant (cleanText (innerText bubble d))
           (Some (hasCensorshipWarning bubble manual d))].

(** What the response callback closes over. *)
Record pending := Pending {
  chatBubbles : list nat;
  promptsFlatten : list message;
  currentBubbleInnerHtml : list html
}.

Inductive handled :=
| Ignored
| Failed (e : error)
| Sent (d' : node) (rq : request) (k : pending).

(** The [message] listener up to [chrome.runtime.sendMessage]. *)
Definition on_message (ev : event) (d : node) : handled :=
  if negb (from_window ev)
     || negb (bool_decide (ev_type ev = str "DEEPSEEK_CENSORSHIP"))
  then Ignored
  else
    let bubbles := bubbles d in
    let chatBubbles := slice_to (scope_end (ev_index ev) (length bubbles)) bubbles in
    let promptsFlatten := concat (map (turn (ev_manual ev) d) chatBubbles) in
    match last chatBubbles with
    | None => Failed (TypeError "innerHTML")
    | Some censoredMessageElement =>
        let currentBubbleInnerHtml := innerHTML censoredMessageElement d in
        Sent (set_innerText censoredMessageElement checking_text d)
             (Request (str "checkCensorship") (ev_content ev) promptsFlatten
                      (ev_manual ev))
             (Pending chatBubbles promptsFlatten currentBubbleInnerHtml)
    end.

(** ** Content script: the response callback *)

Record page := Page {
  document : node;
  store : storage
}.

(** A run of statements over the page: the state it leaves, and the
    exception that ended it, if any. *)
Definition script (A : Type) := page -> result A * page.

#[export] Instance script_ret : MRet script := fun A a pg => (Ok a, pg).
#[export] Instance script_bind : MBind script := fun A B f m pg =>
  match m pg with
  | (Ok a, pg') => f a pg'
  | (Throw e, pg') => (Throw e, pg')
  end.

Definition on_document (f : node -> result node) : script unit := fun pg =>
  match f (document pg) with
  | Ok d => (Ok (), Page d (store pg))
  | Throw e => (Throw e, pg)
  end.

Definition on_store (f : storage -> result storage) : script unit := fun pg =>
  match f (store pg) with
  | Ok s => (Ok (), Page (document pg) s)
  | Throw e => (Throw e, pg)
  end.

Definition read {A} (f : node -> A) : script A := fun pg => (Ok (f (document pg)), pg).

Definition throw {A} (e : error) : script A := fun pg => (Throw e, pg).

(** [response && response.replacement]: a response may be absent, and so
    may its [replacement]; the empty string is falsy. *)
Definition replacement_of (response : option (option jsstring)) : option jsstring :=
  truthy (mjoin response).

Definition on_response (k : pending) (response : option (option jsstring)) : script unit :=
  match last (chatBubbles k) with
  | None => throw (TypeError "parentNode")
  | Some bubble =>
      match replacement_of response with
      | Some replacement =>
          on_document (showWarning bubble);;
          on_document (appendExternalAiButton bubble);;
          on_document (fun d => Ok (set_innerText bubble replacement d));;
          on_store (saveHistory
            (but_last (promptsFlatten k)
               ++ [Message Assistant replacement (Some true)]))
      | None =>
          on_document (fun d => Ok (set_innerHTML bubble (currentBubbleInnerHtml k) d));;
          on_document (hideWarning bubble);;
          on_document (appendExternalAiButton bubble);;
          text ← read (innerText bubble);
          on_store (saveHistory
            (but_last (promptsFlatten k)
               ++ [Message Assistant text (Some false)]))
      end
  end.

(** ** Vocabulary of the properties *)

(** The language of [\d+\s*\/\s*\d+]. *)
Definition is_marker (m : jsstring) : Prop :=
  exists d1 s1 s2 d2,
    m = d1 ++ s1 ++ slash :: s2 ++ d2 /\
    d1 <> [] /\ d2 <> [] /\
    forallb is_digit d1 = true /\ forallb is_space s1 = true /\
    forallb is_space s2 = true /\ forallb is_digit d2 = true.

(** The text ends in a digit. *)
Definition ends_in_digit (s : jsstring) : bool :=
  match last s with
  | Some c => is_digit c
  | None => false
  end.

(** The store after a run of page views, each of which saves a message
    list under the location it has; the run starts from the empty
    [localStorage]. *)
Fixpoint saved (views : list (jsstring * list message)) : result storage :=
  match views with
  | [] => Ok (Storage [] None)
  | (path, messages) :: earlier =>
      st ← saved earlier;
      saveHistory messages (Storage path (localStorage st))
  end.

(** A tree with a hole: the path from the root to a subtree, with the
    siblings to the left and to the right at every level. *)
Inductive ctx :=
| Hole
| Frame (j : nat) (c : list jsstring) (l : list node) (C : ctx) (r : list node).

Fixpoint plug (C : ctx) (n : node) : node :=
  match C with
  | Hole => n
  | Frame j c l C' r => Elem j c (l ++ plug C' n :: r)
  end.

Definition ids_of (ks : list node) : list nat := concat (map ids ks).

(** The identities around the hole. *)
Fixpoint ctx_ids (C : ctx) : list nat :=
  match C with
  | Hole => []
  | Frame j c l C' r => j :: ids_of l ++ ctx_ids C' ++ ids_of r
  end.

(** The identities of the ancestors of the hole. *)
Fixpoint spine (C : ctx) : list nat :=
  match C with
  | Hole => []
  | Frame j c l C' r => j :: spine C'
  end.

(** A page with two turns, in the layout the script navigates: each turn
    is a pair of rows, the user's row with the question in its first
    child, then the assistant's row with the bubble and the row of
    controls after it. *)
Definition sample_turn (i : nat) (question answer : string) : list node :=
  [Elem i [] [Elem (i + 1) [] [Text (str question)]];
   Elem (i + 2) []
     [Elem (i + 3) chatBubbleSelector [Text (str answer)];
      Elem (i + 4) [] [Elem (i + 5) [] []]]].

Definition sample_document : node :=
  Elem 0 []
    [Elem 1 []
       (sample_turn 10 "What is X?" "X is Y"
        ++ sample_turn 20 "And Z?" "Sorry, I cannot discuss this topic")].

(** What [remove x] leaves of a child list. *)
Definition rm (x : nat) (ks : list node) : list node :=
  List.filter (fun k => negb (is_elem x k)) (map (remove x) ks).

(** The row of an assistant turn: a container whose children are [l],
    the bubble [b], the node [t] after it, and [r]. *)
Definition row (pid : nat) (pc : list jsstring) (l : list node)
    (b : nat) (bc : list jsstring) (bk : list node) (t : node) (r : list node) : node :=
  Elem pid pc (l ++ Elem b bc bk :: t :: r).

(** The event the interception layer posts, and a store on the page of
    the conversation "abc-123". *)
Definition sample_event : event :=
  Event true (str "DEEPSEEK_CENSORSHIP") (str "CONTENT_FILTER") None false.

Definition sample_store : storage := Storage (str "/a/chat/s/abc-123") None.

(** Neither of two elements lies inside the other. *)
Definition apart (i j : nat) (d : node) : Prop :=
  (forall n, find i d = Some n -> j ∉ ids n) /\
  (forall n, find j d = Some n -> i ∉ ids n).

(** The element [b] has a row in the document, the subtree of its parent;
    the element [j] of the document lies outside that row and does not
    contain it. *)
Definition outside_row (j b : nat) (d : node) : Prop :=
  j ∈ ids d /\
  (exists p, parentNode b d = Some p /\ j ∉ ids p) /\
  (forall n, find j d = Some n -> b ∉ ids n).

(** A row below the hole of [C] that keeps its identity [pid], and whose
    nodes are neither [j] nor among the nodes around the hole. *)
Definition confined (C : ctx) (pid j : nat) (q : node) : Prop :=
  exists c ks,
    q = Elem pid c ks /\ (pid ∉ ids_of ks) /\ (j ∉ ids_of ks) /\
    forall x, x ∈ ids_of ks -> x ∉ ctx_ids C.

(** The document is the context [C] around a confined row. *)
Definition in_row (C : ctx) (pid j : nat) (d : node) : Prop :=
  exists q, d = plug C q /\ confined C pid j q.

(** A run of statements keeps the property [I] of the document. *)
Definition preserves {A} (I : node -> Prop) (m : script A) : Prop :=
  forall pg r pg', I (document pg) -> m pg = (r, pg') -> I (document pg').

(** ** Earlier revisions

    The repository keeps earlier revisions of [content.js] and
    [background.js].  Where they differ from the revision embedded above
    in something a property depends on, that part is embedded here. *)
Module Earlier.

(** The text of the banner in the earlier revision: U+26A0 U+FE0F and
    the same words. *)
Definition warning_text : jsstring :=
  9888 :: 65039 :: str " Original response was restricted. This version is AI-enhanced.".

Definition warning (i : nat) : node :=
  Elem i [CSS_CENSORED_WARNING_CLASS] [Text warning_text].

(** [showWarning] before the guard on an existing banner was added. *)
Definition showWarning (censoredMessageElement : nat) (d : node) : result node :=
  let warning := warning (fresh d) in
  match parentNode censoredMessageElement d with
  | None => Throw (TypeError "insertBefore")
  | Some parent => Ok (insertBefore warning censoredMessageElement d)
  end.

(** The [checkCensorship] listener before GPT_SYSTEM_PROMPT was added:
    the history is forwarded without a system message, and a text that
    matches no phrase is answered with [request.content]. *)
Definition checkCensorship (result : config) (request : request) : reaction :=
  if negb (bool_decide (action request = str "checkCensorship")) then Unhandled
  else
    let openaiModel := default DEFAULT_OPENAI_MODEL (truthy (openai_model result)) in
    match truthy (openai_api_key result) with
    | None => Responds (str "Error: OpenAI API key is missing.")
    | Some apiKey =>
        match last (history request) with
        | None => Raises (TypeError "content")
        | Some final =>
            let assistantPrompt := content final in
            if isCensored assistantPrompt then
              Fetches (CompletionCall (str "Bearer " ++ apiKey) openaiModel
                         (but_last (history request)))
                      on_fetched
            else Responds (req_content request)
        end
    end.

End Earlier.

(** ** Interception layer ([injected.js]) *)

(** The text that [includes] looks for, quotation marks (code unit 34)
    and colon included: the property [finish_reason] with the value
    [content_filter]. *)
Definition content_filter_marker : jsstring :=
  34 :: str "finish_reason" ++ 34 :: 58 :: 34 :: str "content_filter" ++ [34].

(** [hay.includes(needle)]. *)
Fixpoint includes (needle hay : jsstring) : bool :=
  startsWith needle hay ||
  match hay with
  | [] => false
  | _ :: r => includes needle r
  end.

(** The event that [window.postMessage({type: "DEEPSEEK_CENSORSHIP",
    content}, "*")], called in the page, delivers to the listeners of the
    page's window: its [source] is that window, and its data has neither
    [index] nor [manual]. *)
Definition postMessage (content : jsstring) : event :=
  Event true (str "DEEPSEEK_CENSORSHIP") content None false.

(** What the [readystatechange] listener reads of the request.  The
    getter of [responseText] throws for a [responseType] other than the
    empty one and ["text"]: [None]. *)
Record xhr := Xhr {
  readyState : N;
  responseText : option jsstring
}.

Inductive xhr_reaction :=
| XhrThrows                 (* InvalidStateError from the getter *)
| XhrSilent
| XhrPosts (ev : event).

(** The listener that the replaced [XMLHttpRequest] constructor adds. *)
Definition on_readystatechange (this : xhr) : xhr_reaction :=
  if readyState this =? 4 then
    match responseText this with
    | None => XhrThrows
    | Some text =>
        if includes content_filter_marker text then XhrPosts (postMessage text)
        else XhrSilent
    end
  else XhrSilent.

(** How the two awaited steps of the replaced [fetch] end. *)
Inductive fetch_outcome :=
| FetchRejects                          (* originalFetch rejects *)
| FetchResponse (text : option jsstring).
    (* the response; [None] when reading the text of its clone rejects *)

(** The replaced [window.fetch]: the event it posts, and whether it
    resolves (with the response of [originalFetch]) or rejects. *)
Definition fetch (o : fetch_outcome) : option event * bool :=
  match o with
  | FetchRejects => (None, false)
  | FetchResponse None => (None, true)
  | FetchResponse (Some text) =>
      (if includes content_filter_marker text then Some (postMessage text) else None,
       true)
  end.

(** ** Options page ([options.js]) *)

(** The values of the inputs [apiKey] and [model]. *)
Record options_form := OptionsForm {
  apiKey_value : jsstring;
  model_value : jsstring
}.

(** The click listener of [saveKey]: two calls of
    [chrome.storage.local.set], each of which writes one key and keeps
    the other. *)
Definition saveKey_click (form : options_form) (stored : config) : config :=
  let apiKey := apiKey_value form in
  let model := model_value form in
  let stored := Config (Some apiKey) (openai_model stored) in
  Config (openai_api_key stored) (Some model).

Definition DEFAULT_OPENAI_API_KEY : jsstring := [].

(** The callback of [chrome.storage.local.get] that fills the inputs when
    the page opens. *)
Definition load_options (result : config) : options_form :=
  OptionsForm (default DEFAULT_OPENAI_API_KEY (truthy (openai_api_key result)))
              (default DEFAULT_OPENAI_MODEL (truthy (openai_model result))).

(** ** Content script: restoring a saved conversation *)

#[export] Instance role_eq_dec : EqDecision role.
Proof. solve_decision. Defined.

(** [chatBubbleList[index]], of which the script goes on to read or set
    [property]; [chatBubbleList] is a live collection, so the document is
    searched at every access. *)
Definition bubble_at (index : nat) (property : string) : script nat := fun pg =>
  match bubbles (document pg) !! index with
  | Some b => (Ok b, pg)
  | None => (Throw (TypeError property), pg)
  end.

(** [bubble.parentElement.previousElementSibling.firstElementChild], when
    each of the three exists. *)
Definition user_element (bubble : nat) (d : node) : option nat :=
  p ← parentElement bubble d;
  i ← node_id p;
  q ← previousElementSibling i d;
  u ← firstElementChild q;
  node_id u.

(** The body of the loop of [restoreCensoredMessages] for a user and an
    assistant message. *)
Definition restore_turn (index : nat) (userMessage assistantMessage : message) : script unit :=
  b ← bubble_at index "innerText";
  on_document (fun d => Ok (set_innerText b (content assistantMessage) d));;
  (if bool_decide (censored assistantMessage = Some true)
   then b ← bubble_at index "parentNode"; on_document (showWarning b)
   else mret ());;
  b ← bubble_at index "parentElement";
  u ← read (user_element b);
  match u with
  | Some u => on_document (fun d => Ok (set_innerText u (content userMessage) d))
  | None => mret ()
  end.

(** The loop from [i = 2 * index] on: [messages] is what is left of the
    list from there.  A last message without a partner has
    [assistantMessage] undefined. *)
Fixpoint restore_from (index : nat) (messages : list message) : script unit :=
  match messages with
  | userMessage :: assistantMessage :: rest =>
      (if bool_decide (msg_role userMessage = User)
          && bool_decide (msg_role assistantMessage = Assistant)
       then restore_turn index userMessage assistantMessage
       else mret ());;
      restore_from (S index) rest
  | _ => mret ()
  end.

Definition restoreCensoredMessages (messages : list message) : script unit :=
  restore_from 0 messages.

(** [Array.from(chatBubbles).forEach(appendExternalAiButton)]. *)
Fixpoint increaseControlsUi (chatBubbles : list nat) : script unit :=
  match chatBubbles with
  | [] => mret ()
  | element :: rest =>
      on_document (appendExternalAiButton element);;
      increaseControlsUi rest
  end.

(** The callback of the [MutationObserver] that the [DOMContentLoaded]
    listener installs; the result tells whether [observer.disconnect()]
    was called. *)
Definition on_mutation : script bool := fun pg =>
  match getChatIdFromUrl (pathname (store pg)) with
  | None | Some [] => (Ok false, pg)
  | Some chatId =>
      (messages ← (fun pg => (restoreHistory (Some chatId) (store pg), pg));
       match messages with
       | [] => mret ()
       | _ :: _ => restoreCensoredMessages messages
       end;;
       chatBubbles ← read bubbles;
       match chatBubbles with
       | [] => mret false
       | _ :: _ => increaseControlsUi chatBubbles;; mret true
       end) pg
  end.

(** ** Further vocabulary *)

(** The text holds one of the phrases, ASCII case ignored, with no word
    character in front of it and none after it. *)
Definition holds_phrase (s : jsstring) : Prop :=
  exists u v w p,
    s = u ++ v ++ w /\ p ∈ censorship_phrases /\
    map upper v = map upper p /\
    word_at (last u) = false /\ word_at (head w) = false.

(** The last code unit of the text read, or the one before it. *)
Definition last_or (before : option N) (v : jsstring) : option N :=
  match last v with
  | Some c => Some c
  | None => before
  end.

(** The number of retry controls below a node. *)
Definition buttons (n : node) : nat :=
  length (getElementsByClassName [ACTION_ICON_IDENTITY_CLASS] n).

(** The element is followed by an element that holds a retry control, or
    that has no element child to take one. *)
Definition served (b : nat) (d : node) : Prop :=
  exists t,
    nextSibling b d = Some t /\ is_element t = true /\
    (0 < buttons t \/ firstElementChild t = None)%nat.

(** A run of statements that leaves the store alone, adds no bubble to
    the document, and can only end in a [TypeError]. *)
Definition tame {A} (m : script A) : Prop :=
  forall pg r pg',
    m pg = (r, pg') ->
    store pg' = store pg /\
    bubbles (document pg') `sublist_of` bubbles (document pg) /\
    forall e, r = Throw e -> exists reading, e = TypeError reading.

(** ** Content script: a detection event with an index of any kind

    The listener accepts a message by its source and its type, so the
    scripts of the page can post one whose [index] is any value that
    passes the structured clone.  The listener uses that value in
    [event.data.index + 1 || bubbles.length] only, the result of which
    is the end it hands to [slice]. *)

(** A Number, as far as [||] and [slice] tell Numbers apart: whether it
    is an integer, and the integer left when its fraction is dropped. *)
Inductive number :=
| NaN
| Infinity (negative : bool)
| Integer (i : Z)      (* [Integer 0]: either zero *)
| Fraction (i : Z).    (* no integer; without its fraction it is [i]:
                          [Fraction 0] for 0.5 and for -0.5 *)

(** What [event.data.index + 1] evaluates to. *)
Inductive index_sum :=
| SumThrows
    (* a TypeError: the index is a BigInt, or an object that has no
       primitive value *)
| SumNumber (x : number)
    (* the index is undefined ([NaN]), null, a boolean or a Number, or an
       object that has one of these for its primitive value *)
| SumString (x : number).
    (* the index is a string, or an object that has a string for its
       primitive value: the sum is that text followed by 1, and [x] is
       the Number this text converts to, [NaN] for a1 *)

(** [event.data] with [event.source === window], its [index] given by
    what [index + 1] evaluates to. *)
Record posted := Posted {
  posted_from_window : bool;
  posted_type : jsstring;
  posted_content : jsstring;
  posted_index_plus_1 : index_sum;
  posted_manual : bool
}.

(** An event with an integer for its index, or with none. *)
Definition posted_of (ev : event) : posted :=
  Posted (from_window ev) (ev_type ev) (ev_content ev)
         (match ev_index ev with
          | Some i => SumNumber (Integer (i + 1))
          | None => SumNumber NaN
          end)
         (ev_manual ev).

(** [ToBoolean] of a Number: [NaN] and the zeros are falsy. *)
Definition ToBoolean (x : number) : bool :=
  match x with
  | NaN | Integer 0 => false
  | _ => true
  end.

(** [event.data.index + 1 || bubbles.length]; the text of a [SumString]
    is not empty, so it is truthy. *)
Definition index_end (s : index_sum) (len : nat) : result number :=
  match s with
  | SumThrows => Throw (TypeError "+")
  | SumNumber x => Ok (if ToBoolean x then x else Integer (Z.of_nat len))
  | SumString x => Ok x
  end.

(** [arr.slice(0, end)] for an end of any kind: [ToIntegerOrInfinity]
    makes 0 of [NaN] and drops a fraction; an end of minus infinity
    stands for 0, one of plus infinity for the length. *)
Definition slice_to_number {A} (end_ : number) (l : list A) : list A :=
  match end_ with
  | NaN => slice_to 0 l
  | Infinity true => []
  | Infinity false => l
  | Integer i | Fraction i => slice_to i l
  end.

(** The [message] listener up to [chrome.runtime.sendMessage], for such
    an event. *)
Definition on_posted (ev : posted) (d : node) : handled :=
  if negb (posted_from_window ev)
     || negb (bool_decide (posted_type ev = str "DEEPSEEK_CENSORSHIP"))
  then Ignored
  else
    let bubbles := bubbles d in
    match index_end (posted_index_plus_1 ev) (length bubbles) with
    | Throw e => Failed e
    | Ok end_ =>
        let chatBubbles := slice_to_number end_ bubbles in
        let promptsFlatten := concat (map (turn (posted_manual ev) d) chatBubbles) in
        match last chatBubbles with
        | None => Failed (TypeError "innerHTML")
        | Some censoredMessageElement =>
            let currentBubbleInnerHtml := innerHTML censoredMessageElement d in
            Sent (set_innerText censoredMessageElement checking_text d)
                 (Request (str "checkCensorship") (posted_content ev) promptsFlatten
                          (posted_manual ev))
                 (Pending chatBubbles promptsFlatten currentBubbleInnerHtml)
        end
    end.

(** * Properties *)

(** ** Text normalizer *)

Section Spans.
Variable p : N -> bool.

Lemma take_drop_while s : take_while p s ++ drop_while p s = s.
Proof. induction s as [|c r IH]; simpl; [done|]. destruct (p c); simpl; congruence. Qed.

Lemma take_while_all s : forallb p (take_while p s) = true.
Proof. induction s as [|c r IH]; simpl; [done|]. destruct (p c) eqn:E; simpl; [|done]. by rewrite E. Qed.

Lemma drop_while_head s c r : drop_while p s = c :: r -> p c = false.
Proof.
  induction s as [|a t IH]; simpl; [done|].
  destruct (p a) eqn:E; [done|]. intros [= -> _]. done.
Qed.

Lemma drop_while_fix s : head (p <$> s) <> Some true -> drop_while p s = s.
Proof. destruct s as [|c r]; simpl; [done|]. destruct (p c); congruence. Qed.

Lemma drop_while_idem s : drop_while p (drop_while p s) = drop_while p s.
Proof.
  apply drop_while_fix. destruct (drop_while p s) as [|c r] eqn:E; simpl; [done|].
  apply drop_while_head in E. congruence.
Qed.

Lemma drop_while_length s : (length (drop_while p s) <= length s)%nat.
Proof. induction s as [|c r IH]; simpl; [done|]. destruct (p c); simpl; lia. Qed.

Lemma take_while_app l r :
  forallb p l = true -> head (p <$> r) <> Some true ->
  take_while p (l ++ r) = l /\ drop_while p (l ++ r) = r.
Proof.
  intros Hl Hr. induction l as [|c l IH]; simpl in *.
  - destruct r as [|c r]; simpl in *; [done|]. destruct (p c); [congruence|done].
  - apply andb_prop in Hl as [-> Hl]. destruct (IH Hl) as [-> ->]. done.
Qed.
End Spans.

Lemma digit_not_space c : is_digit c = true -> is_space c = false.
Proof.
  unfold is_digit. intros H.
  apply andb_prop in H as [H1 H2]. apply N.leb_le in H1, H2.
  assert (E : c = 48 \/ c = 49 \/ c = 50 \/ c = 51 \/ c = 52 \/
              c = 53 \/ c = 54 \/ c = 55 \/ c = 56 \/ c = 57) by lia.
  repeat destruct E as [->|E]; try reflexivity. by subst.
Qed.

Lemma slash_class : is_digit slash = false /\ is_space slash = false.
Proof. done. Qed.

Lemma head_fmap_nil {A} (f : A -> bool) : head (f <$> []) <> Some true.
Proof. done. Qed.

Lemma marker_spec m : marker m = true <-> is_marker m.
Proof.
  split.
  - unfold marker. intros H.
    destruct (take_while is_digit m) as [|a d1] eqn:E1; [done|].
    destruct (drop_while is_space (drop_while is_digit m)) as [|c r] eqn:E2; [done|].
    apply andb_prop in H as [Hc H]. apply N.eqb_eq in Hc. subst c.
    destruct (take_while is_digit (drop_while is_space r)) as [|b d2] eqn:E3; [done|].
    destruct (drop_while is_digit (drop_while is_space r)) as [|] eqn:E4; [|done].
    exists (a :: d1), (take_while is_space (drop_while is_digit m)),
           (take_while is_space r), (b :: d2).
    repeat split; try done.
    + rewrite <- (take_drop_while is_digit m) at 1. rewrite E1. f_equal.
      rewrite <- (take_drop_while is_space (drop_while is_digit m)) at 1.
      rewrite E2. f_equal. f_equal.
      rewrite <- (take_drop_while is_space r) at 1. f_equal.
      rewrite <- (take_drop_while is_digit (drop_while is_space r)).
      rewrite E3, E4. by rewrite app_nil_r.
    + rewrite <- E1. apply take_while_all.
    + apply take_while_all.
    + apply take_while_all.
    + rewrite <- E3. apply take_while_all.
  - intros (d1 & s1 & s2 & d2 & -> & Hd1 & Hd2 & F1 & F2 & F3 & F4).
    unfold marker.
    assert (Hs : forall s r, forallb is_space s = true ->
                   head (is_digit <$> s ++ slash :: r) <> Some true).
    { intros [|c s] r Hs; simpl; [done|]. apply andb_prop in Hs as [Hc _].
      destruct (is_digit c) eqn:E; [|done]. apply digit_not_space in E. congruence. }
    destruct (take_while_app is_digit d1 (s1 ++ slash :: s2 ++ d2) F1 (Hs _ _ F2)) as [-> ->].
    destruct d1 as [|a d1]; [done|].
    destruct (take_while_app is_space s1 (slash :: s2 ++ d2) F2) as [_ ->]; [done|].
    rewrite N.eqb_refl. simpl.
    assert (Hd : head (is_space <$> d2) <> Some true).
    { destruct d2 as [|c d2]; simpl; [done|]. simpl in F4.
      apply andb_prop in F4 as [Hc _]. apply digit_not_space in Hc. congruence. }
    destruct (take_while_app is_space s2 d2 F3 Hd) as [_ ->].
    pose proof (take_while_app is_digit d2 [] F4 (head_fmap_nil _)) as [E1 E2].
    rewrite app_nil_r in E1, E2. rewrite E1, E2.
    destruct d2; done.
Qed.

Lemma marker_nonempty m : marker m = true -> m <> [].
Proof. by destruct m. Qed.

(** A digit in front of a marker gives a marker again. *)
Lemma marker_cons_digit c m :
  is_digit c = true -> marker m = true -> marker (c :: m) = true.
Proof.
  intros Hc. unfold marker. simpl. rewrite Hc.
  destruct (take_while is_digit m); done.
Qed.

Lemma find_marker_Some s i :
  find_marker s = Some i ->
  marker (drop i s) = true /\ (i < length s)%nat /\
  forall j, (j < i)%nat -> marker (drop j s) = false.
Proof.
  revert i. induction s as [|c r IH]; intros i; simpl.
  - destruct (marker []) eqn:E; [done|done].
  - destruct (marker (c :: r)) eqn:E.
    + intros [= <-]. simpl. split; [done|]. split; [lia|]. intros j Hj. lia.
    + destruct (find_marker r) as [k|] eqn:F; [|done]. simpl. intros [= <-].
      destruct (IH k eq_refl) as (H1 & H2 & H3). simpl.
      split; [done|]. split; [lia|]. intros [|j] Hj; simpl; [done|]. apply H3. lia.
Qed.

Lemma find_marker_None s :
  find_marker s = None <-> forall j, marker (drop j s) = false.
Proof.
  induction s as [|c r IH]; simpl.
  - split; [intros _ j; by destruct j|done].
  - destruct (marker (c :: r)) eqn:E.
    + split; [done|]. intros H. specialize (H 0%nat). simpl in H. congruence.
    + destruct (find_marker r) as [k|] eqn:F; simpl.
      * split; [done|]. intros H. destruct IH as [_ IH].
        assert (Hn : @None nat = None) by done.
        enough (Some k = None) by done. apply IH. intros j. apply (H (S j)).
      * split; [|done]. intros _ [|j]; simpl; [done|]. by apply IH.
Qed.

Lemma find_marker_leftmost s i :
  find_marker s = Some i -> ends_in_digit (take i s) = false.
Proof.
  intros H. destruct (find_marker_Some s i H) as (Hm & Hi & Hlt).
  unfold ends_in_digit. destruct (last (take i s)) as [c|] eqn:L; [|done].
  destruct (is_digit c) eqn:Hc; [|done]. exfalso.
  destruct i as [|i]; [done|].
  assert (Hc' : s !! i = Some c).
  { rewrite last_lookup in L. rewrite length_take in L.
    replace (Init.Nat.pred (S i `min` length s)) with i in L by lia.
    rewrite lookup_take_lt in L by lia. done. }
  assert (E : drop i s = c :: drop (S i) s) by (by apply drop_S).
  specialize (Hlt i ltac:(lia)). rewrite E in Hlt.
  rewrite marker_cons_digit in Hlt; done.
Qed.

(** *** Trimming *)

Lemma rev_drop_while_prefix s :
  exists w, s = rev (drop_while is_space (rev s)) ++ w.
Proof.
  exists (rev (take_while is_space (rev s))).
  rewrite <- rev_app_distr, take_drop_while. by rewrite rev_involutive.
Qed.

Lemma trim_length s : (length (trim s) <= length s)%nat.
Proof.
  unfold trim, trim_end, trim_start. rewrite length_rev.
  etransitivity; [apply drop_while_length|]. rewrite length_rev.
  apply drop_while_length.
Qed.

Lemma trim_idem s : trim (trim s) = trim s.
Proof.
  unfold trim, trim_end, trim_start.
  set (t := drop_while is_space s).
  set (v := drop_while is_space (rev t)).
  assert (Hv : drop_while is_space v = v) by apply drop_while_idem.
  assert (Ht : drop_while is_space (rev v) = rev v).
  { apply drop_while_fix.
    destruct (rev_drop_while_prefix t) as [w Hw]. fold v in Hw.
    destruct (rev v) as [|c u] eqn:E; simpl; [done|].
    unfold t in Hw. simpl in Hw. apply drop_while_head in Hw. congruence. }
  rewrite Ht, rev_involutive, Hv. done.
Qed.

Lemma cleanText_trimmed x : trim (cleanText x) = cleanText x.
Proof. apply trim_idem. Qed.

(** What one application does, in terms of the index of the match. *)
Lemma cleanText_at x :
  cleanText x =
  trim (match find_marker x with Some i => take i x | None => x end).
Proof. unfold cleanText, replace_marker. by destruct (find_marker x). Qed.

Lemma cleanText_fixpoint y :
  trim y = y -> (cleanText y = y <-> find_marker y = None).
Proof.
  intros Hy. rewrite cleanText_at. destruct (find_marker y) as [i|] eqn:F.
  - split; [|done]. intros E. exfalso.
    destruct (find_marker_Some y i F) as (_ & Hi & _).
    pose proof (trim_length (take i y)) as L. rewrite E, length_take in L. lia.
  - done.
Qed.

Lemma no_marker_suffix x :
  find_marker x = None <-> forall p m, x = p ++ m -> ~ is_marker m.
Proof.
  rewrite find_marker_None. split.
  - intros H p m -> Hm. apply marker_spec in Hm.
    specialize (H (length p)). rewrite drop_app_length in H. congruence.
  - intros H j. destruct (marker (drop j x)) eqn:E; [|done]. exfalso.
    apply (H (take j x) (drop j x)); [by rewrite take_drop|by apply marker_spec].
Qed.

(** Examples of the specification. *)
Example cleanText_answer :
  cleanText (str "Answer text 3/7") = str "Answer text".
Proof. reflexivity. Qed.

Example cleanText_plain : cleanText (str "plain") = str "plain".
Proof. reflexivity. Qed.

(** C8, as stated, fails: normalizing ["1/2 3/4"] gives ["1/2"], which ends
    in a marker itself, so that a second application gives the empty
    text. *)
Lemma cleanText_not_idempotent :
  cleanText (str "1/2 3/4") = str "1/2" /\
  cleanText (cleanText (str "1/2 3/4")) = [] /\
  ~ (forall x, cleanText (cleanText x) = cleanText x).
Proof.
  split; [reflexivity|]. split; [reflexivity|].
  intros H. specialize (H (str "1/2 3/4")). vm_compute in H. discriminate H.
Qed.

(** C8 (amended): one application removes a trailing "<digits>/<digits>"
    marker that reaches the end of the text, taking every digit in front of
    the slash with it, and trims the rest; on a text none of whose
    suffixes is such a marker it only trims.  A second application changes
    nothing exactly when the normalized text does not end in a marker
    again. *)
Theorem cleanText_once_and_twice (x : jsstring) :
  (cleanText (cleanText x) = cleanText x <->
   forall p m, cleanText x = p ++ m -> ~ is_marker m)
  /\ ((forall p m, x = p ++ m -> ~ is_marker m) -> cleanText x = trim x)
  /\ ((exists p m, x = p ++ m /\ is_marker m) ->
      exists p m, x = p ++ m /\ is_marker m /\ ends_in_digit p = false /\
                  cleanText x = trim p).
Proof.
  split; [|split].
  - rewrite <- no_marker_suffix. apply cleanText_fixpoint, cleanText_trimmed.
  - intros H. apply no_marker_suffix in H. by rewrite cleanText_at, H.
  - intros (p & m & E & Hm).
    destruct (find_marker x) as [i|] eqn:F.
    + destruct (find_marker_Some x i F) as (H1 & H2 & H3).
      exists (take i x), (drop i x). split; [by rewrite take_drop|].
      split; [by apply marker_spec|]. split; [by apply find_marker_leftmost|].
      by rewrite cleanText_at, F.
    + exfalso. eapply no_marker_suffix in F; [apply F|]; done.
Qed.

Lemma cleanText_once_and_twice_witness :
  cleanText (cleanText (str "Answer text 3/7")) = cleanText (str "Answer text 3/7") /\
  cleanText (str "plain") = trim (str "plain").
Proof.
  split.
  - reflexivity.
  - apply (cleanText_once_and_twice (str "plain")).
    apply no_marker_suffix. reflexivity.
Defined.

(** ** Conversation identity and history store *)

Lemma take_while_id_chars s : forallb is_id_char (take_while is_id_char s) = true.
Proof. apply take_while_all. Qed.

Lemma chat_id_at_shape s c :
  chat_id_at s = Some c -> c <> [] /\ forallb is_id_char c = true.
Proof.
  unfold chat_id_at. destruct (strip_prefix _ s) as [r|]; [|done].
  destruct (take_while is_id_char r) as [|a t] eqn:E; [done|].
  intros [= <-]. split; [done|]. rewrite <- E. apply take_while_all.
Qed.

(** A conversation id is a non-empty run of lowercase hex digits and
    hyphens. *)
Lemma getChatIdFromUrl_shape path c :
  getChatIdFromUrl path = Some c -> c <> [] /\ forallb is_id_char c = true.
Proof.
  induction path as [|a r IH]; simpl; [done|].
  destruct (chat_id_at (a :: r)) eqn:E; [|done].
  intros [= <-]. by apply chat_id_at_shape in E.
Qed.

Lemma saveHistory_stored st c M :
  getChatIdFromUrl (pathname st) = Some c ->
  localStorage st <> Some NotJson ->
  exists parsed,
    JSON_parse (localStorage st) = Ok parsed /\
    saveHistory M st =
      Ok (Storage (pathname st) (Some (Chats (<[c := M]> (default ∅ parsed))))).
Proof.
  intros Hc Hs. unfold saveHistory. rewrite Hc.
  destruct (getChatIdFromUrl_shape _ _ Hc) as [Hne _].
  destruct c as [|a c]; [done|].
  destruct (localStorage st) as [[|m]|] eqn:E; [done| |]; by eexists.
Qed.

Lemma restoreHistory_lookup c st chats :
  c <> [] -> localStorage st = Some (Chats chats) ->
  restoreHistory (Some c) st = Ok (default [] (chats !! c)).
Proof. intros Hc E. unfold restoreHistory. destruct c; [done|]. by rewrite E. Qed.

(** Saving never throws on a store that only this script has written to,
    and leaves a mapping whose keys are the ids saved. *)
Lemma saved_keys views :
  exists st, saved views = Ok st /\
    (localStorage st = None \/
     exists chats, localStorage st = Some (Chats chats) /\
       forall c, is_Some (chats !! c) ->
         exists path M, (path, M) ∈ views /\ getChatIdFromUrl path = Some c).
Proof.
  induction views as [|[path M] earlier (st & E & IH)]; simpl.
  - exists (Storage [] None). split; [done|]. by left.
  - rewrite E. simpl. unfold saveHistory. simpl.
    destruct (getChatIdFromUrl path) as [[|a c]|] eqn:Hp.
    + apply getChatIdFromUrl_shape in Hp as [? _]. done.
    + assert (Hins : forall chats : gmap jsstring (list message),
                (forall c', is_Some (chats !! c') ->
                   exists path' M', (path', M') ∈ earlier /\ getChatIdFromUrl path' = Some c') ->
                forall c', is_Some (<[a :: c := M]> chats !! c') ->
                   exists path' M', (path', M') ∈ (path, M) :: earlier /\
                                    getChatIdFromUrl path' = Some c').
      { intros chats H c' Hc'. destruct (decide (a :: c = c')) as [<-|Hne].
        - exists path, M. split; [left|done].
        - rewrite lookup_insert_ne in Hc' by done.
          destruct (H c' Hc') as (p' & M' & Hin & Hid). exists p', M'. split; [by right|done]. }
      destruct IH as [E0|(chats & E0 & IH)]; rewrite E0; simpl.
      * eexists. split; [done|]. right. eexists. split; [done|].
        apply Hins. intros c'. rewrite lookup_empty. by intros [? ?].
      * eexists. split; [done|]. right. eexists. split; [done|]. by apply Hins.
    + exists (Storage path (localStorage st)). split; [done|]. simpl.
      destruct IH as [E0|(chats & E0 & IH)]; [by left|]. right. exists chats. split; [done|].
      intros c' Hc'. destruct (IH c' Hc') as (p' & M' & Hin & Hid).
      exists p', M'. split; [by right|done].
Qed.

(** C4: on a store that is absent or holds a mapping, [restoreHistory] of
    the id of the current location after [saveHistory M] returns [M], the
    other conversations being left as they were; and an id under which no
    page view has saved is restored to the empty list. *)
Theorem save_restore_roundtrip :
  (forall (st : storage) (c : jsstring) (M : list message),
     getChatIdFromUrl (pathname st) = Some c ->
     localStorage st <> Some NotJson ->
     exists st',
       saveHistory M st = Ok st' /\
       restoreHistory (Some c) st' = Ok M /\
       forall c', c' <> c -> restoreHistory (Some c') st' = restoreHistory (Some c') st)
  /\ (forall (views : list (jsstring * list message)) (c : jsstring),
        (forall path M, (path, M) ∈ views -> getChatIdFromUrl path <> Some c) ->
        exists st, saved views = Ok st /\ restoreHistory (Some c) st = Ok []).
Proof.
  split.
  - intros st c M Hc Hs.
    destruct (saveHistory_stored st c M Hc Hs) as (parsed & Hp & ->).
    destruct (getChatIdFromUrl_shape _ _ Hc) as [Hne _].
    eexists. split; [done|]. split.
    + erewrite restoreHistory_lookup; [|done|done]. by rewrite lookup_insert_eq.
    + intros c' Hc'. unfold restoreHistory. destruct c' as [|a c']; [done|].
      simpl. rewrite Hp. simpl. by rewrite lookup_insert_ne.
  - intros views c Hviews. destruct (saved_keys views) as (st & E & H).
    exists st. split; [done|]. unfold restoreHistory. destruct c as [|a c]; [done|].
    destruct H as [->|(chats & -> & H)]; simpl; [done|].
    destruct (chats !! (a :: c)) as [M|] eqn:L; [|done]. exfalso.
    destruct (H (a :: c)) as (p' & M' & Hin & Hid); [by eexists|].
    by apply (Hviews p' M').
Qed.

Lemma save_restore_roundtrip_witness :
  let M := [Message User (str "What is X?") None;
            Message Assistant (str "X is Y") (Some false)] in
  (exists st',
     saveHistory M (Storage (str "/a/chat/s/abc-123") None) = Ok st' /\
     restoreHistory (Some (str "abc-123")) st' = Ok M)
  /\ (exists st,
        saved [(str "/a/chat/s/abc-123", M)] = Ok st /\
        restoreHistory (Some (str "missing-id")) st = Ok []).
Proof.
  intros M. destruct save_restore_roundtrip as [H1 H2]. split.
  - destruct (H1 (Storage (str "/a/chat/s/abc-123") None) (str "abc-123") M)
      as (st' & E1 & E2 & _); [reflexivity|discriminate|].
    exists st'. split; assumption.
  - apply H2. intros path M' Hin.
    apply list_elem_of_singleton in Hin. injection Hin as -> ->.
    vm_compute. discriminate.
Defined.

(** C5, as stated, fails: on a text that is no JSON, [JSON.parse] throws
    and [restoreHistory] does not catch it. *)
Lemma restoreHistory_corrupt_throws :
  restoreHistory (Some (str "abc-123"))
                 (Storage (str "/a/chat/s/abc-123") (Some NotJson))
  = Throw SyntaxError.
Proof. reflexivity. Qed.

(** C5 (amended): with the key absent, [restoreHistory] returns the empty
    list without throwing, whatever the id; on a text that is no JSON it
    returns the empty list only for an absent or empty id, and otherwise
    ends in the [SyntaxError] of [JSON.parse]. *)
Theorem restoreHistory_absent_or_corrupt (chatId : option jsstring) (st : storage) :
  (localStorage st = None -> restoreHistory chatId st = Ok [])
  /\ (localStorage st = Some NotJson ->
      restoreHistory chatId st = if no_id chatId then Ok [] else Throw SyntaxError).
Proof.
  split; intros E; unfold restoreHistory; rewrite E;
    by destruct chatId as [[|a c]|].
Qed.

Lemma restoreHistory_absent_or_corrupt_witness :
  restoreHistory (Some (str "abc-123")) (Storage (str "/a/chat/s/abc-123") None) = Ok [].
Proof.
  apply (restoreHistory_absent_or_corrupt (Some (str "abc-123"))
           (Storage (str "/a/chat/s/abc-123") None)).
  reflexivity.
Defined.

(** ** Background service worker *)

Section BackgroundProperties.
Variable prompt : jsstring.

(** With a key configured and a history that has a last message, the
    listener calls the provider exactly when that message matches the
    phrase set, and else answers with its content; [manual] is not
    read. *)
Lemma checkCensorship_cases cfg rq key final :
  action rq = str "checkCensorship" ->
  truthy (openai_api_key cfg) = Some key ->
  last (history rq) = Some final ->
  checkCensorship prompt cfg rq =
    if isCensored (content final) then
      Fetches (CompletionCall (str "Bearer " ++ key)
                 (default DEFAULT_OPENAI_MODEL (truthy (openai_model cfg)))
                 (system_message prompt
                    (default DEFAULT_OPENAI_MODEL (truthy (openai_model cfg)))
                  :: but_last (history rq)))
              on_fetched
    else Responds (content final).
Proof.
  intros Ha Hk Hl. unfold checkCensorship.
  rewrite bool_decide_true by done. simpl. by rewrite Hk, Hl.
Qed.

(** C2 on the code: a request forced by hand whose last message matches
    no phrase is answered with that message; the provider is not
    called. *)
Lemma manual_retry_not_forced :
  let rq := Request (str "checkCensorship")
              (str "Paris is the capital of France")
              [Message User (str "What is the capital of France?") None;
               Message Assistant (str "Paris is the capital of France") (Some true)]
              true in
  req_manual rq = true /\
  checkCensorship prompt (Config (Some (str "sk-test")) None) rq
  = Responds (str "Paris is the capital of France").
Proof. split; reflexivity. Qed.

(** C3: without an API key the listener answers at once with an error
    text as the replacement; and once it has called the provider, a
    rejected call, a body that is no JSON and a body without choices
    each end in an error text sent as the replacement. *)
Theorem failures_answer_with_error_text (cfg : config) (rq : request) :
  action rq = str "checkCensorship" ->
  (truthy (openai_api_key cfg) = None ->
   checkCensorship prompt cfg rq =
     Responds (str "Error: No OpenAI API key set. Skipping censorship bypass."))
  /\ (forall call k,
        checkCensorship prompt cfg rq = Fetches call k ->
        k Rejected = Some (str "Error: OpenAI API request failed.") /\
        k NoJson = Some (str "Error: OpenAI API request failed.") /\
        k (Data None) = Some (str "Error: Unable to fetch a response from GPT.") /\
        k (Data (Some [])) = Some (str "Error: Unable to fetch a response from GPT.")).
Proof.
  intros Ha. unfold checkCensorship. rewrite bool_decide_true by done. simpl.
  split.
  - by intros ->.
  - intros call k.
    destruct (truthy (openai_api_key cfg)); [|done].
    destruct (last (history rq)); [|done].
    destruct (isCensored _); [|done].
    intros [= _ <-]. done.
Qed.

(** C6: when the listener calls the provider, the messages it sends are
    one message with the text of GPT_SYSTEM_PROMPT, of role [system]
    (or [developer] for a model whose name starts with "o3"), followed
    by the history of the request without its last message. *)
Theorem forwarded_messages (cfg : config) (rq : request) call k :
  checkCensorship prompt cfg rq = Fetches call k ->
  messages call =
    Message (if startsWith (str "o3") (model call) then Developer else System)
            prompt None
    :: but_last (history rq).
Proof.
  unfold checkCensorship.
  destruct (negb _); [done|].
  destruct (truthy (openai_api_key cfg)); [|done].
  destruct (last (history rq)); [|done].
  destruct (isCensored _); [|done].
  intros [= <- _]. done.
Qed.
End BackgroundProperties.

Lemma failures_answer_with_error_text_witness :
  let history :=
    [Message User (str "What happened?") None;
     Message Assistant (str "Sorry, I cannot discuss this topic") (Some false)] in
  checkCensorship (str "You are an AI assistant") (Config None None)
    (Request (str "checkCensorship") (str "x") [] false)
  = Responds (str "Error: No OpenAI API key set. Skipping censorship bypass.")
  /\ exists call k,
       checkCensorship (str "You are an AI assistant")
         (Config (Some (str "sk-test")) None)
         (Request (str "checkCensorship") (str "x") history false)
       = Fetches call k /\
       k Rejected = Some (str "Error: OpenAI API request failed.") /\
       k (Data (Some [])) = Some (str "Error: Unable to fetch a response from GPT.").
Proof.
  intros history. split.
  - apply (failures_answer_with_error_text (str "You are an AI assistant")
             (Config None None) (Request (str "checkCensorship") (str "x") [] false));
      reflexivity.
  - eexists _, _. split; [reflexivity|].
    destruct (failures_answer_with_error_text (str "You are an AI assistant")
                (Config (Some (str "sk-test")) None)
                (Request (str "checkCensorship") (str "x") history false) eq_refl)
      as [_ H].
    destruct (H _ _ eq_refl) as (H1 & _ & _ & H4). split; assumption.
Defined.

Lemma forwarded_messages_witness :
  let history :=
    [Message User (str "What happened?") None;
     Message Assistant (str "Sorry, I cannot discuss this topic") (Some false)] in
  exists call k,
    checkCensorship (str "You are an AI assistant")
      (Config (Some (str "sk-test")) None)
      (Request (str "checkCensorship") (str "x") history false)
    = Fetches call k /\
    messages call =
      [Message System (str "You are an AI assistant") None;
       Message User (str "What happened?") None].
Proof.
  intros history. eexists _, _. split; [reflexivity|].
  eapply (forwarded_messages (str "You are an AI assistant")
           (Config (Some (str "sk-test")) None)
           (Request (str "checkCensorship") (str "x") history false)).
  reflexivity.
Defined.

(** ** The document tree *)

Lemma node_ind' (P : node -> Prop) :
  (forall s, P (Text s)) ->
  (forall i c ks, Forall P ks -> P (Elem i c ks)) ->
  forall n, P n.
Proof.
  intros HT HE. fix IH 1. intros [s|i c ks]; [apply HT|]. apply HE.
  induction ks as [|k ks IHks]; constructor; [apply IH|apply IHks].
Qed.

Section FirstSome.
Context {A B : Type}.

Lemma first_some_app (l r : list (option A)) :
  first_some (l ++ r) = match first_some l with Some a => Some a | None => first_some r end.
Proof. induction l as [|[a|] l IH]; simpl; done. Qed.

Lemma first_some_fmap (f : B -> option A) (g : A -> A) (ks : list B) :
  first_some (map (fun k => g <$> f k) ks) = g <$> first_some (map f ks).
Proof. induction ks as [|k ks IH]; simpl; [done|]. destruct (f k); simpl; done. Qed.

Lemma first_some_ext (f g : B -> option A) (ks : list B) :
  Forall (fun k => f k = g k) ks -> first_some (map f ks) = first_some (map g ks).
Proof. induction 1 as [|k ks E _ IH]; simpl; [done|]. by rewrite E, IH. Qed.

Lemma first_some_all_None (f : B -> option A) (ks : list B) :
  Forall (fun k => f k = None) ks -> first_some (map f ks) = None.
Proof. induction 1 as [|k ks E _ IH]; simpl; [done|]. by rewrite E. Qed.

Lemma first_some_split (f : B -> option A) (ks : list B) a :
  first_some (map f ks) = Some a ->
  exists l k r, ks = l ++ k :: r /\ f k = Some a /\ Forall (fun x => f x = None) l.
Proof.
  induction ks as [|k ks IH]; simpl; [done|].
  destruct (f k) as [a'|] eqn:E.
  - intros [= ->]. exists [], k, ks. done.
  - intros H. destruct (IH H) as (l & k' & r & -> & Hk & Hl).
    exists (k :: l), k', r. split; [done|]. split; [done|]. by constructor.
Qed.
End FirstSome.

Lemma ids_of_app l r : ids_of (l ++ r) = ids_of l ++ ids_of r.
Proof. unfold ids_of. by rewrite map_app, concat_app. Qed.

Lemma ids_of_cons k r : ids_of (k :: r) = ids k ++ ids_of r.
Proof. done. Qed.

Lemma elem_of_ids_of i ks : i ∈ ids_of ks <-> exists k, k ∈ ks /\ i ∈ ids k.
Proof.
  unfold ids_of. induction ks as [|k ks IH]; simpl.
  - split; [by intros ?%elem_of_nil|by intros (? & ?%elem_of_nil & _)].
  - rewrite elem_of_app, IH. split.
    + intros [H|(k' & H1 & H2)]; [exists k; split; [left|done]|exists k'; split; [by right|done]].
    + intros (k' & [->|H1]%elem_of_cons & H2); [by left|right; by exists k'].
Qed.

Lemma ids_Elem i c ks : ids (Elem i c ks) = i :: ids_of ks.
Proof. done. Qed.

Lemma is_elem_ids i n : is_elem i n = true -> i ∈ ids n.
Proof. destruct n as [|j c ks]; simpl; [done|]. intros ->%bool_decide_eq_true. left. Qed.

Lemma is_elem_true i n : is_elem i n = true <-> exists c ks, n = Elem i c ks.
Proof.
  destruct n as [|j c ks]; simpl.
  - split; [done|]. by intros (? & ? & ?).
  - rewrite bool_decide_eq_true. split; [intros ->; by eexists _, _|by intros (? & ? & [= -> _ _])].
Qed.

(** *** References that denote nothing *)

Lemma find_absent i n : i ∉ ids n -> find i n = None.
Proof.
  induction n as [s|j c ks IH] using node_ind'; simpl; [done|].
  intros Hi. rewrite not_elem_of_cons in Hi. destruct Hi as [Hij Hi].
  rewrite bool_decide_false by done.
  apply first_some_all_None. rewrite Forall_forall in IH |- *.
  intros k Hk. apply IH; [done|]. intros Hin. apply Hi. apply elem_of_ids_of. by exists k.
Qed.

Lemma find_Some_elem i n m : find i n = Some m -> is_elem i m = true.
Proof.
  induction n as [s|j c ks IH] using node_ind'; simpl; [done|].
  case_bool_decide as E.
  - intros [= <-]. simpl. by rewrite bool_decide_true.
  - intros (l & k & r & -> & Hk & _)%first_some_split.
    rewrite Forall_forall in IH. apply (IH k); [|done]. apply elem_of_app. right. left.
Qed.

Lemma find_Some_ids i n m : find i n = Some m -> forall x, x ∈ ids m -> x ∈ ids n.
Proof.
  induction n as [s|j c ks IH] using node_ind'; simpl; [done|].
  case_bool_decide as E.
  - intros [= <-]. done.
  - intros (l & k & r & -> & Hk & _)%first_some_split x Hx.
    right. apply elem_of_ids_of. exists k. split; [apply elem_of_app; right; left|].
    rewrite Forall_forall in IH. apply (IH k); [|done|done]. apply elem_of_app. right. left.
Qed.

Lemma find_present i n : i ∈ ids n -> is_Some (find i n).
Proof.
  induction n as [s|j c ks IH] using node_ind'; simpl; [by intros ?%elem_of_nil|].
  intros [->|Hi]%elem_of_cons; [rewrite bool_decide_true by done; by eexists|].
  case_bool_decide; [by eexists|].
  apply elem_of_ids_of in Hi as (k & Hk & Hi).
  rewrite Forall_forall in IH. destruct (IH k Hk Hi) as [m Hm].
  clear IH. induction ks as [|k' ks IHks]; [by apply elem_of_nil in Hk|].
  simpl. destruct (find i k') eqn:E; [by eexists|].
  apply elem_of_cons in Hk as [->|Hk]; [congruence|]. by apply IHks.
Qed.

Lemma has_child_ids i ks : has_child i ks = true -> i ∈ ids_of ks.
Proof.
  unfold has_child. rewrite existsb_exists. intros (k & Hk & E).
  apply elem_of_ids_of. exists k. split; [by apply list_elem_of_In|by apply is_elem_ids].
Qed.

Lemma parentNode_absent i n : i ∉ ids n -> parentNode i n = None.
Proof.
  induction n as [s|j c ks IH] using node_ind'; simpl; [done|].
  intros Hi. rewrite not_elem_of_cons in Hi. destruct Hi as [Hij Hi].
  destruct (has_child i ks) eqn:E; [by apply has_child_ids in E|].
  apply first_some_all_None. rewrite Forall_forall in IH |- *.
  intros k Hk. apply IH; [done|]. intros Hin. apply Hi. apply elem_of_ids_of. by exists k.
Qed.

Lemma map_id_on {A} (f : A -> A) (ks : list A) :
  Forall (fun k => f k = k) ks -> map f ks = ks.
Proof. induction 1 as [|k ks E _ IH]; simpl; [done|]. by rewrite E, IH. Qed.

Ltac absent_kids IH Hi :=
  apply map_id_on; rewrite Forall_forall in IH |- *;
  let k := fresh "k" in let Hk := fresh "Hk" in
  intros k Hk; apply IH; [done|];
  let Hin := fresh "Hin" in
  intros Hin; apply Hi; apply elem_of_ids_of; by exists k.

Lemma set_kids_absent i new n : i ∉ ids n -> set_kids i new n = n.
Proof.
  induction n as [s|j c ks IH] using node_ind'; simpl; [done|].
  intros Hi. rewrite not_elem_of_cons in Hi. destruct Hi as [Hij Hi].
  rewrite bool_decide_false by done. f_equal. absent_kids IH Hi.
Qed.

Lemma appendChild_absent i w n : i ∉ ids n -> appendChild i w n = n.
Proof.
  induction n as [s|j c ks IH] using node_ind'; simpl; [done|].
  intros Hi. rewrite not_elem_of_cons in Hi. destruct Hi as [Hij Hi].
  rewrite bool_decide_false by done. f_equal. absent_kids IH Hi.
Qed.

Lemma split_at_None i ks : has_child i ks = false -> split_at i ks = None.
Proof.
  induction ks as [|k ks IH]; simpl; [done|].
  intros [E1 E2]%orb_false_elim. rewrite E1. by rewrite IH.
Qed.

Lemma has_child_absent i ks : i ∉ ids_of ks -> has_child i ks = false.
Proof. intros Hi. destruct (has_child i ks) eqn:E; [|done]. by apply has_child_ids in E. Qed.

Lemma filter_all {A} (p : A -> bool) (ks : list A) :
  Forall (fun k => p k = true) ks -> List.filter p ks = ks.
Proof. induction 1 as [|k ks E _ IH]; simpl; [done|]. by rewrite E, IH. Qed.

Lemma not_elem_absent i ks :
  i ∉ ids_of ks -> Forall (fun k => negb (is_elem i k) = true) ks.
Proof.
  intros Hi. apply Forall_forall. intros k Hk.
  destruct (is_elem i k) eqn:E; [|done]. exfalso. apply Hi.
  apply elem_of_ids_of. exists k. split; [done|by apply is_elem_ids].
Qed.

Lemma insertBefore_absent w i n : i ∉ ids n -> insertBefore w i n = n.
Proof.
  induction n as [s|j c ks IH] using node_ind'; simpl; [done|].
  intros Hi. rewrite not_elem_of_cons in Hi. destruct Hi as [Hij Hi].
  f_equal. assert (E : map (insertBefore w i) ks = ks) by absent_kids IH Hi.
  rewrite E. unfold insert_at. by rewrite split_at_None by by apply has_child_absent.
Qed.

Lemma remove_absent i n : i ∉ ids n -> remove i n = n.
Proof.
  induction n as [s|j c ks IH] using node_ind'; simpl; [done|].
  intros Hi. rewrite not_elem_of_cons in Hi. destruct Hi as [Hij Hi].
  f_equal. assert (E : map (remove i) ks = ks) by absent_kids IH Hi.
  rewrite E. by apply filter_all, not_elem_absent.
Qed.

(** *** Subtrees in their context *)

Lemma ids_plug C n : ids (plug C n) ≡ₚ ctx_ids C ++ ids n.
Proof.
  induction C as [|j c l C IH r]; [done|].
  cbn [plug ctx_ids]. rewrite ids_Elem.
  rewrite <- app_comm_cons. apply perm_skip.
  rewrite ids_of_app, ids_of_cons, IH.
  rewrite <- !app_assoc. do 2 apply Permutation_app_head.
  apply Permutation_app_comm.
Qed.

Lemma wf_plug C n :
  wf (plug C n) -> NoDup (ids n) /\ NoDup (ctx_ids C) /\
                   forall x, x ∈ ids n -> x ∉ ctx_ids C.
Proof.
  unfold wf. rewrite ids_plug. rewrite NoDup_app.
  intros (H1 & H2 & H3). split; [done|]. split; [done|].
  intros x Hx Hc. by apply (H2 x).
Qed.

Lemma is_elem_plug i C n :
  is_elem i (plug C n) = true -> i ∈ ctx_ids C \/ (C = Hole /\ is_elem i n = true).
Proof.
  destruct C as [|j c l C r]; simpl; [by right|].
  intros ->%bool_decide_eq_true. left. left.
Qed.

Lemma find_plug i C n : i ∉ ctx_ids C -> find i (plug C n) = find i n.
Proof.
  induction C as [|j c l C IH r]; simpl; [done|].
  rewrite not_elem_of_cons, !not_elem_of_app. intros (Hj & Hl & HC & Hr).
  rewrite bool_decide_false by done.
  rewrite map_app, first_some_app. simpl.
  rewrite first_some_all_None.
  2:{ apply Forall_forall. intros k Hk. apply find_absent. intros Hin. apply Hl.
      apply elem_of_ids_of. by exists k. }
  rewrite IH by done. destruct (find i n) as [m|] eqn:E; [done|].
  apply first_some_all_None. apply Forall_forall. intros k Hk. apply find_absent.
  intros Hin. apply Hr. apply elem_of_ids_of. by exists k.
Qed.

Lemma has_child_app i l r : has_child i (l ++ r) = has_child i l || has_child i r.
Proof. unfold has_child. apply existsb_app. Qed.

Lemma parentNode_plug i C n :
  i ∉ ctx_ids C -> is_elem i n = false ->
  parentNode i (plug C n) = parentNode i n.
Proof.
  intros Hi Hn. induction C as [|j c l C IH r]; simpl; [done|].
  simpl in Hi. rewrite not_elem_of_cons, !not_elem_of_app in Hi.
  destruct Hi as (Hj & Hl & HC & Hr).
  rewrite has_child_app. simpl.
  rewrite (has_child_absent i l), (has_child_absent i r) by done.
  destruct (is_elem i (plug C n)) eqn:E.
  { apply is_elem_plug in E as [E|[_ E]]; [done|congruence]. }
  simpl. rewrite map_app, first_some_app. simpl.
  rewrite first_some_all_None.
  2:{ apply Forall_forall. intros k Hk. apply parentNode_absent. intros Hin. apply Hl.
      apply elem_of_ids_of. by exists k. }
  rewrite IH by done. destruct (parentNode i n) as [m|] eqn:E'; [done|].
  apply first_some_all_None. apply Forall_forall. intros k Hk. apply parentNode_absent.
  intros Hin. apply Hr. apply elem_of_ids_of. by exists k.
Qed.

(** The element found sits in a context. *)
Lemma find_context i n m : find i n = Some m -> exists C, n = plug C m.
Proof.
  induction n as [s|j c ks IH] using node_ind'; simpl; [done|].
  case_bool_decide as E.
  - intros [= <-]. by exists Hole.
  - intros (l & k & r & -> & Hk & _)%first_some_split.
    rewrite Forall_forall in IH. destruct (IH k) as [C ->]; [apply elem_of_app; right; left|done|].
    by exists (Frame j c l C r).
Qed.

Lemma parentNode_context i n p : parentNode i n = Some p -> exists C, n = plug C p.
Proof.
  induction n as [s|j c ks IH] using node_ind'; simpl; [done|].
  destruct (has_child i ks).
  - intros [= <-]. by exists Hole.
  - intros (l & k & r & -> & Hk & _)%first_some_split.
    rewrite Forall_forall in IH. destruct (IH k) as [C ->]; [apply elem_of_app; right; left|done|].
    by exists (Frame j c l C r).
Qed.

Lemma parentNode_has_child i n p :
  parentNode i n = Some p -> exists j c ks, p = Elem j c ks /\ has_child i ks = true.
Proof.
  induction n as [s|j c ks IH] using node_ind'; simpl; [done|].
  destruct (has_child i ks) eqn:E.
  - intros [= <-]. by eexists _, _, _.
  - intros (l & k & r & -> & Hk & _)%first_some_split.
    rewrite Forall_forall in IH. apply (IH k); [apply elem_of_app; right; left|done].
Qed.

(** *** Mutations below the hole *)

Lemma map_absent (G : node -> node) i ks :
  (forall n, i ∉ ids n -> G n = n) -> i ∉ ids_of ks -> map G ks = ks.
Proof.
  intros HG Hi. apply map_id_on, Forall_forall. intros k Hk. apply HG.
  intros Hin. apply Hi, elem_of_ids_of. by exists k.
Qed.

Lemma set_kids_plug i new C n :
  i ∉ ctx_ids C -> set_kids i new (plug C n) = plug C (set_kids i new n).
Proof.
  induction C as [|j c l C IH r]; simpl; [done|].
  rewrite not_elem_of_cons, !not_elem_of_app. intros (Hj & Hl & HC & Hr).
  rewrite bool_decide_false by done. f_equal.
  rewrite map_app. simpl. rewrite IH by done.
  by rewrite !(map_absent _ i) by auto using set_kids_absent.
Qed.

Lemma appendChild_plug i w C n :
  i ∉ ctx_ids C -> appendChild i w (plug C n) = plug C (appendChild i w n).
Proof.
  induction C as [|j c l C IH r]; simpl; [done|].
  rewrite not_elem_of_cons, !not_elem_of_app. intros (Hj & Hl & HC & Hr).
  rewrite bool_decide_false by done. f_equal.
  rewrite map_app. simpl. rewrite IH by done.
  by rewrite !(map_absent _ i) by auto using appendChild_absent.
Qed.

Lemma is_elem_plug_false i C n :
  i ∉ ctx_ids C -> is_elem i n = false -> is_elem i (plug C n) = false.
Proof.
  intros Hi Hn. destruct (is_elem i (plug C n)) eqn:E; [|done].
  apply is_elem_plug in E as [E|[_ E]]; [done|congruence].
Qed.

Lemma is_elem_remove i x n : is_elem i (remove x n) = is_elem i n.
Proof. by destruct n. Qed.

Lemma is_elem_insertBefore i w x n : is_elem i (insertBefore w x n) = is_elem i n.
Proof. by destruct n. Qed.

Lemma is_elem_set_kids i x new n : is_elem i (set_kids x new n) = is_elem i n.
Proof. destruct n as [|j c ks]; simpl; [done|]. by case_bool_decide. Qed.

Lemma is_elem_appendChild i x w n : is_elem i (appendChild x w n) = is_elem i n.
Proof. by destruct n. Qed.

Lemma remove_plug i C n :
  i ∉ ctx_ids C -> is_elem i n = false ->
  remove i (plug C n) = plug C (remove i n).
Proof.
  intros Hi Hn. induction C as [|j c l C IH r]; simpl; [done|].
  simpl in Hi. rewrite not_elem_of_cons, !not_elem_of_app in Hi.
  destruct Hi as (Hj & Hl & HC & Hr). f_equal.
  rewrite map_app. simpl. rewrite IH by done.
  rewrite !(map_absent _ i) by auto using remove_absent.
  rewrite List.filter_app. simpl.
  rewrite (is_elem_plug_false i C) by (by rewrite ?is_elem_remove). simpl.
  by rewrite !filter_all by by apply not_elem_absent.
Qed.

Lemma insertBefore_plug w i C n :
  i ∉ ctx_ids C -> is_elem i n = false ->
  insertBefore w i (plug C n) = plug C (insertBefore w i n).
Proof.
  intros Hi Hn. induction C as [|j c l C IH r]; simpl; [done|].
  simpl in Hi. rewrite not_elem_of_cons, !not_elem_of_app in Hi.
  destruct Hi as (Hj & Hl & HC & Hr). f_equal.
  rewrite map_app. simpl. rewrite IH by done.
  rewrite !(map_absent _ i) by auto using insertBefore_absent.
  unfold insert_at. rewrite split_at_None; [done|].
  rewrite has_child_app. simpl.
  rewrite (has_child_absent i l), (has_child_absent i r) by done.
  by rewrite (is_elem_plug_false i C) by (by rewrite ?is_elem_insertBefore).
Qed.

(** What lies off the path to the hole does not depend on what fills it. *)
Lemma find_plug_outside j C n n' :
  j ∉ spine C -> j ∉ ids n -> j ∉ ids n' ->
  find j (plug C n) = find j (plug C n').
Proof.
  intros Hs Hn Hn'. induction C as [|i c l C IH r]; simpl.
  - by rewrite !find_absent.
  - simpl in Hs. rewrite not_elem_of_cons in Hs. destruct Hs as [Hi Hs].
    rewrite bool_decide_false by done.
    rewrite !map_app, !first_some_app. simpl. by rewrite IH.
Qed.

(** ** The detection event: scope *)

Lemma take_nil_iff {A} (k : nat) (l : list A) : take k l = [] <-> k = 0%nat \/ l = [].
Proof. destruct k, l; simpl; split; try done; auto; intros [|]; done. Qed.

Lemma slice_to_nil {A} (e : Z) (l : list A) :
  slice_to e l = [] <->
  l = [] \/ e = 0%Z \/ (e < 0 /\ Z.of_nat (length l) + e <= 0)%Z.
Proof.
  unfold slice_to. rewrite take_nil_iff.
  destruct l as [|a l]; [by intuition|]. simpl length.
  destruct (Z.ltb_spec e 0); split.
  - intros [H0|]; [|done]. right. right. lia.
  - intros [|[|]]; [done|lia|left; lia].
  - intros [H0|]; [|done]. right. left. lia.
  - intros [|[|]]; [done|left; lia|lia].
Qed.

Lemma slice_to_prefix {A} (k : nat) (l : list A) :
  (0 < k)%nat -> slice_to (Z.of_nat k) l = take k l.
Proof.
  intros Hk. unfold slice_to. destruct (Z.ltb_spec (Z.of_nat k) 0); [lia|].
  destruct (Z.min_spec (Z.of_nat k) (Z.of_nat (length l))) as [[? ->]|[? ->]].
  - by rewrite Nat2Z.id.
  - rewrite Nat2Z.id. rewrite take_ge by done. rewrite take_ge by lia. done.
Qed.

Lemma on_message_accepted ev d :
  from_window ev = true -> ev_type ev = str "DEEPSEEK_CENSORSHIP" ->
  on_message ev d =
    let chatBubbles :=
      slice_to (scope_end (ev_index ev) (length (bubbles d))) (bubbles d) in
    let promptsFlatten := concat (map (turn (ev_manual ev) d) chatBubbles) in
    match last chatBubbles with
    | None => Failed (TypeError "innerHTML")
    | Some b =>
        Sent (set_innerText b checking_text d)
             (Request (str "checkCensorship") (ev_content ev) promptsFlatten (ev_manual ev))
             (Pending chatBubbles promptsFlatten (innerHTML b d))
    end.
Proof.
  intros H1 H2. unfold on_message. rewrite H1, H2.
  by rewrite bool_decide_true.
Qed.

(** C10, as stated, fails on its example: a forged index of [-1] makes
    [index + 1] zero, which [||] replaces by the number of bubbles, so the
    scope is the whole list and the listener goes on to send the
    request. *)
Lemma forged_index_minus_one_keeps_scope :
  let ev := Event true (str "DEEPSEEK_CENSORSHIP") (str "x") (Some (-1)%Z) false in
  slice_to (scope_end (ev_index ev) (length (bubbles sample_document)))
           (bubbles sample_document) = bubbles sample_document
  /\ bubbles sample_document = [13; 23]%nat
  /\ exists d' rq k, on_message ev sample_document = Sent d' rq k.
Proof.
  intros ev. split; [reflexivity|]. split; [reflexivity|].
  eexists _, _, _. reflexivity.
Qed.

(** For an index that is an integer or absent, the listener for an
    index of any kind is the listener above. *)
Lemma on_posted_event (ev : event) (d : node) :
  on_posted (posted_of ev) d = on_message ev d.
Proof.
  unfold on_posted, on_message, posted_of, scope_end.
  cbn [posted_from_window posted_type posted_content posted_index_plus_1 posted_manual].
  destruct (_ || _); [done|].
  destruct (ev_index ev) as [i|]; cbn [index_end ToBoolean]; [|].
  - destruct (Z.eqb_spec (i + 1) 0) as [->|Hi]; [done|].
    by destruct (i + 1)%Z.
  - cbn [slice_to_number]. done.
Qed.

Lemma slice_to_all {A} (l : list A) : slice_to (Z.of_nat (length l)) l = l.
Proof.
  unfold slice_to. destruct (Z.ltb_spec (Z.of_nat (length l)) 0); [lia|].
  rewrite Z.min_id, Nat2Z.id. by apply take_ge.
Qed.

(** C10 (amended): for a message that passes the checks on the source
    and the type, and whose [index + 1] evaluates, the scope is empty
    when no turn is rendered, and a forged index can make it empty with
    turns rendered: one for which [index + 1] is a negative integer at
    most minus the number of turns (-3 with two turns), or is truthy and
    becomes 0 as the end of the slice (-0.5, or a string such as a).  An
    index of -1 does not: [index + 1] is zero, which [||] replaces by the
    number of turns, so that all turns are in scope.  With an empty scope
    the last element of the scope is undefined and reading its
    [innerHTML] for the snapshot throws, before the text is assigned and
    before anything is sent; with a scope that is not empty the request
    is sent. *)
Theorem empty_scope_throws (ev : posted) (d : node) (end_ : number) :
  posted_from_window ev = true ->
  posted_type ev = str "DEEPSEEK_CENSORSHIP" ->
  index_end (posted_index_plus_1 ev) (length (bubbles d)) = Ok end_ ->
  let scope := slice_to_number end_ (bubbles d) in
  (bubbles d = [] -> scope = [])
  /\ (forall i, posted_index_plus_1 ev = SumNumber (Integer i) ->
        (i < 0)%Z -> (Z.of_nat (length (bubbles d)) + i <= 0)%Z -> scope = [])
  /\ (posted_index_plus_1 ev = SumNumber (Fraction 0) \/
      posted_index_plus_1 ev = SumString NaN -> scope = [])
  /\ (posted_index_plus_1 ev = SumNumber (Integer 0) -> scope = bubbles d)
  /\ (scope = [] -> on_posted ev d = Failed (TypeError "innerHTML"))
  /\ (scope <> [] -> exists d' rq k, on_posted ev d = Sent d' rq k).
Proof.
  intros H1 H2 He scope.
  assert (Hrun : on_posted ev d =
            match last scope with
            | None => Failed (TypeError "innerHTML")
            | Some b =>
                Sent (set_innerText b checking_text d)
                     (Request (str "checkCensorship") (posted_content ev)
                              (concat (map (turn (posted_manual ev) d) scope))
                              (posted_manual ev))
                     (Pending scope (concat (map (turn (posted_manual ev) d) scope))
                              (innerHTML b d))
            end).
  { unfold on_posted. rewrite H1, H2, bool_decide_true by done. cbn [negb orb].
    by rewrite He. }
  split; [|split; [|split; [|split; [|split]]]].
  - intros E. unfold scope. rewrite E. destruct end_ as [|[]|i|i]; try done;
      unfold slice_to_number, slice_to; by rewrite take_nil.
  - intros i E Hi Hn. unfold scope. rewrite E in He. cbn [index_end] in He.
    assert (Hb : ToBoolean (Integer i) = true) by (destruct i; [lia|done|done]).
    rewrite Hb in He. injection He as <-. cbn [slice_to_number].
    apply slice_to_nil. right. right. done.
  - intros [E|E]; unfold scope; rewrite E in He; cbn in He; injection He as <-;
      cbn [slice_to_number]; apply slice_to_nil; by right; left.
  - intros E. unfold scope. rewrite E in He. cbn in He. injection He as <-.
    cbn [slice_to_number]. apply slice_to_all.
  - intros E. by rewrite Hrun, E.
  - intros E. rewrite Hrun.
    destruct (last scope) as [b|] eqn:L; [by eexists _, _, _|].
    apply last_None in L. done.
Qed.

Lemma empty_scope_throws_witness :
  bubbles sample_document = [13; 23]%nat
  /\ on_posted (Posted true (str "DEEPSEEK_CENSORSHIP") (str "x")
                       (SumNumber (Integer (-2))) true)
               sample_document
     = Failed (TypeError "innerHTML")
  /\ on_posted (Posted true (str "DEEPSEEK_CENSORSHIP") (str "x")
                       (SumNumber (Fraction 0)) true)
               sample_document
     = Failed (TypeError "innerHTML").
Proof.
  split; [reflexivity|]. split.
  - destruct (empty_scope_throws
                (Posted true (str "DEEPSEEK_CENSORSHIP") (str "x")
                        (SumNumber (Integer (-2))) true)
                sample_document (Integer (-2)) eq_refl eq_refl eq_refl)
      as (_ & H & _ & _ & Ht & _).
    apply Ht. apply (H (-2)%Z); [reflexivity|lia|vm_compute; discriminate].
  - destruct (empty_scope_throws
                (Posted true (str "DEEPSEEK_CENSORSHIP") (str "x")
                        (SumNumber (Fraction 0)) true)
                sample_document (Fraction 0) eq_refl eq_refl eq_refl)
      as (_ & _ & H & _ & Ht & _).
    apply Ht. apply H. by left.
Defined.

(** ** Presentation layer: the banner *)

Lemma list_max_ge x l : x ∈ l -> (x <= list_max l)%nat.
Proof.
  induction l as [|a l IH]; [by intros ?%elem_of_nil|].
  intros [->|H]%elem_of_cons; simpl; [lia|]. specialize (IH H). lia.
Qed.

Lemma max_id_ge i n : i ∈ ids n -> (i <= max_id n)%nat.
Proof.
  induction n as [s|j c ks IH] using node_ind'; simpl; [by intros ?%elem_of_nil|].
  intros [->|(k & Hk & Hi)%elem_of_ids_of]%elem_of_cons; [lia|].
  rewrite Forall_forall in IH. specialize (IH k Hk Hi).
  assert (max_id k <= list_max (map max_id ks))%nat.
  { apply list_max_ge. apply list_elem_of_fmap. by exists k. }
  lia.
Qed.

Lemma fresh_not_in d : fresh d ∉ ids d.
Proof. intros H%max_id_ge. unfold fresh in H. lia. Qed.

Lemma split_at_spec i ks l x r :
  split_at i ks = Some (l, x, r) ->
  ks = l ++ x :: r /\ is_elem i x = true /\ has_child i l = false.
Proof.
  revert l. induction ks as [|k ks IH]; intros l; simpl; [done|].
  destruct (is_elem i k) eqn:E.
  - intros [= <- <- <-]. done.
  - destruct (split_at i ks) as [[[l' x'] r']|]; [|done]. simpl.
    intros [= <- <- <-]. destruct (IH l' eq_refl) as (-> & Hx & Hl).
    simpl. by rewrite E.
Qed.

Lemma split_at_app i l x r :
  has_child i l = false -> is_elem i x = true ->
  split_at i (l ++ x :: r) = Some (l, x, r).
Proof.
  intros Hl Hx. induction l as [|k l IH]; simpl.
  - by rewrite Hx.
  - simpl in Hl. apply orb_false_elim in Hl as [-> Hl]. by rewrite IH.
Qed.

Lemma split_at_Some i ks :
  has_child i ks = true -> exists l x r, split_at i ks = Some (l, x, r).
Proof.
  induction ks as [|k ks IH]; simpl; [done|].
  destruct (is_elem i k) eqn:E; [by eexists _, _, _|]. simpl.
  intros H. destruct (IH H) as (l & x & r & ->). by eexists _, _, _.
Qed.

Lemma has_child_map i (G : node -> node) ks :
  (forall k, is_elem i (G k) = is_elem i k) ->
  has_child i (map G ks) = has_child i ks.
Proof.
  intros HG. induction ks as [|k ks IH]; simpl; [done|]. by rewrite HG, IH.
Qed.

Lemma has_child_insert_at w i j ks :
  is_elem j w = false -> has_child j (insert_at w i ks) = has_child j ks.
Proof.
  intros Hw. unfold insert_at. destruct (split_at i ks) as [[[l x] r]|] eqn:E; [|done].
  apply split_at_spec in E as (-> & _ & _).
  rewrite !has_child_app. simpl. by rewrite Hw.
Qed.

Lemma has_child_insert_at_same w i ks :
  has_child i (insert_at w i ks) = has_child i ks.
Proof.
  unfold insert_at. destruct (split_at i ks) as [[[l x] r]|] eqn:E; [|done].
  apply split_at_spec in E as (-> & Hx & _).
  rewrite !has_child_app. simpl. rewrite Hx. by rewrite !orb_true_r.
Qed.

(** Inserting in front of [i] leaves the parent of [i] the parent of
    [i]. *)
Lemma parentNode_insertBefore w i n :
  parentNode i (insertBefore w i n) = insertBefore w i <$> parentNode i n.
Proof.
  induction n as [s|j c ks IH] using node_ind'; [done|].
  cbn [insertBefore parentNode].
  rewrite has_child_insert_at_same, has_child_map by apply is_elem_insertBefore.
  destruct (has_child i ks) eqn:E; [done|].
  unfold insert_at. rewrite split_at_None
    by (by rewrite has_child_map by apply is_elem_insertBefore).
  rewrite map_map. rewrite <- first_some_fmap.
  apply first_some_ext. done.
Qed.

Lemma descendants_Elem P j c ks :
  descendants P (Elem j c ks) = concat (map (collect P) ks).
Proof. done. Qed.

Lemma collect_warning f :
  collect (has_class CSS_CENSORED_WARNING_CLASS) (warning f) = [warning f].
Proof. reflexivity. Qed.

Lemma concat_map_app {A B} (f : A -> list B) l r :
  concat (map f (l ++ r)) = concat (map f l) ++ concat (map f r).
Proof. by rewrite map_app, concat_app. Qed.

(** The container once the banner is in. *)
Lemma insertBefore_container w i j c ks l x r :
  NoDup (ids (Elem j c ks)) ->
  split_at i ks = Some (l, x, r) ->
  insertBefore w i (Elem j c ks) = Elem j c (l ++ w :: x :: r).
Proof.
  intros Hwf E. pose proof (split_at_spec _ _ _ _ _ E) as (-> & Hx & Hl).
  apply is_elem_true in Hx as (xc & xk & ->).
  rewrite ids_Elem, ids_of_app, ids_of_cons, ids_Elem in Hwf.
  apply NoDup_cons in Hwf as [_ Hwf].
  apply NoDup_app in Hwf as (_ & Hd & Hwf).
  apply NoDup_app in Hwf as (Hx & Hd' & _).
  apply NoDup_cons in Hx as [Hxk _].
  assert (Hil : i ∉ ids_of l).
  { intros H. apply (Hd i H). left. }
  assert (Hir : i ∉ ids_of r).
  { intros H. apply (Hd' i); [left|done]. }
  cbn [insertBefore]. f_equal.
  rewrite map_app. cbn [map insertBefore].
  rewrite !(map_absent _ i) by auto using insertBefore_absent.
  replace (insert_at w i xk) with xk
    by (unfold insert_at; by rewrite split_at_None by by apply has_child_absent).
  unfold insert_at. by rewrite E.
Qed.

Lemma showWarning_inserts b d p :
  parentNode b d = Some p ->
  querySelector CSS_CENSORED_WARNING_CLASS p = None ->
  showWarning b d = Ok (insertBefore (warning (fresh d)) b d).
Proof. intros H1 H2. unfold showWarning. by rewrite H1, H2. Qed.

Lemma showWarning_keeps b d p m :
  parentNode b d = Some p ->
  querySelector CSS_CENSORED_WARNING_CLASS p = Some m ->
  showWarning b d = Ok d.
Proof. intros H1 H2. unfold showWarning. by rewrite H1, H2. Qed.

Lemma wf_parentNode b d p : wf d -> parentNode b d = Some p -> NoDup (ids p).
Proof. intros Hwf (C & ->)%parentNode_context. by apply wf_plug in Hwf as [? _]. Qed.

Lemma parentNode_in b d p : parentNode b d = Some p -> b ∈ ids d.
Proof.
  intros H. destruct (decide (b ∈ ids d)) as [|Hn]; [done|].
  apply parentNode_absent in Hn. congruence.
Qed.

(** C9: a second [showWarning] on the same element changes nothing; and
    when the container of the element holds no banner before the first
    call, the two calls leave it with exactly one node of the marker class,
    the banner, which is the sibling just in front of the element. *)
Theorem showWarning_twice (b : nat) (d d1 : node) :
  showWarning b d = Ok d1 ->
  showWarning b d1 = Ok d1
  /\ (wf d ->
      forall p, parentNode b d = Some p ->
                querySelector CSS_CENSORED_WARNING_CLASS p = None ->
      exists p1,
        parentNode b d1 = Some p1 /\
        descendants (has_class CSS_CENSORED_WARNING_CLASS) p1 = [warning (fresh d)] /\
        previousSibling b d1 = Some (warning (fresh d))).
Proof.
  intros H. unfold showWarning in H.
  destruct (parentNode b d) as [p|] eqn:Hp; [|done].
  destruct (parentNode_has_child _ _ _ Hp) as (j & c & ks & -> & Hc).
  destruct (split_at_Some _ _ Hc) as (l & x & r & Hs).
  destruct (querySelector _ (Elem j c ks)) as [m|] eqn:Hq.
  - injection H as <-. split; [by eapply showWarning_keeps|].
    intros _ p [= <-] Hq'. congruence.
  - injection H as <-.
    set (w := warning (fresh d)).
    assert (Hp1 : parentNode b (insertBefore w b d) = Some (insertBefore w b (Elem j c ks))).
    { by rewrite parentNode_insertBefore, Hp. }
    split.
    + unfold showWarning. rewrite Hp1.
      cbn [insertBefore]. unfold querySelector. rewrite descendants_Elem.
      unfold insert_at.
      destruct (split_at_Some b (map (insertBefore w b) ks)) as (l' & x' & r' & ->).
      { by rewrite has_child_map by apply is_elem_insertBefore. }
      rewrite concat_map_app. cbn [map concat].
      change (collect (has_class CSS_CENSORED_WARNING_CLASS) w) with [w].
      by destruct (concat (map _ l')).
    + intros Hwf p [= <-] _.
      pose proof (wf_parentNode _ _ _ Hwf Hp) as Hnd.
      rewrite (insertBefore_container w b j c ks l x r Hnd Hs) in Hp1.
      eexists. split; [done|].
      pose proof (split_at_spec _ _ _ _ _ Hs) as (-> & Hx & Hl).
      unfold querySelector in Hq. rewrite descendants_Elem in Hq.
      rewrite descendants_Elem.
      assert (Hnil : concat (map (collect (has_class CSS_CENSORED_WARNING_CLASS)) (l ++ x :: r)) = []).
      { by destruct (concat _). }
      rewrite concat_map_app in Hnil. cbn [map concat] in Hnil.
      apply app_eq_nil in Hnil as [Hl0 Hxr]. apply app_eq_nil in Hxr as [Hx0 Hr0].
      split.
      * rewrite concat_map_app. cbn [map concat].
        change (collect (has_class CSS_CENSORED_WARNING_CLASS) w) with [w].
        by rewrite Hl0, Hx0, Hr0.
      * unfold previousSibling, siblings. rewrite Hp1. simpl.
        assert (Hw : is_elem b w = false).
        { simpl. apply bool_decide_eq_false. intros E.
          apply (fresh_not_in d). rewrite E. by eapply parentNode_in. }
        replace (l ++ w :: x :: r) with ((l ++ [w]) ++ x :: r)
          by (by rewrite <- app_assoc).
        rewrite split_at_app; [|rewrite has_child_app; cbn [has_child existsb]; by rewrite Hl, Hw|done].
        simpl. by rewrite last_snoc.
Qed.

Lemma wf_sample_document : wf sample_document.
Proof. apply (bool_decide_unpack _). by vm_compute. Qed.

Lemma showWarning_twice_witness :
  exists d1,
    showWarning 23 sample_document = Ok d1 /\
    showWarning 23 d1 = Ok d1 /\
    previousSibling 23 d1 = Some (warning (fresh sample_document)).
Proof.
  eexists. split; [reflexivity|].
  destruct (showWarning_twice 23 sample_document _ eq_refl) as [H1 H2].
  split; [exact H1|].
  destruct (H2 wf_sample_document _ eq_refl eq_refl) as (p1 & _ & _ & H3).
  exact H3.
Defined.

(** ** Markup *)

Lemma instantiate_Elem c ks i :
  instantiate (HElem c ks) i =
  let '(ks', j) := instantiate_all ks (S i) in (Elem i c ks', j).
Proof.
  cbn [instantiate].
  enough (E : forall l i0,
    (fix all (l : list html) (i : nat) {struct l} : list node * nat :=
       match l with
       | [] => ([], i)
       | h :: r =>
           let '(n, j) := instantiate h i in
           let '(ns, k) := all r j in (n :: ns, k)
       end) l i0 = instantiate_all l i0) by (by rewrite E).
  induction l as [|h r IH]; intros i0; simpl; [done|].
  destruct (instantiate h i0) as [n j]. by rewrite IH.
Qed.

Lemma html_ind' (P : html -> Prop) :
  (forall s, P (HText s)) ->
  (forall c ks, Forall P ks -> P (HElem c ks)) ->
  forall h, P h.
Proof.
  intros HT HE. fix IH 1. intros [s|c ks]; [apply HT|]. apply HE.
  induction ks as [|k ks IHks]; constructor; [apply IH|apply IHks].
Qed.

(** Serializing what was parsed gives the markup back. *)
Lemma serialize_instantiate h i : serialize (instantiate h i).1 = h.
Proof.
  revert i. induction h as [s|c ks IH] using html_ind'; intros i; [done|].
  rewrite instantiate_Elem.
  enough (E : forall j, map serialize (instantiate_all ks j).1 = ks).
  { specialize (E (S i)). destruct (instantiate_all ks (S i)) as [ks' j]. simpl in *. by rewrite E. }
  induction IH as [|h r Hh _ IHr]; intros j; simpl; [done|].
  specialize (Hh j). destruct (instantiate h j) as [n j'].
  specialize (IHr j'). destruct (instantiate_all r j') as [ns j'']. simpl in *.
  by rewrite Hh, IHr.
Qed.

Lemma serialize_instantiate_all l i :
  map serialize (instantiate_all l i).1 = l.
Proof.
  revert i. induction l as [|h r IH]; intros i; simpl; [done|].
  pose proof (serialize_instantiate h i) as Hh.
  destruct (instantiate h i) as [n j].
  specialize (IH j). destruct (instantiate_all r j) as [ns k]. simpl in *.
  by rewrite Hh, IH.
Qed.

(** The nodes parsed take identities from [i] on, below the counter
    returned. *)
Lemma instantiate_ids h i :
  (i <= (instantiate h i).2)%nat /\
  forall x, x ∈ ids (instantiate h i).1 -> (i <= x < (instantiate h i).2)%nat.
Proof.
  revert i. induction h as [s|c ks IH] using html_ind'; intros i.
  { simpl. split; [done|]. by intros x ?%elem_of_nil. }
  rewrite instantiate_Elem.
  enough (E : forall j, (j <= (instantiate_all ks j).2)%nat /\
            forall x, x ∈ ids_of (instantiate_all ks j).1 ->
                      (j <= x < (instantiate_all ks j).2)%nat).
  { specialize (E (S i)). destruct (instantiate_all ks (S i)) as [ks' j].
    simpl in *. destruct E as [E1 E2]. split; [lia|].
    intros x [->|Hx]%elem_of_cons; [lia|]. specialize (E2 x Hx). lia. }
  induction IH as [|h r Hh _ IHr]; intros j; simpl.
  { split; [done|]. by intros x ?%elem_of_nil. }
  specialize (Hh j). destruct (instantiate h j) as [n j'].
  specialize (IHr j'). destruct (instantiate_all r j') as [ns j'']. simpl in *.
  destruct Hh as [Hh1 Hh2], IHr as [Hr1 Hr2]. split; [lia|].
  intros x. rewrite ids_of_cons, elem_of_app.
  intros [Hx|Hx]; [specialize (Hh2 x Hx)|specialize (Hr2 x Hx)]; lia.
Qed.

Lemma instantiate_all_ids l i :
  (i <= (instantiate_all l i).2)%nat /\
  forall x, x ∈ ids_of (instantiate_all l i).1 ->
            (i <= x < (instantiate_all l i).2)%nat.
Proof.
  revert i. induction l as [|h r IH]; intros i; simpl.
  { split; [done|]. by intros x ?%elem_of_nil. }
  pose proof (instantiate_ids h i) as Hh. destruct (instantiate h i) as [n j].
  specialize (IH j). destruct (instantiate_all r j) as [ns k]. simpl in *.
  destruct Hh as [Hh1 Hh2], IH as [Hr1 Hr2]. split; [lia|].
  intros x. rewrite ids_of_cons, elem_of_app.
  intros [Hx|Hx]; [specialize (Hh2 x Hx)|specialize (Hr2 x Hx)]; lia.
Qed.

(** Parsed nodes are new to the document. *)
Lemma instantiate_all_fresh l d x :
  x ∈ ids_of (instantiate_all l (fresh d)).1 -> x ∉ ids d.
Proof.
  intros Hx%instantiate_all_ids Hd%max_id_ge. unfold fresh in Hx. lia.
Qed.

Lemma has_class_serialize c n i :
  has_class c (instantiate (serialize n) i).1 = has_class c n.
Proof.
  destruct n as [s|j cs ks]; [done|].
  cbn [serialize]. rewrite instantiate_Elem.
  by destruct (instantiate_all _ _).
Qed.

Lemma textContent_instantiate n i :
  textContent (instantiate (serialize n) i).1 = textContent n.
Proof.
  revert i. induction n as [s|j c ks IH] using node_ind'; intros i; [done|].
  cbn [serialize]. rewrite instantiate_Elem.
  enough (E : forall i0, concat (map textContent (instantiate_all (map serialize ks) i0).1)
                         = concat (map textContent ks)).
  { specialize (E (S i)). destruct (instantiate_all _ _). simpl in *. done. }
  induction IH as [|k r Hk _ IHr]; intros i0; simpl; [done|].
  specialize (Hk i0). destruct (instantiate (serialize k) i0) as [n j'].
  specialize (IHr j'). destruct (instantiate_all _ j') as [ns j'']. simpl in *.
  by rewrite Hk, IHr.
Qed.

Lemma textContent_instantiate_all ks i :
  concat (map textContent (instantiate_all (map serialize ks) i).1)
  = concat (map textContent ks).
Proof.
  revert i. induction ks as [|k r IH]; intros i; simpl; [done|].
  pose proof (textContent_instantiate k i) as Hk.
  destruct (instantiate (serialize k) i) as [n j].
  specialize (IH j). destruct (instantiate_all _ j) as [ns j'']. simpl in *.
  by rewrite Hk, IH.
Qed.

(** Markup without a node of class [c] parses to nodes without one. *)
Lemma collect_instantiate c n i :
  collect (has_class c) n = [] ->
  collect (has_class c) (instantiate (serialize n) i).1 = [].
Proof.
  revert i. induction n as [s|j cs ks IH] using node_ind'; intros i; [done|].
  cbn [serialize]. rewrite instantiate_Elem. cbn [collect].
  intros [H1 H2]%app_eq_nil.
  enough (E : forall i0, concat (map (collect (has_class c))
                           (instantiate_all (map serialize ks) i0).1) = []).
  { specialize (E (S i)). destruct (instantiate_all _ _) as [ks' j']. simpl in *.
    rewrite E. destruct (bool_decide (c ∈ cs)); done. }
  clear H1. induction IH as [|k r Hk _ IHr]; intros i0; simpl; [done|].
  simpl in H2. apply app_eq_nil in H2 as [H2 H3].
  specialize (Hk i0 H2). destruct (instantiate (serialize k) i0) as [n j'].
  specialize (IHr H3 j'). destruct (instantiate_all _ j') as [ns j'']. simpl in *.
  by rewrite Hk, IHr.
Qed.

Lemma collect_instantiate_all c ks i :
  concat (map (collect (has_class c)) ks) = [] ->
  concat (map (collect (has_class c)) (instantiate_all (map serialize ks) i).1) = [].
Proof.
  revert i. induction ks as [|k r IH]; intros i; simpl; [done|].
  intros [H2 H3]%app_eq_nil.
  pose proof (collect_instantiate c k i H2) as Hk.
  destruct (instantiate (serialize k) i) as [n j].
  specialize (IH j H3). destruct (instantiate_all _ j) as [ns j'']. simpl in *.
  by rewrite Hk, IH.
Qed.

(** ** The row of a turn *)

Lemma remove_Elem x j c ks : remove x (Elem j c ks) = Elem j c (rm x ks).
Proof. done. Qed.

Lemma rm_app x l r : rm x (l ++ r) = rm x l ++ rm x r.
Proof. unfold rm. by rewrite map_app, List.filter_app. Qed.

Lemma rm_cons_keep x k r :
  is_elem x k = false -> rm x (k :: r) = remove x k :: rm x r.
Proof. intros E. unfold rm. simpl. by rewrite is_elem_remove, E. Qed.

Lemma rm_absent x ks : x ∉ ids_of ks -> rm x ks = ks.
Proof.
  intros Hx. unfold rm. rewrite (map_absent _ x) by auto using remove_absent.
  by apply filter_all, not_elem_absent.
Qed.

Lemma ids_remove x n y : y ∈ ids (remove x n) -> y ∈ ids n.
Proof.
  induction n as [s|j c ks IH] using node_ind'; [done|].
  rewrite remove_Elem, !ids_Elem. intros [->|Hy]%elem_of_cons; [left|right].
  apply elem_of_ids_of in Hy as (k & Hk & Hy).
  unfold rm in Hk. apply list_elem_of_In, filter_In in Hk as [Hk _].
  apply list_elem_of_In, list_elem_of_fmap in Hk as (k0 & -> & Hk0).
  apply elem_of_ids_of. exists k0. split; [done|].
  rewrite Forall_forall in IH. by apply IH.
Qed.

Lemma ids_rm x ks y : y ∈ ids_of (rm x ks) -> y ∈ ids_of ks.
Proof.
  intros (k & Hk & Hy)%elem_of_ids_of.
  unfold rm in Hk. apply list_elem_of_In, filter_In in Hk as [Hk _].
  apply list_elem_of_In, list_elem_of_fmap in Hk as (k0 & -> & Hk0).
  apply elem_of_ids_of. exists k0. split; [done|]. by eapply ids_remove.
Qed.

Lemma has_class_remove c x n : has_class c (remove x n) = has_class c n.
Proof. by destruct n. Qed.

(** When every node of the class is the node removed, none is left. *)
Lemma collect_remove c x n :
  (forall m, m ∈ collect (has_class c) n -> is_elem x m = true) ->
  is_elem x n = false ->
  collect (has_class c) (remove x n) = [].
Proof.
  induction n as [s|j cs ks IH] using node_ind'; [done|].
  intros Hall Hroot. rewrite remove_Elem. cbn [collect].
  replace (has_class c (Elem j cs (rm x ks))) with (has_class c (Elem j cs ks)) by done.
  destruct (has_class c (Elem j cs ks)) eqn:Hc.
  { rewrite (Hall (Elem j cs ks)) in Hroot; [done|]. cbn [collect]. rewrite Hc. left. }
  simpl. assert (Hks : forall m, m ∈ concat (map (collect (has_class c)) ks) -> is_elem x m = true).
  { intros m Hm. apply Hall. cbn [collect]. rewrite Hc. done. }
  clear Hall Hc Hroot. induction IH as [|k r Hk _ IHr]; [done|].
  unfold rm. simpl. rewrite is_elem_remove.
  assert (Hr : forall m, m ∈ concat (map (collect (has_class c)) r) -> is_elem x m = true).
  { intros m Hm. apply Hks. simpl. apply elem_of_app. by right. }
  destruct (is_elem x k) eqn:E; simpl.
  - by apply IHr.
  - rewrite Hk; [by apply IHr| |done].
    intros m Hm. apply Hks. simpl. apply elem_of_app. by left.
Qed.

Lemma collect_rm c x ks :
  (forall m, m ∈ concat (map (collect (has_class c)) ks) -> is_elem x m = true) ->
  concat (map (collect (has_class c)) (rm x ks)) = [].
Proof.
  induction ks as [|k r IH]; [done|]. intros Hks.
  assert (Hr : forall m, m ∈ concat (map (collect (has_class c)) r) -> is_elem x m = true).
  { intros m Hm. apply Hks. simpl. apply elem_of_app. by right. }
  unfold rm. simpl. rewrite is_elem_remove.
  destruct (is_elem x k) eqn:E; simpl; [by apply IH|].
  rewrite collect_remove; [by apply IH| |done].
  intros m Hm. apply Hks. simpl. apply elem_of_app. by left.
Qed.

Lemma elem_of_concat {A} (x : A) (ls : list (list A)) :
  x ∈ concat ls <-> exists l, x ∈ l /\ l ∈ ls.
Proof.
  induction ls as [|l ls IH]; simpl.
  - split; [by intros ?%elem_of_nil|by intros (? & _ & ?%elem_of_nil)].
  - rewrite elem_of_app, IH. split.
    + intros [H|(l' & H1 & H2)]; [exists l; split; [done|left]|exists l'; split; [done|by right]].
    + intros (l' & H1 & [->|H2]%elem_of_cons); [by left|right; by exists l'].
Qed.

(** A node collected lies in the tree, and so does its identity. *)
Lemma collect_ids P n m i : m ∈ collect P n -> is_elem i m = true -> i ∈ ids n.
Proof.
  induction n as [s|j c ks IH] using node_ind'; [by intros ?%elem_of_nil|].
  cbn [collect]. intros [Hm|Hm]%elem_of_app Hi.
  - destruct (P (Elem j c ks)); [|by apply elem_of_nil in Hm].
    apply list_elem_of_singleton in Hm as ->. by apply is_elem_ids.
  - rewrite ids_Elem. right.
    apply elem_of_concat in Hm as (ms & Hm & Hms).
    apply list_elem_of_fmap in Hms as (k & -> & Hk).
    apply elem_of_ids_of. exists k. split; [done|].
    rewrite Forall_forall in IH. by apply (IH k).
Qed.

Lemma collect_ids_of P ks m i :
  m ∈ concat (map (collect P) ks) -> is_elem i m = true -> i ∈ ids_of ks.
Proof.
  intros (ms & Hm & Hms)%elem_of_concat Hi.
  apply list_elem_of_fmap in Hms as (k & -> & Hk).
  apply elem_of_ids_of. exists k. split; [done|]. by eapply collect_ids.
Qed.

Lemma collect_is_element P n m : m ∈ collect P n -> is_element m = true /\ P m = true.
Proof.
  induction n as [s|j c ks IH] using node_ind'; [by intros ?%elem_of_nil|].
  cbn [collect]. intros [Hm|Hm]%elem_of_app.
  - destruct (P (Elem j c ks)) eqn:E; [|by apply elem_of_nil in Hm].
    by apply list_elem_of_singleton in Hm as ->.
  - apply elem_of_concat in Hm as (ms & Hm & Hms).
    apply list_elem_of_fmap in Hms as (k & -> & Hk).
    rewrite Forall_forall in IH. by apply (IH k).
Qed.

Lemma has_class_appendChild c a w n : has_class c (appendChild a w n) = has_class c n.
Proof. by destruct n. Qed.

Lemma collect_appendChild c a w n :
  collect (has_class c) n = [] -> collect (has_class c) w = [] ->
  collect (has_class c) (appendChild a w n) = [].
Proof.
  intros Hn Hw. induction n as [s|j cs ks IH] using node_ind'; [done|].
  cbn [appendChild collect has_class] in *.
  apply app_eq_nil in Hn as [H1 H2].
  destruct (bool_decide (c ∈ cs)); [done|]. simpl.
  assert (E : concat (map (collect (has_class c)) (map (appendChild a w) ks)) = []).
  { clear H1. induction IH as [|k r Hk _ IHr]; [done|]. simpl in *.
    apply app_eq_nil in H2 as [H2 H3]. by rewrite Hk, IHr. }
  case_bool_decide; [|done]. rewrite concat_map_app, E. simpl. by rewrite Hw.
Qed.

Section Row.
Variables (C : ctx) (pid : nat) (pc : list jsstring) (b : nat) (bc : list jsstring).

(** The bubble is not around the hole, and the row is not the bubble. *)
Hypothesis b_inside : b ∉ ctx_ids C.
Hypothesis b_not_row : pid <> b.

Lemma row_parentNode l bk t r :
  parentNode b (plug C (row pid pc l b bc bk t r)) = Some (row pid pc l b bc bk t r).
Proof.
  rewrite parentNode_plug; [|done|by simpl; apply bool_decide_eq_false].
  unfold row. cbn [parentNode]. rewrite has_child_app. simpl.
  rewrite bool_decide_true by done. by rewrite orb_true_r.
Qed.

Lemma row_siblings l bk t r :
  b ∉ ids_of l ->
  siblings b (plug C (row pid pc l b bc bk t r)) = Some (l, Elem b bc bk, t :: r).
Proof.
  intros Hl. unfold siblings. rewrite row_parentNode. simpl.
  apply split_at_app; [by apply has_child_absent|]. simpl. by rewrite bool_decide_true.
Qed.

Lemma row_find l bk t r :
  b ∉ ids_of l ->
  find b (plug C (row pid pc l b bc bk t r)) = Some (Elem b bc bk).
Proof.
  intros Hl. rewrite find_plug by done. unfold row. cbn [find].
  rewrite bool_decide_false by done.
  rewrite map_app, first_some_app.
  rewrite first_some_all_None.
  2:{ apply Forall_forall. intros k Hk. apply find_absent. intros Hin. apply Hl.
      apply elem_of_ids_of. by exists k. }
  simpl. by rewrite bool_decide_true.
Qed.

Lemma row_set_kids new l bk t r :
  b ∉ ids_of l -> b ∉ ids t -> b ∉ ids_of r ->
  set_kids b new (plug C (row pid pc l b bc bk t r))
  = plug C (row pid pc l b bc new t r).
Proof.
  intros Hl Ht Hr. rewrite set_kids_plug by done. f_equal.
  unfold row. cbn [set_kids]. rewrite bool_decide_false by done. f_equal.
  rewrite map_app. cbn [map set_kids]. rewrite bool_decide_true by done.
  rewrite !(map_absent _ b) by auto using set_kids_absent.
  by rewrite (set_kids_absent b new t).
Qed.

Lemma row_remove x l bk t r :
  x ∉ ctx_ids C -> x <> pid -> x <> b -> x ∉ ids_of bk -> x ∉ ids t ->
  remove x (plug C (row pid pc l b bc bk t r))
  = plug C (row pid pc (rm x l) b bc bk t (rm x r)).
Proof.
  intros HC Hp Hb Hbk Ht. rewrite remove_plug; [|done|by simpl; apply bool_decide_eq_false].
  f_equal. unfold row. rewrite remove_Elem. f_equal.
  rewrite rm_app. f_equal.
  rewrite rm_cons_keep by (by simpl; apply bool_decide_eq_false).
  rewrite remove_Elem, (rm_absent x bk) by done. f_equal.
  destruct (is_elem x t) eqn:E; [by apply is_elem_ids in E|].
  rewrite rm_cons_keep by done. by rewrite remove_absent.
Qed.

Lemma row_appendChild a w l bk t r :
  a ∉ ctx_ids C -> a <> pid -> a <> b -> a ∉ ids_of l -> a ∉ ids_of bk -> a ∉ ids_of r ->
  appendChild a w (plug C (row pid pc l b bc bk t r))
  = plug C (row pid pc l b bc bk (appendChild a w t) r).
Proof.
  intros HC Hp Hb Hl Hbk Hr. rewrite appendChild_plug by done. f_equal.
  unfold row. cbn [appendChild]. rewrite bool_decide_false by done. f_equal.
  rewrite map_app. cbn [map appendChild]. rewrite bool_decide_false by done.
  by rewrite !(map_absent _ a) by auto using appendChild_absent.
Qed.
End Row.

Lemma ids_row pid pc l b bc bk t r :
  ids (row pid pc l b bc bk t r)
  = pid :: ids_of l ++ (b :: ids_of bk) ++ ids t ++ ids_of r.
Proof.
  unfold row. by rewrite ids_Elem, ids_of_app, !ids_of_cons, ids_Elem.
Qed.

(** The identities of a row are pairwise distinct. *)
Lemma five_disjoint (pid b : nat) (L K T R : list nat) :
  NoDup (pid :: L ++ (b :: K) ++ T ++ R) ->
  (pid <> b /\ (pid ∉ L) /\ (pid ∉ K) /\ (pid ∉ T) /\ (pid ∉ R)) /\
  ((b ∉ L) /\ (b ∉ K) /\ (b ∉ T) /\ (b ∉ R)) /\
  (forall x, x ∈ L -> x <> pid /\ x <> b /\ (x ∉ K) /\ (x ∉ T) /\ (x ∉ R)) /\
  (forall x, x ∈ T -> x <> pid /\ x <> b /\ (x ∉ L) /\ (x ∉ K) /\ (x ∉ R)) /\
  (forall x, x ∈ R -> x <> pid /\ x <> b /\ (x ∉ L) /\ (x ∉ K) /\ (x ∉ T)).
Proof.
  intros H.
  apply NoDup_cons in H as [H0 H].
  apply NoDup_app in H as (_ & HL & H).
  apply NoDup_app in H as (HbK & HK & H).
  apply NoDup_app in H as (_ & HT & _).
  apply NoDup_cons in HbK as [HbK _].
  rewrite !not_elem_of_app, not_elem_of_cons in H0.
  destruct H0 as (H1 & (H2 & H3) & H4 & H5).
  assert (HL' : forall x, x ∈ L -> x <> b /\ (x ∉ K) /\ (x ∉ T) /\ (x ∉ R)).
  { intros x Hx. specialize (HL x Hx).
    rewrite !not_elem_of_app, not_elem_of_cons in HL. tauto. }
  assert (HK' : forall x, x ∈ b :: K -> (x ∉ T) /\ (x ∉ R)).
  { intros x Hx. specialize (HK x Hx). by rewrite !not_elem_of_app in HK. }
  assert (Hb : (b ∉ T) /\ (b ∉ R)) by (apply HK'; left).
  split; [done|]. split.
  { split; [|tauto]. intros Hx. by apply HL' in Hx as (? & _). }
  split.
  { intros x Hx. destruct (HL' x Hx) as (? & ? & ? & ?).
    repeat split; try done. by intros ->. }
  split.
  { intros x Hx. repeat split.
    - by intros ->.
    - intros ->. tauto.
    - intros Hx'. by apply HL' in Hx' as (_ & _ & ? & _).
    - intros Hx'. assert (Hk : x ∈ b :: K) by (by right). by apply HK' in Hk as [? _].
    - by apply HT. }
  intros x Hx. repeat split.
  - by intros ->.
  - intros ->. tauto.
  - intros Hx'. by apply HL' in Hx' as (_ & _ & _ & ?).
  - intros Hx'. assert (Hk : x ∈ b :: K) by (by right). by apply HK' in Hk as [_ ?].
  - intros Hx'. by apply (HT x).
Qed.

(** The row of an element that has a parent and a next sibling. *)
Lemma row_shape b d p t :
  wf d -> parentNode b d = Some p -> nextSibling b d = Some t ->
  exists C pid pc l bc bk r,
    d = plug C (row pid pc l b bc bk t r) /\
    p = row pid pc l b bc bk t r /\
    NoDup (ids (row pid pc l b bc bk t r)) /\
    (forall x, x ∈ ids (row pid pc l b bc bk t r) -> x ∉ ctx_ids C).
Proof.
  intros Hwf Hp Hn.
  destruct (parentNode_context _ _ _ Hp) as [C ->].
  destruct (parentNode_has_child _ _ _ Hp) as (pid & pc & ks & -> & Hc).
  destruct (split_at_Some _ _ Hc) as (l & x & r0 & Hs).
  unfold nextSibling, siblings in Hn. rewrite Hp in Hn. simpl in Hn.
  rewrite Hs in Hn. simpl in Hn.
  destruct r0 as [|t' r]; [done|]. injection Hn as ->.
  apply split_at_spec in Hs as (-> & Hx & _).
  apply is_elem_true in Hx as (bc & bk & ->).
  apply wf_plug in Hwf as (Hnd & _ & Hdisj).
  exists C, pid, pc, l, bc, bk, r. done.
Qed.

Lemma button_no_banner f :
  collect (has_class CSS_CENSORED_WARNING_CLASS) (createExternalAiButton f) = [].
Proof. reflexivity. Qed.

Lemma button_ids f x : x ∈ ids (createExternalAiButton f) -> (f <= x)%nat.
Proof.
  unfold createExternalAiButton. rewrite ids_Elem.
  intros [->|Hx%instantiate_all_ids]%elem_of_cons; lia.
Qed.

Lemma head_app_nil {A} (l r : list A) : head (l ++ r) = None -> l = [] /\ r = [].
Proof. destruct l, r; done. Qed.

Lemma firstElementChild_ids t a ac ak :
  firstElementChild t = Some (Elem a ac ak) -> a ∈ ids t.
Proof.
  unfold firstElementChild. destruct t as [s|tid tc tk]; simpl; [done|].
  intros H. right. apply elem_of_ids_of. exists (Elem a ac ak). split; [|left].
  apply head_Some_elem_of in H. apply list_elem_of_In, filter_In in H as [H _].
  by apply list_elem_of_In.
Qed.

#[local] Abbreviation W := CSS_CENSORED_WARNING_CLASS.

(** The document side of the branch taken when the response carries no
    replacement. *)
Lemma restored_document b d p t kids0 :
  wf d -> parentNode b d = Some p ->
  nextSibling b d = Some t -> is_element t = true ->
  (forall bn, find b d = Some bn -> has_class CSS_CENSORED_WARNING_CLASS bn = false) ->
  concat (map (collect (has_class CSS_CENSORED_WARNING_CLASS)) kids0) = [] ->
  collect (has_class CSS_CENSORED_WARNING_CLASS) t = [] ->
  exists d2 d3 p3,
    hideWarning b (set_innerHTML b (map serialize kids0) d) = Ok d2 /\
    appendExternalAiButton b d2 = Ok d3 /\
    parentNode b d3 = Some p3 /\
    innerHTML b d3 = map serialize kids0 /\
    innerText b d3 = concat (map textContent kids0) /\
    ((length (descendants (has_class CSS_CENSORED_WARNING_CLASS) p) <= 1)%nat ->
     querySelector CSS_CENSORED_WARNING_CLASS p3 = None).
Proof.
  intros Hwf Hp Hn Ht Hbn Hk0 Ht0.
  destruct (row_shape _ _ _ _ Hwf Hp Hn) as (C & pid & pc & l & bc & bk & r & -> & -> & Hnd & Hout).
  pose proof Hnd as Hnd0. rewrite ids_row in Hnd.
  apply five_disjoint in Hnd
    as ((Hpb & Hpl & Hpk & Hpt & Hpr) & (Hbl & Hbk & Hbt & Hbr) & HL & HT & HR).
  assert (HbC : b ∉ ctx_ids C).
  { apply Hout. rewrite ids_row. rewrite !elem_of_cons, !elem_of_app, elem_of_cons. tauto. }
  set (d := plug C (row pid pc l b bc bk t r)) in *.
  set (new := (instantiate_all (map serialize kids0) (fresh d)).1).
  assert (Hnew : forall x, x ∈ ids_of new -> x ∉ ids d)
    by (intros x; apply instantiate_all_fresh).
  assert (Hin : forall x, x ∈ ids (row pid pc l b bc bk t r) -> x ∈ ids d).
  { intros x Hx. unfold d. rewrite ids_plug. apply elem_of_app. by right. }
  assert (Hclass : has_class W (Elem b bc bk) = false).
  { apply Hbn. unfold d. by apply row_find. }
  assert (Hb' : collect (has_class W) (Elem b bc new) = []).
  { cbn [collect]. replace (has_class W (Elem b bc new)) with (has_class W (Elem b bc bk)) by done.
    rewrite Hclass. simpl. by apply collect_instantiate_all. }
  (* the markup is put back *)
  unfold set_innerHTML. fold new. unfold d at 1. rewrite row_set_kids by done.
  (* the banner is removed *)
  assert (Hstep2 : exists l2 r2,
    hideWarning b (plug C (row pid pc l b bc new t r))
      = Ok (plug C (row pid pc l2 b bc new t r2)) /\
    (forall y, y ∈ ids_of l2 -> y ∈ ids_of l) /\
    (forall y, y ∈ ids_of r2 -> y ∈ ids_of r) /\
    ((length (descendants (has_class W) (row pid pc l b bc bk t r)) <= 1)%nat ->
      concat (map (collect (has_class W)) l2) = [] /\
      concat (map (collect (has_class W)) r2) = [])).
  { unfold hideWarning. rewrite row_parentNode by done.
    unfold querySelector, row. rewrite !descendants_Elem.
    rewrite !concat_map_app. cbn [map concat]. rewrite Hb', Ht0. simpl.
    set (Bl := concat (map (collect (has_class W)) l)).
    set (Br := concat (map (collect (has_class W)) r)).
    destruct (head (Bl ++ Br)) as [q|] eqn:Hq.
    - assert (Hqin : q ∈ Bl ++ Br) by (by apply head_Some_elem_of).
      assert (Hqe : is_element q = true).
      { apply elem_of_app in Hqin as [Hqin|Hqin];
          apply elem_of_concat in Hqin as (ms & Hm & Hms);
          apply list_elem_of_fmap in Hms as (k & -> & Hk);
          by apply collect_is_element in Hm as [? _]. }
      destruct q as [s|x xc xk]; [done|].
      assert (Hx : x ∈ ids_of l \/ x ∈ ids_of r).
      { apply elem_of_app in Hqin as [Hqin|Hqin]; [left|right];
          (eapply collect_ids_of; [done|]); simpl; by rewrite bool_decide_true. }
      assert (Hxrow : x ∈ ids (row pid pc l b bc bk t r)).
      { rewrite ids_row. rewrite !elem_of_cons, !elem_of_app, elem_of_cons. tauto. }
      assert (Hxf : x <> pid /\ x <> b /\ (x ∉ ids t)).
      { destruct Hx as [Hx|Hx]; [apply HL in Hx|apply HR in Hx]; tauto. }
      exists (rm x l), (rm x r). split; [|split; [|split]].
      + f_equal. apply row_remove; try tauto.
        * by apply Hout.
        * intros Hxn. apply (Hnew x Hxn). by apply Hin.
      + apply ids_rm.
      + apply ids_rm.
      + intros Hlen. rewrite !length_app in Hlen.
        assert (Hone : forall m, m ∈ Bl ++ Br -> m = Elem x xc xk).
        { intros m Hm. destruct (Bl ++ Br) as [|q0 [|q1 rest]] eqn:E.
          - by apply elem_of_nil in Hm.
          - simpl in Hq. injection Hq as ->. by apply list_elem_of_singleton in Hm.
          - exfalso. assert (length (Bl ++ Br) = S (S (length rest))) by (by rewrite E).
            rewrite length_app in H. lia. }
        split; apply collect_rm; intros m Hm;
          rewrite (Hone m) by (apply elem_of_app; auto);
          simpl; by rewrite bool_decide_true.
    - apply head_app_nil in Hq as [Hl0 Hr0].
      exists l, r. split; [done|]. split; [done|]. split; [done|]. done. }
  destruct Hstep2 as (l2 & r2 & Hhide & Hl2 & Hr2 & Hclean).
  assert (Hbl2 : b ∉ ids_of l2) by (intros H; by apply Hbl, Hl2).
  set (d2 := plug C (row pid pc l2 b bc new t r2)) in *.
  (* the retry control is attached *)
  assert (Hstep3 : exists t3,
    appendExternalAiButton b d2 = Ok (plug C (row pid pc l2 b bc new t3 r2)) /\
    collect (has_class W) t3 = []).
  { unfold appendExternalAiButton. unfold nextSibling.
    unfold d2 at 1. rewrite row_siblings by done. simpl.
    destruct t as [s|tid tc tk]; [done|].
    destruct (getElementsByClassName _ _); [|by exists (Elem tid tc tk)].
    destruct (firstElementChild (Elem tid tc tk)) as [[s|a ac ak]|] eqn:Hf;
      [by exists (Elem tid tc tk)| |by exists (Elem tid tc tk)].
    apply firstElementChild_ids in Hf.
    assert (Harow : a ∈ ids (row pid pc l b bc bk (Elem tid tc tk) r)).
    { rewrite ids_row. rewrite !elem_of_cons, !elem_of_app, elem_of_cons. tauto. }
    pose proof (HT a Hf) as (Hap & Hab & Hal & _ & Har).
    exists (appendChild a (createExternalAiButton (fresh d2)) (Elem tid tc tk)).
    split.
    - f_equal. apply row_appendChild; try done.
      + by apply Hout.
      + intros H. by apply Hl2 in H.
      + intros Hxn. apply (Hnew a Hxn). by apply Hin.
      + intros H. by apply Hr2 in H.
    - apply collect_appendChild; [done|apply button_no_banner]. }
  destruct Hstep3 as (t3 & Happend & Ht3).
  exists d2, (plug C (row pid pc l2 b bc new t3 r2)), (row pid pc l2 b bc new t3 r2).
  split; [done|]. split; [done|]. split; [by apply row_parentNode|].
  split; [|split].
  - unfold innerHTML. rewrite row_find by done. simpl.
    apply serialize_instantiate_all.
  - unfold innerText. rewrite row_find by done. simpl.
    apply textContent_instantiate_all.
  - intros Hlen. destruct (Hclean Hlen) as [Hl0 Hr0].
    unfold querySelector, row. rewrite descendants_Elem.
    rewrite concat_map_app. cbn [map concat]. by rewrite Hl0, Hb', Ht3, Hr0.
Qed.

(** ** The response callback *)

Lemma on_message_Sent ev d d1 rq k :
  on_message ev d = Sent d1 rq k ->
  exists b,
    last (chatBubbles k) = Some b /\
    chatBubbles k = slice_to (scope_end (ev_index ev) (length (bubbles d))) (bubbles d) /\
    promptsFlatten k = concat (map (turn (ev_manual ev) d) (chatBubbles k)) /\
    currentBubbleInnerHtml k = innerHTML b d /\
    history rq = promptsFlatten k /\
    req_manual rq = ev_manual ev /\
    d1 = set_innerText b checking_text d.
Proof.
  unfold on_message. destruct (_ || _); [done|].
  destruct (last _) as [b|] eqn:L; [|done].
  intros [= <- <- <-]. exists b. done.
Qed.

Lemma innerHTML_children b d :
  innerHTML b d = map serialize (default [] (children <$> find b d)).
Proof. unfold innerHTML. by destruct (find b d). Qed.

Lemma innerText_children b d :
  (forall bn, find b d = Some bn -> is_element bn = true) ->
  innerText b d = concat (map textContent (default [] (children <$> find b d))).
Proof.
  intros H. unfold innerText. destruct (find b d) as [[s|j c ks]|] eqn:E; simpl; [|done|done].
  by specialize (H _ eq_refl).
Qed.

Lemma find_is_element b d bn : find b d = Some bn -> is_element bn = true.
Proof. intros (c & ks & ->)%find_Some_elem%is_elem_true. done. Qed.

(** C1: when the response is absent, has no replacement or has an empty
    one, and the bubble still sits in its row, with an element after it,
    when the response arrives, then the callback puts back the markup
    that the bubble had before the placeholder was set, leaves no banner in
    the row of the bubble (which held at most one), and saves the history
    of the request with the last message replaced by the shown text of the
    bubble, marked [censored: false].  The marker class is assumed to be
    used for banners only: not on the bubble, in its markup or in the
    element after it. *)
Theorem restored_branch
    (ev : event) (d0 d1 : node) (rq : request) (k : pending)
    (response : option (option jsstring)) (pg : page)
    (b : nat) (p t : node) (c : jsstring) :
  on_message ev d0 = Sent d1 rq k ->
  last (chatBubbles k) = Some b ->
  replacement_of response = None ->
  wf (document pg) ->
  parentNode b (document pg) = Some p ->
  nextSibling b (document pg) = Some t ->
  is_element t = true ->
  collect (has_class CSS_CENSORED_WARNING_CLASS) t = [] ->
  (forall bn, find b (document pg) = Some bn ->
              has_class CSS_CENSORED_WARNING_CLASS bn = false) ->
  (forall bn, find b d0 = Some bn ->
              descendants (has_class CSS_CENSORED_WARNING_CLASS) bn = []) ->
  (length (descendants (has_class CSS_CENSORED_WARNING_CLASS) p) <= 1)%nat ->
  getChatIdFromUrl (pathname (store pg)) = Some c ->
  localStorage (store pg) <> Some NotJson ->
  exists pg' p',
    on_response k response pg = (Ok (), pg') /\
    innerHTML b (document pg') = innerHTML b d0 /\
    innerText b (document pg') = innerText b d0 /\
    parentNode b (document pg') = Some p' /\
    querySelector CSS_CENSORED_WARNING_CLASS p' = None /\
    restoreHistory (Some c) (store pg') =
      Ok (but_last (history rq) ++ [Message Assistant (innerText b d0) (Some false)]).
Proof.
  intros Hsent Hlast Hrep Hwf Hp Hn Ht Ht0 Hbn Hsnap Hone Hc Hs.
  destruct (on_message_Sent _ _ _ _ _ Hsent) as (b' & Hlast' & _ & _ & Hhtml & Hhist & _).
  rewrite Hlast in Hlast'. injection Hlast' as <-.
  set (kids0 := default [] (children <$> find b d0)).
  assert (Hk0 : concat (map (collect (has_class CSS_CENSORED_WARNING_CLASS)) kids0) = []).
  { unfold kids0. destruct (find b d0) as [bn|] eqn:E; [|done].
    specialize (Hsnap bn eq_refl). by destruct bn. }
  destruct (restored_document b (document pg) p t kids0 Hwf Hp Hn Ht Hbn Hk0 Ht0)
    as (d2 & d3 & p3 & Hhide & Happend & Hp3 & Hih & Hit & Hq).
  rewrite innerHTML_children in Hhtml. fold kids0 in Hhtml.
  destruct (getChatIdFromUrl_shape _ _ Hc) as [Hne _].
  set (M := but_last (promptsFlatten k) ++ [Message Assistant (innerText b d3) (Some false)]).
  destruct (saveHistory_stored (store pg) c M Hc Hs) as (parsed & Hparsed & Hsave).
  eexists (Page d3 _), p3. split; [|split; [|split; [|split; [|split]]]].
  - unfold on_response. rewrite Hlast, Hrep.
    unfold mbind, script_bind, on_document, on_store, read. simpl.
    rewrite Hhtml, Hhide. simpl. rewrite Happend. simpl.
    fold M. by rewrite Hsave.
  - simpl. by rewrite Hih, innerHTML_children.
  - simpl. rewrite Hit. symmetry. apply innerText_children. apply find_is_element.
  - done.
  - by apply Hq.
  - cbn [store]. erewrite restoreHistory_lookup; [|done|done].
    rewrite lookup_insert_eq. simpl. unfold M. rewrite Hhist, Hit.
    rewrite (innerText_children b d0) by apply find_is_element. done.
Qed.

Lemma restored_branch_witness :
  let d1 := set_innerText 23 checking_text sample_document in
  exists rq k pg',
    on_message sample_event sample_document = Sent d1 rq k /\
    on_response k (Some None) (Page d1 sample_store) = (Ok (), pg') /\
    innerText 23 (document pg') = str "Sorry, I cannot discuss this topic" /\
    restoreHistory (Some (str "abc-123")) (store pg') =
      Ok [Message User (str "What is X?") None;
          Message Assistant (str "X is Y") (Some false);
          Message User (str "And Z?") None;
          Message Assistant (str "Sorry, I cannot discuss this topic") (Some false)].
Proof.
  intros d1.
  assert (Hwf : wf d1) by (apply (bool_decide_unpack _); by vm_compute).
  destruct (restored_branch sample_event sample_document d1 _ _ (Some None)
              (Page d1 sample_store) 23 _ _ (str "abc-123")
              eq_refl eq_refl eq_refl Hwf eq_refl eq_refl eq_refl eq_refl)
    as (pg' & p' & H1 & H2 & H3 & H4 & H5 & H6).
  - intros bn. vm_compute. by intros [= <-].
  - intros bn. vm_compute. by intros [= <-].
  - vm_compute. lia.
  - reflexivity.
  - discriminate.
  - eexists _, _, pg'. split; [reflexivity|]. split; [exact H1|]. split; [exact H3|exact H6].
Defined.

(** ** Manual retry: the scope *)

(** The elements collected keep the document order of their identities. *)
Lemma collect_sublist P n : omap node_id (collect P n) `sublist_of` ids n.
Proof.
  induction n as [s|j c ks IH] using node_ind'; [done|].
  cbn [collect ids]. rewrite omap_app.
  assert (E : omap node_id (concat (map (collect P) ks)) `sublist_of` concat (map ids ks)).
  { induction IH as [|k r Hk _ IHr]; simpl; [done|].
    rewrite omap_app. by apply sublist_app. }
  destruct (P (Elem j c ks)); simpl.
  - by apply sublist_skip.
  - by apply sublist_cons.
Qed.

Lemma bubbles_sublist d : bubbles d `sublist_of` ids d.
Proof.
  unfold bubbles, getElementsByClassName, descendants.
  destruct d as [s|j c ks]; [done|]. simpl.
  apply sublist_cons.
  induction ks as [|k r IH]; simpl; [done|].
  rewrite omap_app. apply sublist_app; [apply collect_sublist|done].
Qed.

Lemma bubbles_NoDup d : wf d -> NoDup (bubbles d).
Proof. intros H. eapply sublist_NoDup; [exact H|apply bubbles_sublist]. Qed.

Lemma bubbles_in d b : b ∈ bubbles d -> b ∈ ids d.
Proof. intros H. eapply elem_of_sublist; [done|apply bubbles_sublist]. Qed.

(** The click listener posts the index of its bubble. *)
Lemma retry_click_index d k b :
  wf d -> bubbles d !! k = Some b ->
  retry_click b d =
    Some (Event true (str "DEEPSEEK_CENSORSHIP") (innerText b d) (Some (Z.of_nat k)) true).
Proof.
  intros Hwf Hk. unfold retry_click.
  assert (E : list_find (fun e => e = b) (bubbles d) = Some (k, b)).
  { apply list_find_Some. split; [done|]. split; [done|].
    intros j y Hj Hlt ->.
    pose proof (NoDup_lookup _ _ _ _ (bubbles_NoDup d Hwf) Hj Hk). lia. }
  by rewrite E.
Qed.

Lemma scope_of_index {A} (k : nat) (l : list A) :
  slice_to (scope_end (Some (Z.of_nat k)) (length l)) l = take (S k) l.
Proof.
  unfold scope_end. destruct (Z.eqb_spec (Z.of_nat k + 1) 0); [lia|].
  replace (Z.of_nat k + 1)%Z with (Z.of_nat (S k)) by lia.
  apply slice_to_prefix. lia.
Qed.

Lemma last_take_S {A} (k : nat) (l : list A) b :
  l !! k = Some b -> last (take (S k) l) = Some b.
Proof.
  intros Hk. rewrite last_lookup, length_take.
  pose proof (lookup_lt_Some _ _ _ Hk).
  replace (Init.Nat.pred (S k `min` length l)) with k by lia.
  by rewrite lookup_take_lt by lia.
Qed.

Lemma turns_length manual d l :
  length (concat (map (turn manual d) l)) = (2 * length l)%nat.
Proof. induction l as [|b l IH]; simpl; [done|]. rewrite IH. lia. Qed.

(** ** Manual retry: what is left untouched *)

Lemma spine_ctx_ids C x : x ∈ spine C -> x ∈ ctx_ids C.
Proof.
  induction C as [|i c l C IH r]; simpl; [done|].
  intros [->|H]%elem_of_cons; [left|right].
  rewrite !elem_of_app. right. left. by apply IH.
Qed.

(** An ancestor of the hole contains what fills the hole. *)
Lemma spine_find C n j :
  wf (plug C n) -> j ∈ spine C ->
  exists jn, find j (plug C n) = Some jn /\ forall x, x ∈ ids n -> x ∈ ids jn.
Proof.
  induction C as [|i c l C IH r]; [by intros _ ?%elem_of_nil|].
  cbn [plug spine]. intros Hwf Hj.
  destruct (decide (i = j)) as [->|Hij].
  - eexists. split; [simpl; by rewrite bool_decide_true|].
    intros x Hx. rewrite ids_Elem, ids_of_app, ids_of_cons.
    right. apply elem_of_app. right. apply elem_of_app. left.
    rewrite ids_plug. apply elem_of_app. by right.
  - apply elem_of_cons in Hj as [->|Hj]; [done|].
    unfold wf in Hwf. rewrite ids_Elem, ids_of_app, ids_of_cons in Hwf.
    apply NoDup_cons in Hwf as [_ Hwf].
    apply NoDup_app in Hwf as (_ & Hdisj & Hwf).
    apply NoDup_app in Hwf as (Hwf & _ & _).
    destruct (IH Hwf Hj) as (jn & Hfind & Hin).
    exists jn. split; [|done].
    cbn [find]. rewrite bool_decide_false by done.
    rewrite map_app, first_some_app.
    rewrite first_some_all_None; [simpl; by rewrite Hfind|].
    apply Forall_forall. intros k Hk. apply find_absent. intros Hjk.
    apply (Hdisj j).
    + apply elem_of_ids_of. by exists k.
    + apply elem_of_app. left. rewrite ids_plug. apply elem_of_app. left.
      by apply spine_ctx_ids.
Qed.

Lemma find_None_absent i n : find i n = None -> i ∉ ids n.
Proof. intros H Hin. apply find_present in Hin as [m Hm]. congruence. Qed.

(** Replacing the children of [b] leaves an element apart from [b] as it
    is. *)
Lemma set_kids_apart b new j d :
  wf d -> j <> b -> apart b j d -> j ∉ ids_of new ->
  find j (set_kids b new d) = find j d.
Proof.
  intros Hwf Hjb [Hin Hout] Hnew.
  destruct (find b d) as [bn|] eqn:Hb.
  - destruct (find_context _ _ _ Hb) as [C ->].
    pose proof (find_Some_elem _ _ _ Hb) as (bc & bk & ->)%is_elem_true.
    pose proof (wf_plug _ _ Hwf) as (_ & _ & Hdisj).
    rewrite set_kids_plug by (apply Hdisj; left).
    cbn [set_kids]. rewrite bool_decide_true by done.
    symmetry. apply find_plug_outside.
    + intros Hs. destruct (spine_find _ _ _ Hwf Hs) as (jn & Hj & Hsub).
      apply (Hout jn Hj). apply Hsub. left.
    + by apply Hin.
    + rewrite ids_Elem. by apply not_elem_of_cons.
  - by rewrite set_kids_absent by by apply find_None_absent.
Qed.

(** *** What a mutation can add *)

Lemma ids_of_map_incl (G : node -> node) (new : list nat) ks x :
  (forall k y, k ∈ ks -> y ∈ ids (G k) -> y ∈ ids k \/ y ∈ new) ->
  x ∈ ids_of (map G ks) -> x ∈ ids_of ks \/ x ∈ new.
Proof.
  intros HG (k' & Hk' & Hx)%elem_of_ids_of.
  apply list_elem_of_fmap in Hk' as (k & -> & Hk).
  destruct (HG k x Hk Hx) as [H|H]; [left|by right].
  apply elem_of_ids_of. by exists k.
Qed.

Lemma ids_set_kids i new n x :
  x ∈ ids (set_kids i new n) -> x ∈ ids n \/ x ∈ ids_of new.
Proof.
  revert x. induction n as [s|j c ks IH] using node_ind'; intros x; [by left|].
  cbn [set_kids]. case_bool_decide.
  - rewrite !ids_Elem. intros [->|Hx]%elem_of_cons; [left; left|by right].
  - rewrite !ids_Elem. intros [->|Hx]%elem_of_cons; [left; left|].
    apply ids_of_map_incl with (new := ids_of new) in Hx as [Hx|Hx]; [left; by right|by right|].
    rewrite Forall_forall in IH. intros k y Hk. by apply IH.
Qed.

Lemma ids_insert_at w i ks x :
  x ∈ ids_of (insert_at w i ks) -> x ∈ ids_of ks \/ x ∈ ids w.
Proof.
  unfold insert_at. destruct (split_at i ks) as [[[l k] r]|] eqn:E; [|by left].
  apply split_at_spec in E as (-> & _ & _).
  rewrite !ids_of_app, !ids_of_cons, !elem_of_app. tauto.
Qed.

Lemma ids_insertBefore w i n x :
  x ∈ ids (insertBefore w i n) -> x ∈ ids n \/ x ∈ ids w.
Proof.
  revert x. induction n as [s|j c ks IH] using node_ind'; intros x; [by left|].
  cbn [insertBefore]. rewrite !ids_Elem.
  intros [->|[Hx|Hx]%ids_insert_at]%elem_of_cons; [left; left| |by right].
  apply ids_of_map_incl with (new := ids w) in Hx as [Hx|Hx]; [left; by right|by right|].
  rewrite Forall_forall in IH. intros k y Hk. by apply IH.
Qed.

Lemma ids_appendChild i w n x :
  x ∈ ids (appendChild i w n) -> x ∈ ids n \/ x ∈ ids w.
Proof.
  revert x. induction n as [s|j c ks IH] using node_ind'; intros x; [by left|].
  cbn [appendChild]. rewrite !ids_Elem.
  assert (Hmap : x ∈ ids_of (map (appendChild i w) ks) -> x ∈ ids_of ks \/ x ∈ ids w).
  { apply ids_of_map_incl. rewrite Forall_forall in IH. intros k y Hk. by apply IH. }
  intros [->|Hx]%elem_of_cons; [left; left|].
  case_bool_decide.
  - rewrite ids_of_app, elem_of_app in Hx. destruct Hx as [Hx|Hx].
    + destruct (Hmap Hx); [left; by right|by right].
    + right. unfold ids_of in Hx. simpl in Hx. by rewrite app_nil_r in Hx.
  - destruct (Hmap Hx); [left; by right|by right].
Qed.

(** The row found for [b] below [n] lies in [n]. *)
Lemma parentNode_children_ids b n par x :
  parentNode b n = Some par -> x ∈ ids_of (children par) -> x ∈ ids_of (children n).
Proof.
  revert x. induction n as [s|j c ks IH] using node_ind'; intros x; [done|].
  cbn [parentNode]. destruct (has_child b ks).
  - by intros [= <-].
  - intros (l & k & r & -> & Hk & _)%first_some_split Hx.
    cbn [children]. apply elem_of_ids_of. exists k.
    split; [apply elem_of_app; right; left|].
    rewrite Forall_forall in IH.
    assert (Hin : k ∈ l ++ k :: r) by (apply elem_of_app; right; left).
    specialize (IH k Hin x Hk Hx).
    destruct k as [s|kj kc kks]; [by apply elem_of_nil in IH|].
    rewrite ids_Elem. by right.
Qed.

Lemma descendants_ids P n m i :
  m ∈ descendants P n -> is_elem i m = true -> i ∈ ids_of (children n).
Proof. unfold descendants. apply collect_ids_of. Qed.

Section Confined.
Variables (C : ctx) (pid b j : nat).
Hypothesis b_inside : b ∉ ctx_ids C.
Hypothesis row_inside : pid ∉ ctx_ids C.
Hypothesis b_not_row : pid <> b.
Hypothesis j_around : j ∈ ctx_ids C.

Lemma j_not_row : j <> pid.
Proof. intros ->. by apply row_inside. Qed.

(** An identity from [fresh] on is new to the row and to what is around
    it. *)
Lemma fresh_new q x :
  confined C pid j q -> (fresh (plug C q) <= x)%nat ->
  (x ∉ ctx_ids C) /\ x <> pid /\ x <> j.
Proof.
  intros (c & ks & -> & _) Hx.
  assert (Hnew : x ∉ ids (plug C (Elem pid c ks))).
  { intros H%max_id_ge. unfold fresh in Hx. lia. }
  rewrite ids_plug, not_elem_of_app, ids_Elem, not_elem_of_cons in Hnew.
  destruct Hnew as [H1 [H2 _]].
  split; [done|]. split; [done|]. by intros ->.
Qed.

Lemma confined_incl c ks ks' :
  confined C pid j (Elem pid c ks) ->
  (forall x, x ∈ ids_of ks' ->
     x ∈ ids_of ks \/ ((x ∉ ctx_ids C) /\ x <> pid /\ x <> j)) ->
  confined C pid j (Elem pid c ks').
Proof.
  intros (c0 & ks0 & [= <- <-] & Hp & Hj & HC) Hincl.
  exists c, ks'. split; [done|]. split; [|split].
  - intros H. destruct (Hincl _ H) as [H'|(_ & H' & _)]; done.
  - intros H. destruct (Hincl _ H) as [H'|(_ & _ & H')]; done.
  - intros x H. destruct (Hincl _ H) as [H'|(H' & _)]; [by apply HC|done].
Qed.

Lemma confined_not_b q : confined C pid j q -> is_elem b q = false.
Proof. intros (c & ks & -> & _). simpl. by apply bool_decide_eq_false. Qed.

Lemma parentNode_in_row q :
  confined C pid j q -> parentNode b (plug C q) = parentNode b q.
Proof. intros Hq. apply parentNode_plug; [done|by eapply confined_not_b]. Qed.

Lemma set_kids_in_row new d :
  (forall x, x ∈ ids_of new -> (fresh d <= x)%nat) ->
  in_row C pid j d -> in_row C pid j (set_kids b new d).
Proof.
  intros Hnew (q & -> & Hq). pose proof Hq as (c & ks & -> & _).
  rewrite set_kids_plug by done. eexists. split; [done|].
  cbn [set_kids]. rewrite bool_decide_false by done.
  apply (confined_incl c ks); [done|].
  intros x Hx. apply ids_of_map_incl with (new := ids_of new) in Hx as [Hx|Hx].
  - by left.
  - right. eapply fresh_new; [done|]. by apply Hnew.
  - intros k y _. apply ids_set_kids.
Qed.

Lemma set_innerText_in_row text d : in_row C pid j d -> in_row C pid j (set_innerText b text d).
Proof.
  apply set_kids_in_row. intros x. destruct text; by intros ?%elem_of_nil.
Qed.

Lemma set_innerHTML_in_row markup d : in_row C pid j d -> in_row C pid j (set_innerHTML b markup d).
Proof.
  apply set_kids_in_row. intros x Hx%instantiate_all_ids. lia.
Qed.

Lemma showWarning_in_row d d' : in_row C pid j d -> showWarning b d = Ok d' -> in_row C pid j d'.
Proof.
  intros (q & -> & Hq). unfold showWarning.
  destruct (parentNode b (plug C q)); [|done].
  destruct (querySelector _ _); intros [= <-]; [by exists q|].
  pose proof Hq as (c & ks & -> & _).
  rewrite insertBefore_plug; [|done|by eapply confined_not_b].
  eexists. split; [done|]. cbn [insertBefore].
  apply (confined_incl c ks); [done|].
  intros x [Hx|Hx]%ids_insert_at.
  - apply ids_of_map_incl with (new := ids (warning (fresh (plug C (Elem pid c ks)))))
      in Hx as [Hx|Hx]; [by left| |intros k y _; apply ids_insertBefore].
    right. eapply fresh_new; [done|]. apply list_elem_of_singleton in Hx as ->. done.
  - right. eapply fresh_new; [done|]. apply list_elem_of_singleton in Hx as ->. done.
Qed.

Lemma hideWarning_in_row d d' : in_row C pid j d -> hideWarning b d = Ok d' -> in_row C pid j d'.
Proof.
  intros (q & -> & Hq). unfold hideWarning. rewrite parentNode_in_row by done.
  destruct (parentNode b q) as [par|] eqn:Hpar; [|done].
  destruct (querySelector _ par) as [[s|x xc xk]|] eqn:Hx;
    intros [= <-]; [by exists q| |by exists q].
  pose proof Hq as (c & ks & -> & Hp & Hj & HC).
  assert (Hxin : x ∈ ids_of ks).
  { apply (parentNode_children_ids b (Elem pid c ks) par x Hpar).
    apply head_Some_elem_of in Hx. eapply descendants_ids; [done|].
    simpl. by rewrite bool_decide_true. }
  rewrite remove_plug.
  - eexists. split; [done|]. rewrite remove_Elem.
    apply (confined_incl c ks); [done|]. intros y Hy. left. by eapply ids_rm.
  - by apply HC.
  - simpl. apply bool_decide_eq_false. intros <-. done.
Qed.

Lemma appendExternalAiButton_in_row d d' :
  in_row C pid j d -> appendExternalAiButton b d = Ok d' -> in_row C pid j d'.
Proof.
  intros (q & -> & Hq). unfold appendExternalAiButton, nextSibling, siblings.
  rewrite parentNode_in_row by done.
  destruct (parentNode b q) as [par|] eqn:Hpar; [|done]. simpl.
  destruct (split_at b (children par)) as [[[l bn] r]|] eqn:Hs; [|done]. simpl.
  destruct r as [|[s|t tc tk] r]; [done|done|]. simpl.
  destruct (getElementsByClassName _ _); [|intros [= <-]; by exists q].
  destruct (firstElementChild _) as [[s|a ac ak]|] eqn:Hf;
    intros [= <-]; [by exists q| |by exists q].
  pose proof Hq as (c & ks & -> & Hp & Hj & HC).
  assert (Ha : a ∈ ids_of ks).
  { apply (parentNode_children_ids b (Elem pid c ks) par a Hpar).
    apply split_at_spec in Hs as (-> & _ & _).
    rewrite ids_of_app, !ids_of_cons, !elem_of_app. right. right. left.
    by eapply firstElementChild_ids. }
  rewrite appendChild_plug by (by apply HC).
  eexists. split; [done|]. cbn [appendChild].
  rewrite bool_decide_false by (intros ->; done).
  apply (confined_incl c ks); [done|].
  intros x Hx.
  apply ids_of_map_incl
    with (new := ids (createExternalAiButton (fresh (plug C (Elem pid c ks)))))
    in Hx as [Hx|Hx]; [by left| |intros k y _; apply ids_appendChild].
  right. eapply fresh_new; [done|]. by apply button_ids.
Qed.

(** *** The callback keeps to the row *)

Lemma preserves_on_document (f : node -> result node) :
  (forall d d', in_row C pid j d -> f d = Ok d' -> in_row C pid j d') ->
  preserves (in_row C pid j) (on_document f).
Proof.
  intros Hf pg r pg' Hpg. unfold on_document.
  destruct (f (document pg)) as [d|e] eqn:E; intros [= <- <-]; [|done].
  simpl. by eapply Hf.
Qed.

Lemma preserves_on_store (f : storage -> result storage) :
  preserves (in_row C pid j) (on_store f).
Proof.
  intros pg r pg' Hpg. unfold on_store.
  by destruct (f (store pg)); intros [= <- <-].
Qed.

Lemma preserves_bind {A B} (m : script A) (f : A -> script B) :
  preserves (in_row C pid j) m -> (forall a, preserves (in_row C pid j) (f a)) ->
  preserves (in_row C pid j) (m ≫= f).
Proof.
  intros Hm Hf pg r pg' Hpg. unfold mbind, script_bind.
  destruct (m pg) as [[a|e] pg1] eqn:E.
  - intros H. eapply Hf; [|done]. by eapply Hm.
  - intros [= <- <-]. by eapply Hm.
Qed.

Lemma preserves_read {A} (f : node -> A) : preserves (in_row C pid j) (read f).
Proof. by intros pg r pg' Hpg [= <- <-]. Qed.

Lemma on_response_in_row k response :
  last (chatBubbles k) = Some b -> preserves (in_row C pid j) (on_response k response).
Proof.
  intros Hlast. unfold on_response. rewrite Hlast.
  destruct (replacement_of response) as [replacement|].
  - apply preserves_bind; [apply preserves_on_document, showWarning_in_row|intros _].
    apply preserves_bind; [apply preserves_on_document, appendExternalAiButton_in_row|intros _].
    apply preserves_bind; [|intros _; apply preserves_on_store].
    apply preserves_on_document. intros d d' Hd [= <-]. by apply set_innerText_in_row.
  - apply preserves_bind; [|intros _].
    { apply preserves_on_document. intros d d' Hd [= <-]. by apply set_innerHTML_in_row. }
    apply preserves_bind; [apply preserves_on_document, hideWarning_in_row|intros _].
    apply preserves_bind; [apply preserves_on_document, appendExternalAiButton_in_row|intros _].
    apply preserves_bind; [apply preserves_read|intros text; apply preserves_on_store].
Qed.
End Confined.

(** What lies outside the row of the bubble is as it was when the callback
    ends, whichever branch it takes and even if it throws on the way. *)
Lemma on_response_outside_row k response pg r pg' b j :
  last (chatBubbles k) = Some b ->
  wf (document pg) -> outside_row j b (document pg) ->
  on_response k response pg = (r, pg') ->
  find j (document pg') = find j (document pg).
Proof.
  intros Hlast Hwf (Hj & (p & Hp & Hjp) & Hanc) Hrun.
  destruct (parentNode_context _ _ _ Hp) as [C HC].
  destruct (parentNode_has_child _ _ _ Hp) as (pid & pc & ks & -> & Hchild).
  rewrite HC in Hwf, Hj, Hanc.
  pose proof (wf_plug _ _ Hwf) as (Hnd & _ & Hdisj).
  rewrite ids_Elem in Hnd. apply NoDup_cons in Hnd as [Hpid _].
  apply has_child_ids in Hchild.
  assert (HbC : b ∉ ctx_ids C) by (apply Hdisj; rewrite ids_Elem; by right).
  assert (HpC : pid ∉ ctx_ids C) by (apply Hdisj; rewrite ids_Elem; left).
  assert (Hpb : pid <> b) by (by intros ->).
  assert (HjC : j ∈ ctx_ids C).
  { rewrite ids_plug, elem_of_app in Hj. by destruct Hj. }
  assert (Hrow : in_row C pid j (document pg)).
  { exists (Elem pid pc ks). split; [done|]. exists pc, ks.
    split; [done|]. split; [done|]. split.
    - intros H. apply Hjp. rewrite ids_Elem. by right.
    - intros x Hx. apply Hdisj. rewrite ids_Elem. by right. }
  destruct (on_response_in_row C pid b j HbC HpC Hpb HjC k response Hlast pg r pg' Hrow Hrun)
    as (q' & -> & (c' & ks' & -> & _ & Hj' & _)).
  rewrite HC. apply find_plug_outside.
  - intros Hs. destruct (spine_find _ _ _ Hwf Hs) as (jn & Hfind & Hsub).
    apply (Hanc jn Hfind). apply Hsub. rewrite ids_Elem. by right.
  - rewrite ids_Elem. apply not_elem_of_cons. split; [|done]. by intros ->.
  - done.
Qed.

Lemma innerText_set_innerText b text d :
  is_Some (find b d) -> innerText b (set_innerText b text d) = text.
Proof.
  intros [bn Hb]. unfold innerText, set_innerText.
  assert (E : forall new n m, find b n = Some m ->
            exists c, find b (set_kids b new n) = Some (Elem b c new)).
  { intros new n. induction n as [s|j c ks IH] using node_ind'; intros m; [done|].
    cbn [find set_kids]. case_bool_decide as Ej.
    - intros _. subst j. exists c. simpl. by rewrite bool_decide_true.
    - intros (l & k & r & -> & Hk & Hl)%first_some_split.
      cbn [find]. rewrite bool_decide_false by done.
      rewrite Forall_forall in IH.
      destruct (IH k ltac:(apply elem_of_app; right; left) m Hk) as [c' Hc'].
      exists c'. rewrite !map_app, first_some_app.
      rewrite first_some_all_None; [simpl; by rewrite Hc'|].
      apply Forall_forall. intros k' Hk'%list_elem_of_fmap.
      destruct Hk' as (k0 & -> & Hk0). rewrite Forall_forall in Hl.
      rewrite set_kids_absent; [by apply Hl|]. by apply find_None_absent, Hl. }
  destruct (E (match text with [] => [] | _ :: _ => [Text text] end) d bn Hb) as [c ->].
  simpl. destruct text; simpl; [done|]. by rewrite app_nil_r.
Qed.

(** C7: the click listener of the control on the turn at index [k] posts
    that index with [manual: true]; the message listener then takes the
    turns 0 to [k] as its scope: the history it sends is made of these
    [k + 1] turns, two messages each, its last bubble is the one clicked,
    and it replaces the text of that bubble only: an element that is
    neither inside the bubble nor around it is found unchanged.  The
    callback in turn keeps to the row of the bubble: whatever the
    response, an element outside that row is found unchanged when it
    ends. *)
Theorem manual_retry_scope (d : node) (k b : nat) :
  wf d ->
  bubbles d !! k = Some b ->
  exists ev d1 rq pend,
    retry_click b d = Some ev /\
    ev_index ev = Some (Z.of_nat k) /\
    ev_manual ev = true /\
    on_message ev d = Sent d1 rq pend /\
    req_manual rq = true /\
    chatBubbles pend = take (S k) (bubbles d) /\
    last (chatBubbles pend) = Some b /\
    history rq = concat (map (turn true d) (take (S k) (bubbles d))) /\
    length (history rq) = (2 * S k)%nat /\
    d1 = set_innerText b checking_text d /\
    innerText b d1 = checking_text /\
    (forall j, j <> b -> apart b j d -> find j d1 = find j d) /\
    (forall response pg r pg' j,
       wf (document pg) -> outside_row j b (document pg) ->
       on_response pend response pg = (r, pg') ->
       find j (document pg') = find j (document pg)).
Proof.
  intros Hwf Hk.
  pose proof (lookup_lt_Some _ _ _ Hk) as Hlen.
  eexists _, _, _, _. split; [by apply retry_click_index|].
  split; [done|]. split; [done|].
  rewrite on_message_accepted by done. cbn [ev_index ev_manual ev_content].
  rewrite scope_of_index, (last_take_S k _ b Hk).
  split; [done|]. cbn [req_manual chatBubbles history].
  split; [done|]. split; [done|]. split; [by apply last_take_S|].
  split; [done|]. split.
  { rewrite turns_length, length_take. lia. }
  split; [done|]. split.
  { apply innerText_set_innerText. apply find_present, bubbles_in.
    by eapply list_elem_of_lookup_2. }
  split.
  - intros j Hj Hapart. apply set_kids_apart; try done. by intros ?%elem_of_nil.
  - intros response pg r pg' j Hwf' Hout Hrun.
    eapply on_response_outside_row; [|done|done|done].
    by apply last_take_S.
Qed.

Lemma manual_retry_scope_witness :
  exists ev d1 rq pend,
    retry_click 13 sample_document = Some ev /\
    on_message ev sample_document = Sent d1 rq pend /\
    chatBubbles pend = [13]%nat /\
    history rq = [Message User (str "What is X?") None;
                  Message Assistant (str "X is Y") (Some true)] /\
    find 23 d1 = find 23 sample_document.
Proof.
  destruct (manual_retry_scope sample_document 0 13 wf_sample_document eq_refl)
    as (ev & d1 & rq & pend & H1 & _ & _ & H4 & _ & H6 & _ & H8 & _ & _ & _ & H12 & _).
  exists ev, d1, rq, pend. split; [exact H1|]. split; [exact H4|].
  split; [exact H6|]. split; [exact H8|].
  apply H12; [discriminate|].
  split; intros n Hn; vm_compute in Hn; injection Hn as <-;
    apply (bool_decide_unpack _); by vm_compute.
Defined.

(** ** Scenarios of the specification, and the earlier revisions *)

Example isCensored_refusal :
  isCensored (str "I'm sorry, I cannot help with that") = true.
Proof. reflexivity. Qed.

Example isCensored_plain :
  isCensored (str "Paris is the capital of France") = false.
Proof. reflexivity. Qed.

(** Two rendered turns give a history of four messages with alternating
    roles. *)
Example extractor_scenario :
  exists d1 rq k,
    on_message sample_event sample_document = Sent d1 rq k /\
    map msg_role (history rq) = [User; Assistant; User; Assistant] /\
    map content (history rq) =
      [str "What is X?"; str "X is Y"; str "And Z?";
       str "Sorry, I cannot discuss this topic"].
Proof. eexists _, _, _. split; [reflexivity|]. split; reflexivity. Qed.

(** A response with a replacement: the bubble shows it, one banner stands
    in front of the bubble, and the saved history marks the message
    [censored: true]. *)
Example replaced_scenario :
  exists d1 rq k pg',
    on_message sample_event sample_document = Sent d1 rq k /\
    on_response k (Some (Some (str "Full answer."))) (Page d1 sample_store)
      = (Ok (), pg') /\
    innerText 23 (document pg') = str "Full answer." /\
    previousSibling 23 (document pg') = Some (warning (fresh d1)) /\
    (p ← parentNode 23 (document pg');
     Some (length (descendants (has_class CSS_CENSORED_WARNING_CLASS) p))) = Some 1%nat /\
    (l ← restoreHistory (Some (str "abc-123")) (store pg'); Ok (last l)) =
      Ok (Some (Message Assistant (str "Full answer.") (Some true))).
Proof.
  eexists _, _, _, _. split; [reflexivity|]. split; [reflexivity|].
  repeat split; reflexivity.
Qed.

(** A corrupt store makes [saveHistory] throw as well. *)
Example saveHistory_corrupt_throws :
  saveHistory [] (Storage (str "/a/chat/s/abc-123") (Some NotJson)) = Throw SyntaxError.
Proof. reflexivity. Qed.

(** In the earlier revision every call of [showWarning] inserts a banner:
    two calls leave two. *)
Example earlier_showWarning_twice :
  exists d1 d2 p,
    Earlier.showWarning 23 sample_document = Ok d1 /\
    Earlier.showWarning 23 d1 = Ok d2 /\
    parentNode 23 d2 = Some p /\
    length (descendants (has_class CSS_CENSORED_WARNING_CLASS) p) = 2%nat.
Proof. eexists _, _, _. repeat split; reflexivity. Qed.

(** In the earlier revision the provider receives the history without a
    system message. *)
Lemma earlier_forwarded_messages cfg rq call k :
  Earlier.checkCensorship cfg rq = Fetches call k ->
  messages call = but_last (history rq).
Proof.
  unfold Earlier.checkCensorship.
  destruct (negb _); [done|].
  destruct (truthy (openai_api_key cfg)); [|done].
  destruct (last (history rq)); [|done].
  destruct (isCensored _); [|done].
  by intros [= <- _].
Qed.

(** ** The classifier [isCensored] *)

Lemma is_word_upper c : is_word (upper c) = is_word c.
Proof.
  unfold upper.
  destruct ((97 <=? c) && (c <=? 122)) eqn:E; [|done].
  apply andb_true_iff in E as [E1%N.leb_le E2%N.leb_le].
  transitivity true; [|symmetry]; unfold is_word, is_digit;
    rewrite !orb_true_iff, !andb_true_iff, !N.leb_le, N.eqb_eq; lia.
Qed.

Lemma upper_is_word a b : upper a = upper b -> is_word a = is_word b.
Proof. intros E. by rewrite <- (is_word_upper a), E, is_word_upper. Qed.

Lemma word_at_upper x y : upper <$> x = upper <$> y -> word_at x = word_at y.
Proof.
  destruct x, y; simpl; intros [=]; [|done]. by apply upper_is_word.
Qed.

Lemma last_or_cons before c v : last_or (Some c) v = last_or before (c :: v).
Proof. unfold last_or. rewrite last_cons. by destruct (last v). Qed.

Lemma last_or_None v : last_or None v = last v.
Proof. unfold last_or. by destruct (last v). Qed.

Lemma match_ci_spec p s before l rest :
  match_ci p s before = Some (l, rest) <->
  exists v, s = v ++ rest /\ map upper v = map upper p /\ l = last_or before v.
Proof.
  revert s before. induction p as [|a p IH]; intros s before; simpl.
  - split.
    + intros [= <- <-]. by exists [].
    + intros (v & -> & Hv & ->). by destruct v.
  - destruct s as [|b s].
    + split; [done|]. intros (v & Hs & Hv & _).
      symmetry in Hs. apply app_eq_nil in Hs as [-> _]. done.
    + destruct (N.eqb_spec (upper a) (upper b)) as [E|E].
      * rewrite IH. split.
        -- intros (v & -> & Hv & ->). exists (b :: v). simpl.
           rewrite E, Hv. split; [done|]. split; [done|]. apply last_or_cons.
        -- intros (v & Hs & Hv & ->). destruct v as [|b' v]; [done|].
           simpl in Hs, Hv. injection Hs as <- ->. injection Hv as _ Hv.
           exists v. split; [done|]. split; [done|]. symmetry. apply last_or_cons.
      * split; [done|]. intros (v & Hs & Hv & _).
        destruct v as [|b' v]; [done|]. simpl in Hs, Hv.
        injection Hs as <- _. injection Hv as Hb _. congruence.
Qed.

(** Every phrase starts and ends with a word character. *)
Lemma phrases_words p :
  p ∈ censorship_phrases -> word_at (head p) = true /\ word_at (last p) = true.
Proof.
  intros Hp.
  assert (H : forallb (fun p => word_at (head p) && word_at (last p))
                censorship_phrases = true) by by vm_compute.
  rewrite forallb_forall in H.
  apply andb_true_iff, H. by apply list_elem_of_In.
Qed.

Lemma upper_first v p :
  map upper v = map upper p -> word_at (head v) = word_at (head p).
Proof.
  intros E. apply word_at_upper. destruct v, p; simpl in *; congruence.
Qed.

Lemma upper_last v p :
  map upper v = map upper p -> word_at (last v) = word_at (last p).
Proof.
  intros E. apply word_at_upper.
  change (upper <$> v = upper <$> p) in E. by rewrite <- !fmap_last, E.
Qed.

Lemma boundary_word before after :
  word_at after = true -> boundary before after = negb (word_at before).
Proof. unfold boundary. intros ->. by destruct (word_at before). Qed.

Lemma boundary_word_l before after :
  word_at before = true -> boundary before after = negb (word_at after).
Proof. unfold boundary. intros ->. by destruct (word_at after). Qed.

(** A match that starts in front of [s]. *)
Lemma censored_at_spec before s :
  censored_at before s = true <->
  exists v w p,
    s = v ++ w /\ p ∈ censorship_phrases /\ map upper v = map upper p /\
    word_at before = false /\ word_at (head w) = false.
Proof.
  unfold censored_at. rewrite andb_true_iff, existsb_exists. split.
  - intros (Hb & p & Hp%list_elem_of_In & Hm).
    destruct (match_ci p s before) as [[l rest]|] eqn:E; [|done].
    apply match_ci_spec in E as (v & -> & Hv & ->).
    destruct (phrases_words p Hp) as [Hh Hl].
    assert (Hv0 : v <> []) by (intros ->; by destruct p).
    exists v, rest, p. split; [done|]. split; [done|]. split; [done|].
    rewrite boundary_word in Hb.
    2:{ pose proof (upper_first v p Hv) as E. rewrite Hh in E. by destruct v. }
    rewrite boundary_word_l in Hm.
    2:{ unfold last_or. pose proof (upper_last v p Hv) as Hlv. rewrite Hl in Hlv.
        by destruct (last v). }
    split; by apply negb_true_iff.
  - intros (v & w & p & -> & Hp & Hv & Hb & Hw).
    destruct (phrases_words p Hp) as [Hh Hl].
    assert (Hhv : word_at (head (v ++ w)) = true).
    { pose proof (upper_first v p Hv) as E. rewrite Hh in E. by destruct v. }
    split; [by rewrite boundary_word, Hb|].
    exists p. split; [by apply list_elem_of_In|].
    assert (E : match_ci p (v ++ w) before = Some (last_or before v, w)).
    { apply match_ci_spec. by exists v. }
    rewrite E. rewrite boundary_word_l, Hw; [done|].
    unfold last_or. pose proof (upper_last v p Hv) as Hlv. rewrite Hl in Hlv.
    by destruct (last v).
Qed.

Lemma censored_from_spec before s :
  censored_from before s = true <->
  exists u v w p,
    s = u ++ v ++ w /\ p ∈ censorship_phrases /\ map upper v = map upper p /\
    word_at (last_or before u) = false /\ word_at (head w) = false.
Proof.
  revert before. induction s as [|c s IH]; intros before.
  - cbn [censored_from]. rewrite orb_false_r, censored_at_spec. split.
    + intros (v & w & p & E & H). by exists [], v, w, p.
    + intros (u & v & w & p & E & H). symmetry in E.
      apply app_eq_nil in E as [-> E]. by exists v, w, p.
  - cbn [censored_from]. rewrite orb_true_iff, censored_at_spec, IH. split.
    + intros [(v & w & p & E & H)|(u & v & w & p & -> & Hp & Hv & Hb & Hw)].
      * by exists [], v, w, p.
      * exists (c :: u), v, w, p. by rewrite <- last_or_cons.
    + intros (u & v & w & p & E & Hp & Hv & Hb & Hw). destruct u as [|c' u].
      * left. by exists v, w, p.
      * right. simpl in E. injection E as <- ->. exists u, v, w, p.
        by rewrite (last_or_cons before).
Qed.

(** X1: [isCensored] answers [true] exactly for the texts that hold one
    of the phrases of the pattern, ASCII case ignored, as a whole word:
    with no letter, digit or underscore in front of it and none after
    it. *)
Theorem isCensored_spec (responseText : jsstring) :
  isCensored responseText = true <-> holds_phrase responseText.
Proof.
  unfold isCensored, holds_phrase. rewrite censored_from_spec.
  split; intros (u & v & w & p & H1 & H2 & H3 & H4 & H5);
    exists u, v, w, p; by rewrite last_or_None in *.
Qed.

(** X2: the classifier ignores the case of ASCII letters: two texts that
    are equal once their letters a to z are put in upper case are
    classified alike. *)
Theorem isCensored_ignores_case (s t : jsstring) :
  map upper s = map upper t -> isCensored s = isCensored t.
Proof.
  assert (H : forall s t, map upper s = map upper t ->
                          isCensored s = true -> isCensored t = true).
  { clear. intros s t E. unfold isCensored. rewrite !censored_from_spec.
    intros (u & v & w & p & -> & Hp & Hv & Hb & Hw).
    change (upper <$> u ++ v ++ w = upper <$> t) in E. symmetry in E.
    rewrite !fmap_app in E.
    apply fmap_app_inv in E as (u' & t' & Eu & E & ->).
    symmetry in E. apply fmap_app_inv in E as (v' & w' & Ev & Ew & ->).
    exists u', v', w', p. split; [done|]. split; [done|].
    split; [by rewrite <- Hv|].
    rewrite last_or_None in *. split.
    - by rewrite <- (upper_last u u').
    - by rewrite <- (upper_first w w').
  }
  intros E. destruct (isCensored s) eqn:Es, (isCensored t) eqn:Et; try done.
  - apply (H _ _ E) in Es. congruence.
  - symmetry in E. apply (H _ _ E) in Et. congruence.
Qed.

Lemma isCensored_ignores_case_witness :
  isCensored (str "SORRY, I CANNOT DISCUSS THIS") = isCensored (str "sorry, i cannot discuss this").
Proof.
  apply (isCensored_ignores_case (str "SORRY, I CANNOT DISCUSS THIS")
           (str "sorry, i cannot discuss this")).
  reflexivity.
Defined.

(** ** Conversation identity: where the id is found *)

Lemma strip_prefix_spec p s r : strip_prefix p s = Some r <-> s = p ++ r.
Proof.
  revert s. induction p as [|a p IH]; intros s; simpl.
  - split; congruence.
  - destruct s as [|b s]; [done|].
    destruct (N.eqb_spec a b) as [->|E].
    + rewrite IH. split; congruence.
    + split; [done|]. intros [= ? _]. congruence.
Qed.

Lemma take_while_nil_iff p s :
  take_while p s = [] <-> head (p <$> s) <> Some true.
Proof.
  destruct s as [|c r]; simpl; [done|].
  destruct (p c); split; congruence.
Qed.

Lemma chat_id_at_Some s c :
  chat_id_at s = Some c <->
  exists post, s = str "/chat/s/" ++ c ++ post /\ c <> [] /\
               forallb is_id_char c = true /\
               head (is_id_char <$> post) <> Some true.
Proof.
  unfold chat_id_at. split.
  - destruct (strip_prefix _ s) as [r|] eqn:E; [|done].
    apply strip_prefix_spec in E as ->.
    destruct (take_while is_id_char r) as [|a t] eqn:Et; [done|].
    intros [= <-]. exists (drop_while is_id_char r).
    rewrite <- Et, take_drop_while. split; [done|]. split; [by rewrite Et|].
    split; [apply take_while_all|].
    destruct (drop_while is_id_char r) as [|x y] eqn:Ed; simpl; [done|].
    apply drop_while_head in Ed. congruence.
  - intros (post & -> & Hc & Hall & Hpost).
    assert (E : strip_prefix (str "/chat/s/") (str "/chat/s/" ++ c ++ post)
                = Some (c ++ post)) by by apply strip_prefix_spec.
    rewrite E. destruct (take_while_app is_id_char c post Hall Hpost) as [-> _].
    by destruct c.
Qed.

Lemma chat_id_at_None s :
  chat_id_at s = None <->
  forall x post, s = str "/chat/s/" ++ x :: post -> is_id_char x = false.
Proof.
  unfold chat_id_at. split.
  - intros H x post ->.
    assert (E : strip_prefix (str "/chat/s/") (str "/chat/s/" ++ x :: post)
                = Some (x :: post)) by by apply strip_prefix_spec.
    rewrite E in H. simpl in H. by destruct (is_id_char x).
  - intros H. destruct (strip_prefix _ s) as [r|] eqn:E; [|done].
    apply strip_prefix_spec in E as ->.
    destruct r as [|x r]; [done|]. simpl. by rewrite (H x r).
Qed.

(** X3: the conversation id that [getChatIdFromUrl] returns is a
    non-empty run of the characters a to f, 0 to 9 and the hyphen that
    stands in the path right after "/chat/s/" and ends where such
    characters end; and it returns [null] exactly when no "/chat/s/" of
    the path is followed by such a character. *)
Theorem getChatIdFromUrl_match (path : jsstring) :
  (forall c, getChatIdFromUrl path = Some c ->
     exists pre post,
       path = pre ++ str "/chat/s/" ++ c ++ post /\ c <> [] /\
       forallb is_id_char c = true /\
       head (is_id_char <$> post) <> Some true)
  /\ (getChatIdFromUrl path = None <->
      forall pre x post,
        path = pre ++ str "/chat/s/" ++ x :: post -> is_id_char x = false).
Proof.
  split.
  - induction path as [|a r IH]; intros c; cbn [getChatIdFromUrl].
    + destruct (chat_id_at []) eqn:E; [|done]. intros [= <-].
      apply chat_id_at_Some in E as (post & E & H). by exists [], post.
    + destruct (chat_id_at (a :: r)) eqn:E.
      * intros [= <-]. apply chat_id_at_Some in E as (post & E & H).
        by exists [], post.
      * intros (pre & post & -> & H)%IH. by exists (a :: pre), post.
  - induction path as [|a r IH]; cbn [getChatIdFromUrl].
    + split; [|done]. intros _ pre x post E. by destruct pre.
    + destruct (chat_id_at (a :: r)) as [j|] eqn:E.
      * split; [done|]. intros H. exfalso.
        apply chat_id_at_Some in E as (post & E & Hc & Hall & _).
        destruct j as [|x j]; [done|]. simpl in Hall.
        apply andb_prop in Hall as [Hx _].
        specialize (H [] x (j ++ post)). simpl in H, E.
        rewrite (H E) in Hx. done.
      * rewrite IH. split.
        -- intros H pre x post Ep. destruct pre as [|a' pre].
           ++ rewrite chat_id_at_None in E. apply (E x post). exact Ep.
           ++ simpl in Ep. injection Ep as <- ->. by eapply H.
        -- intros H pre x post ->. by apply (H (a :: pre) x post).
Qed.

Lemma strip_prefix_app_None p s t :
  strip_prefix p s = None -> (length p <= length s)%nat ->
  strip_prefix p (s ++ t) = None.
Proof.
  revert s. induction p as [|a p IH]; intros s; simpl; [done|].
  destruct s as [|b s]; simpl; [lia|].
  destruct (a =? b); [|done]. intros H Hl. apply IH; [done|lia].
Qed.

Lemma chat_id_at_app_None s t :
  chat_id_at s = None -> (length (str "/chat/s/") < length s)%nat ->
  chat_id_at (s ++ t) = None.
Proof.
  unfold chat_id_at. intros H Hl.
  destruct (strip_prefix _ s) as [r|] eqn:E.
  - apply strip_prefix_spec in E as ->.
    rewrite <- app_assoc.
    assert (E : strip_prefix (str "/chat/s/") (str "/chat/s/" ++ r ++ t)
                = Some (r ++ t)) by by apply strip_prefix_spec.
    rewrite E. destruct r as [|x r]; [rewrite length_app in Hl; simpl in Hl; lia|].
    simpl in *. by destruct (is_id_char x).
  - rewrite strip_prefix_app_None; [done..|lia].
Qed.

Lemma getChatIdFromUrl_at s c :
  chat_id_at s = Some c -> getChatIdFromUrl s = Some c.
Proof. intros H. destruct s; cbn [getChatIdFromUrl]; by rewrite H. Qed.

(** X4: in a path [pre ++ "/chat/s/" ++ c ++ post] where [c] is a
    non-empty run of id characters that [post] does not continue, and
    where nothing up to the end of this "/chat/s/" matches already,
    [getChatIdFromUrl] finds [c]. *)
Theorem getChatIdFromUrl_finds (pre c post : jsstring) :
  getChatIdFromUrl (pre ++ str "/chat/s/") = None ->
  c <> [] -> forallb is_id_char c = true ->
  head (is_id_char <$> post) <> Some true ->
  getChatIdFromUrl (pre ++ str "/chat/s/" ++ c ++ post) = Some c.
Proof.
  intros Hpre Hc Hall Hpost.
  assert (Hat : chat_id_at (str "/chat/s/" ++ c ++ post) = Some c).
  { apply chat_id_at_Some. by exists post. }
  induction pre as [|a pre IH].
  - by apply getChatIdFromUrl_at.
  - cbn [app getChatIdFromUrl] in Hpre |- *.
    destruct (chat_id_at (a :: pre ++ str "/chat/s/")) eqn:E; [done|].
    change (a :: pre ++ str "/chat/s/" ++ c ++ post)
      with ((a :: pre) ++ str "/chat/s/" ++ c ++ post).
    rewrite app_assoc, chat_id_at_app_None.
    + by apply IH.
    + done.
    + simpl. rewrite length_app. simpl. lia.
Qed.

Lemma getChatIdFromUrl_finds_witness :
  getChatIdFromUrl (str "/a/chat/s/0f3c-77?x=1") = Some (str "0f3c-77").
Proof.
  apply (getChatIdFromUrl_finds (str "/a") (str "0f3c-77") (str "?x=1"));
    [reflexivity|discriminate|reflexivity|discriminate].
Defined.

(** ** History store: how saves compose *)

(** X5: the last save wins: a [saveHistory] that follows another one on
    the same page leaves the store that it would have left alone, and a
    page without conversation id is never written to. *)
Theorem saveHistory_overwrites (M1 M2 : list message) (st st1 : storage) :
  saveHistory M1 st = Ok st1 ->
  saveHistory M2 st1 = saveHistory M2 st
  /\ (getChatIdFromUrl (pathname st) = None -> st1 = st).
Proof.
  unfold saveHistory.
  destruct (getChatIdFromUrl (pathname st)) as [[|a c]|] eqn:E.
  - intros [= <-]. by rewrite E.
  - destruct (localStorage st) as [[|chats]|] eqn:Es; simpl; [done|..];
      intros [= <-]; simpl; rewrite E; simpl; (split; [|done]);
      by rewrite insert_insert_eq.
  - intros [= <-]. by rewrite E.
Qed.

Lemma saveHistory_overwrites_witness :
  let st := Storage (str "/a/chat/s/abc-123") None in
  exists st1,
    saveHistory [Message User (str "q") None] st = Ok st1 /\
    saveHistory [] st1 = saveHistory [] st.
Proof.
  eexists. split; [reflexivity|].
  apply (saveHistory_overwrites [Message User (str "q") None] []
           (Storage (str "/a/chat/s/abc-123") None) _ eq_refl).
Defined.

(** ** Options page and background worker *)

Lemma truthy_Some s : truthy (Some s) = match s with [] => None | _ => Some s end.
Proof. by destruct s. Qed.

(** X6: what the options page saves is what it shows when it is opened
    again, an empty model being shown as the default one, and it is what
    the background worker uses: with the key left empty the worker answers
    that no key is set; otherwise a call to the provider carries the saved
    key as its bearer credential and the model that the page shows. *)
Theorem saved_options_are_used
    (prompt : jsstring) (form : options_form) (stored : config) (rq : request) :
  let stored' := saveKey_click form stored in
  load_options stored' =
    OptionsForm (apiKey_value form)
                (match model_value form with
                 | [] => DEFAULT_OPENAI_MODEL
                 | m => m
                 end)
  /\ saveKey_click (load_options stored') stored' =
       Config (Some (apiKey_value form)) (Some (model_value (load_options stored')))
  /\ (action rq = str "checkCensorship" -> apiKey_value form = [] ->
      checkCensorship prompt stored' rq =
        Responds (str "Error: No OpenAI API key set. Skipping censorship bypass."))
  /\ (forall call k,
        checkCensorship prompt stored' rq = Fetches call k ->
        bearer call = str "Bearer " ++ apiKey_value form /\
        model call = model_value (load_options stored')).
Proof.
  destruct form as [key m]. intros stored'.
  unfold stored', saveKey_click, load_options.
  cbn [apiKey_value model_value openai_api_key openai_model].
  rewrite !truthy_Some. split; [by destruct key, m|].
  split; [by destruct key, m|].
  split.
  - intros Ha ->. unfold checkCensorship. rewrite Ha.
    by rewrite bool_decide_eq_true_2.
  - intros call k. unfold checkCensorship.
    destruct (negb _); [done|].
    cbn [openai_api_key openai_model]. rewrite !truthy_Some.
    destruct key as [|c key]; [done|].
    destruct (last (history rq)); [|done].
    destruct (isCensored _); [|done].
    intros [= <- _]. cbn [bearer model]. by destruct m.
Qed.

Lemma saved_options_are_used_witness :
  let stored' := saveKey_click (OptionsForm [] (str "o3-mini")) (Config None None) in
  checkCensorship (str "P") stored'
    (Request (str "checkCensorship") [] [] false)
  = Responds (str "Error: No OpenAI API key set. Skipping censorship bypass.").
Proof.
  intros stored'.
  destruct (saved_options_are_used (str "P") (OptionsForm [] (str "o3-mini"))
              (Config None None) (Request (str "checkCensorship") [] [] false))
    as (_ & _ & H & _).
  apply H; reflexivity.
Defined.

(** ** What the content script sends, and what comes back *)

Lemma turns_roles manual d l :
  map msg_role (concat (map (turn manual d) l))
  = concat (replicate (length l) [User; Assistant]).
Proof. induction l as [|b l IH]; simpl; [done|]. by rewrite IH. Qed.

Lemma turns_trimmed manual d l :
  Forall (fun m => trim (content m) = content m) (concat (map (turn manual d) l)).
Proof.
  induction l as [|b l IH]; simpl; [constructor|].
  constructor; [apply cleanText_trimmed|].
  constructor; [apply cleanText_trimmed|done].
Qed.

(** X7: a request that the message listener sends is one that the
    background worker handles without an exception: its action is
    [checkCensorship], its history is not empty, alternates between the
    roles [user] and [assistant], one pair for each bubble in scope, and
    holds trimmed texts only; so the worker answers at once or calls the
    provider. *)
Theorem sent_request_is_handled
    (ev : event) (d d1 : node) (rq : request) (k : pending)
    (prompt : jsstring) (cfg : config) :
  on_message ev d = Sent d1 rq k ->
  action rq = str "checkCensorship"
  /\ req_content rq = ev_content ev
  /\ history rq <> []
  /\ map msg_role (history rq)
     = concat (replicate (length (chatBubbles k)) [User; Assistant])
  /\ Forall (fun m => trim (content m) = content m) (history rq)
  /\ ((exists s, checkCensorship prompt cfg rq = Responds s) \/
      (exists call c, checkCensorship prompt cfg rq = Fetches call c)).
Proof.
  intros H. unfold on_message in H.
  destruct (_ || _); [done|].
  destruct (last (slice_to _ _)) as [b|] eqn:El; [|done].
  injection H as <- <- <-. cbn [action req_content history chatBubbles].
  set (scope := slice_to _ _) in *.
  assert (Hne : concat (map (turn (ev_manual ev) d) scope) <> []).
  { destruct scope; [done|]. done. }
  split; [done|]. split; [done|]. split; [done|].
  split; [apply turns_roles|]. split; [apply turns_trimmed|].
  unfold checkCensorship. cbn [action history].
  rewrite bool_decide_eq_true_2 by done. cbn [negb].
  destruct (truthy (openai_api_key cfg)); [|left; by eexists].
  destruct (last (concat _)) eqn:E.
  - destruct (isCensored _); [right|left]; by eexists; try eexists.
  - by apply last_None in E.
Qed.

Lemma sent_request_is_handled_witness :
  exists d1 rq k,
    on_message sample_event sample_document = Sent d1 rq k /\
    history rq <> [] /\
    exists call c,
      checkCensorship (str "P") (Config (Some (str "sk-test")) None) rq = Fetches call c.
Proof.
  eexists _, _, _. split; [reflexivity|].
  destruct (sent_request_is_handled sample_event sample_document _ _ _ (str "P")
              (Config (Some (str "sk-test")) None) eq_refl)
    as (_ & _ & H & _).
  split; [exact H|]. eexists _, _. reflexivity.
Defined.

Lemma on_fetched_falsy o :
  truthy (on_fetched o) = None <->
  exists c cs, o = Data (Some (Choice c :: cs)) /\ (c = None \/ c = Some []).
Proof.
  split.
  - destruct o as [| | |[[|[|c] cs]|]]; try done. simpl.
    destruct c as [[|x text]|]; [|done|]; intros _; eexists _, _; eauto.
  - by intros (c & cs & -> & [->| ->]).
Qed.

(** X8: when the response callback takes which branch.  With a key
    configured, a last message that matches no phrase comes back as the
    replacement, so that the callback restores the bubble only if that
    text is empty and else shows it as a replacement; and after a call to
    the provider the callback restores the bubble exactly when the first
    choice has a message whose content is the empty text, [null] or
    absent: every failure text counts as a replacement. *)
Theorem restored_only_without_text
    (prompt : jsstring) (cfg : config) (rq : request) (key : jsstring) (final : message) :
  action rq = str "checkCensorship" ->
  truthy (openai_api_key cfg) = Some key ->
  last (history rq) = Some final ->
  (isCensored (content final) = false ->
   checkCensorship prompt cfg rq = Responds (content final) /\
   (replacement_of (Some (Some (content final))) = None <-> content final = []))
  /\ (isCensored (content final) = true ->
      exists call k,
        checkCensorship prompt cfg rq = Fetches call k /\
        forall o,
          replacement_of (Some (k o)) = None <->
          exists c cs, o = Data (Some (Choice c :: cs)) /\ (c = None \/ c = Some [])).
Proof.
  intros Ha Hk Hl.
  rewrite (checkCensorship_cases prompt cfg rq key final Ha Hk Hl).
  unfold replacement_of. split; intros ->.
  - split; [done|]. simpl. by destruct (content final).
  - eexists _, _. split; [done|]. intros o.
    by rewrite <- on_fetched_falsy.
Qed.

Lemma restored_only_without_text_witness :
  let rq := Request (str "checkCensorship") (str "x")
              [Message User (str "q") None;
               Message Assistant (str "Sorry, I cannot discuss this topic") (Some false)]
              false in
  exists call k,
    checkCensorship (str "P") (Config (Some (str "sk-test")) None) rq = Fetches call k /\
    replacement_of (Some (k (Data (Some [Choice None])))) = None /\
    replacement_of (Some (k (Data (Some [Choice (Some [])])))) = None /\
    replacement_of (Some (k (Data (Some [Choice (Some (str "Full answer."))]))))
      = Some (str "Full answer.") /\
    replacement_of (Some (k NullBody)) = Some (str "Error: OpenAI API request failed.").
Proof.
  intros rq.
  destruct (restored_only_without_text (str "P") (Config (Some (str "sk-test")) None)
              rq (str "sk-test")
              (Message Assistant (str "Sorry, I cannot discuss this topic") (Some false))
              eq_refl eq_refl eq_refl) as [_ H].
  destruct (H eq_refl) as (call & k & Hc & Hk).
  exists call, k. split; [exact Hc|].
  split; [apply Hk; eexists _, _; split; [reflexivity|by left]|].
  split; [apply Hk; eexists _, _; split; [reflexivity|by right]|].
  injection Hc as _ <-. split; reflexivity.
Defined.

(** ** Interception layer *)

Lemma startsWith_spec p s : startsWith p s = true <-> exists r, s = p ++ r.
Proof.
  unfold startsWith. destruct (strip_prefix p s) as [r|] eqn:E.
  - apply strip_prefix_spec in E. split; [by exists r|done].
  - split; [done|]. intros [r Hr%strip_prefix_spec]. congruence.
Qed.

Lemma includes_spec needle hay :
  includes needle hay = true <-> exists pre post, hay = pre ++ needle ++ post.
Proof.
  induction hay as [|c hay IH]; cbn [includes];
    rewrite orb_true_iff, startsWith_spec.
  - split.
    + intros [[r ->]|?]; [by exists [], r|done].
    + intros (pre & post & E). left. symmetry in E.
      apply app_eq_nil in E as [-> E]. by exists post.
  - rewrite IH. split.
    + intros [[r ->]|(pre & post & ->)]; [by exists [], r|by exists (c :: pre), post].
    + intros (pre & post & E). destruct pre as [|c' pre].
      * left. by exists post.
      * right. injection E as <- ->. by exists pre, post.
Qed.

(** X9: the two hooks post a detection event exactly for a response text
    that contains the finish-reason marker: the request hook when, in
    addition, the request is done (state 4), the [fetch] hook whenever the
    text of the response can be read.  The event carries the whole text,
    and no index. *)
Theorem interception_posts (x : xhr) (o : fetch_outcome) (ev : event) :
  (on_readystatechange x = XhrPosts ev <->
   readyState x = 4 /\
   exists text pre post,
     responseText x = Some text /\
     text = pre ++ content_filter_marker ++ post /\ ev = postMessage text)
  /\ ((fetch o).1 = Some ev <->
      exists text pre post,
        o = FetchResponse (Some text) /\
        text = pre ++ content_filter_marker ++ post /\ ev = postMessage text).
Proof.
  split.
  - unfold on_readystatechange. destruct (N.eqb_spec (readyState x) 4) as [E|E].
    + destruct (responseText x) as [text|].
      * destruct (includes content_filter_marker text) eqn:Ei.
        -- apply includes_spec in Ei as (pre & post & Ei). split.
           ++ intros [= <-]. split; [done|]. by exists text, pre, post.
           ++ by intros (_ & text' & _ & _ & [= <-] & _ & ->).
        -- split; [done|]. intros (_ & text' & pre & post & [= <-] & Ht & _).
           assert (includes content_filter_marker text = true)
             by (apply includes_spec; by exists pre, post).
           congruence.
      * split; [done|]. by intros (_ & ? & ? & ? & ? & _).
    + split; [done|]. by intros [? _].
  - destruct o as [|[text|]]; cbn [fetch fst].
    + split; [done|]. by intros (? & ? & ? & ? & _).
    + destruct (includes content_filter_marker text) eqn:Ei.
      * apply includes_spec in Ei as (pre & post & Ei). split.
        -- intros [= <-]. by exists text, pre, post.
        -- by intros (text' & _ & _ & [= <-] & _ & ->).
      * split; [done|]. intros (text' & pre & post & [= <-] & Ht & _).
        assert (includes content_filter_marker text = true)
          by (apply includes_spec; by exists pre, post).
        congruence.
    + split; [done|]. by intros (? & ? & ? & ? & _).
Qed.

Lemma interception_posts_aux x o ev :
  on_readystatechange x = XhrPosts ev \/ (fetch o).1 = Some ev ->
  exists text, ev = postMessage text.
Proof.
  intros [H|H].
  - unfold on_readystatechange in H. destruct (_ =? _); [|done].
    destruct (responseText x) as [text|]; [|done].
    destruct (includes _ _); [|done]. injection H as <-. by exists text.
  - destruct o as [|[text|]]; cbn [fetch fst] in H; try done.
    destruct (includes _ _); [|done]. injection H as <-. by exists text.
Qed.

(** X10: an event posted by one of the hooks is accepted by the message
    listener of the content script, which takes every rendered bubble as
    its scope: it throws when there is none, and else replaces the text of
    the last bubble by the placeholder and sends the texts of all turns,
    with the response text as [content] and [manual: false]. *)
Theorem posted_detection_scope (x : xhr) (o : fetch_outcome) (ev : event) (d : node) :
  on_readystatechange x = XhrPosts ev \/ (fetch o).1 = Some ev ->
  on_message ev d =
    match last (bubbles d) with
    | None => Failed (TypeError "innerHTML")
    | Some b =>
        let history := concat (map (turn false d) (bubbles d)) in
        Sent (set_innerText b checking_text d)
             (Request (str "checkCensorship") (ev_content ev) history false)
             (Pending (bubbles d) history (innerHTML b d))
    end.
Proof.
  intros H.
  assert (E : exists text, ev = postMessage text).
  { destruct (interception_posts_aux x o ev H) as [text ->]. by exists text. }
  destruct E as [text ->].
  rewrite on_message_accepted by done.
  cbn [ev_index ev_manual ev_content postMessage scope_end].
  by rewrite slice_to_all.
Qed.

Lemma posted_detection_scope_witness :
  let text := content_filter_marker in
  exists d1 rq k,
    on_message (postMessage text) sample_document = Sent d1 rq k /\
    chatBubbles k = [13; 23]%nat /\ req_manual rq = false.
Proof.
  intros text. eexists _, _, _.
  rewrite (posted_detection_scope (Xhr 4 (Some text)) FetchRejects (postMessage text)
             sample_document (or_introl eq_refl)).
  split; [reflexivity|]. split; reflexivity.
Defined.

(** ** The banner and the [censored] flag *)

Lemma collect_head P n : is_element n = true -> P n = true -> head (collect P n) = Some n.
Proof. destruct n as [|i c ks]; [done|]. intros _ H. cbn [collect]. by rewrite H. Qed.

Lemma has_class_element c n : has_class c n = true -> is_element n = true.
Proof. by destruct n. Qed.

Lemma descendants_child P n k :
  k ∈ children n -> collect P k <> [] -> descendants P n <> [].
Proof.
  unfold descendants. intros Hk Hc E. apply Hc.
  destruct (collect P k) as [|m ms] eqn:Ek; [done|].
  assert (Hm : m ∈ concat (map (collect P) (children n))).
  { apply elem_of_concat. exists (collect P k). split; [rewrite Ek; left|].
    apply list_elem_of_fmap. by exists k. }
  rewrite E in Hm. by apply not_elem_of_nil in Hm.
Qed.

Lemma last_elem_of {A} (l : list A) x : last l = Some x -> x ∈ l.
Proof.
  intros H. apply last_Some in H as [l' ->]. apply elem_of_app. right. left.
Qed.

Lemma querySelector_Some_iff c n :
  is_Some (querySelector c n) <-> descendants (has_class c) n <> [].
Proof.
  unfold querySelector. destruct (descendants _ n); simpl.
  - split; [by intros [? ?]|done].
  - split; [done|]. by eexists.
Qed.

Lemma hasCensorshipWarning_flag b manual d :
  hasCensorshipWarning b manual d =
    match parentNode b d with
    | Some p =>
        manual || bool_decide (descendants (has_class CSS_CENSORED_WARNING_CLASS) p <> [])
    | None => manual
    end.
Proof.
  unfold hasCensorshipWarning. destruct manual; [by destruct (parentNode b d)|].
  destruct (parentNode b d) as [p|] eqn:Hp; [|done]. cbn [orb].
  assert (E : bool_decide (is_Some (querySelector CSS_CENSORED_WARNING_CLASS p))
              = bool_decide (descendants (has_class CSS_CENSORED_WARNING_CLASS) p <> [])).
  { apply bool_decide_ext, querySelector_Some_iff. }
  rewrite E.
  destruct (previousSibling b d) as [prev|] eqn:Hs; [|done].
  destruct (has_class _ prev) eqn:Hc; [|done].
  symmetry. apply bool_decide_eq_true_2.
  unfold previousSibling, siblings in Hs. rewrite Hp in Hs. cbn in Hs.
  destruct (split_at b (children p)) as [[[l x] r]|] eqn:Es; [|done]. cbn in Hs.
  apply split_at_spec in Es as (Ek & _ & _).
  apply (descendants_child _ p prev).
  - rewrite Ek. apply elem_of_app. left. by apply last_elem_of.
  - intros E0.
    pose proof (collect_head (has_class CSS_CENSORED_WARNING_CLASS) prev
                  (has_class_element _ _ Hc) Hc) as Hh.
    by rewrite E0 in Hh.
Qed.

(** X11: for an element that has a parent, [hasCensorshipWarning] is
    [true] exactly when the call is a manual one or the parent holds a
    node of the banner class somewhere below it (of whichever turn): the
    test on the previous sibling adds nothing; and for an element without
    parent it is the [manual] flag. *)
Theorem hasCensorshipWarning_meaning (b : nat) (manual : bool) (d : node) :
  hasCensorshipWarning b manual d =
    match parentNode b d with
    | Some p =>
        manual || bool_decide (descendants (has_class CSS_CENSORED_WARNING_CLASS) p <> [])
    | None => manual
    end.
Proof. apply hasCensorshipWarning_flag. Qed.

Lemma rm_cons_drop x k r : is_elem x k = true -> rm x (k :: r) = rm x r.
Proof.
  intros H. unfold rm. cbn [map List.filter]. by rewrite is_elem_remove, H.
Qed.

Lemma head_nil_iff {A} (l : list A) : head l = None <-> l = [].
Proof. by destruct l. Qed.

(** The document around the parent of [b], and the children of that
    parent around [b]. *)
Lemma parent_shape b d p :
  wf d -> parentNode b d = Some p ->
  exists C j c l x r,
    d = plug C (Elem j c (l ++ x :: r)) /\ p = Elem j c (l ++ x :: r) /\
    split_at b (l ++ x :: r) = Some (l, x, r) /\
    (b ∉ ctx_ids C) /\ b <> j /\
    (forall y, (y ∉ ids d) -> (y ∉ ctx_ids C) /\ y <> j /\ (y ∉ ids_of (l ++ x :: r))).
Proof.
  intros Hwf Hp.
  destruct (parentNode_context _ _ _ Hp) as [C ->].
  destruct (parentNode_has_child _ _ _ Hp) as (j & c & ks & -> & Hc).
  destruct (split_at_Some _ _ Hc) as (l & x & r & Hs).
  pose proof (split_at_spec _ _ _ _ _ Hs) as (-> & Hx & Hl).
  pose proof (wf_plug _ _ Hwf) as (Hnd & _ & Hdis).
  assert (Hb : b ∈ ids_of (l ++ x :: r)) by by apply has_child_ids.
  exists C, j, c, l, x, r. split; [done|]. split; [done|]. split; [done|].
  split; [|split].
  - apply Hdis. rewrite ids_Elem. by right.
  - intros ->. rewrite ids_Elem in Hnd. by apply NoDup_cons in Hnd as [? _].
  - intros y Hy.
    assert (Hy' : y ∉ ctx_ids C ++ ids (Elem j c (l ++ x :: r))).
    { intros H. apply Hy. by rewrite ids_plug. }
    rewrite elem_of_app, ids_Elem, elem_of_cons in Hy'. tauto.
Qed.

(** X12: on a document with distinct nodes, where the parent of the
    element holds no banner, [showWarning] puts one in, after which
    [hasCensorshipWarning] is [true], and [hideWarning] then gives back
    the document as it was, for which [hasCensorshipWarning] is
    [false]. *)
Theorem hideWarning_undoes_showWarning (b : nat) (d : node) (p : node) :
  wf d ->
  parentNode b d = Some p ->
  querySelector CSS_CENSORED_WARNING_CLASS p = None ->
  exists d1,
    showWarning b d = Ok d1 /\
    hasCensorshipWarning b false d1 = true /\
    hideWarning b d1 = Ok d /\
    hasCensorshipWarning b false d = false.
Proof.
  intros Hwf Hp Hq.
  exists (insertBefore (warning (fresh d)) b d).
  split; [by eapply showWarning_inserts|].
  pose proof (fresh_not_in d) as Hf. revert Hf. generalize (fresh d). intros f Hf.
  set (w := warning f).
  assert (Hp1 : parentNode b (insertBefore w b d) = Some (insertBefore w b p)).
  { by rewrite parentNode_insertBefore, Hp. }
  destruct (parent_shape b d p Hwf Hp) as (C & j & c & l & x & r & Ed & -> & Hs & HbC & Hbj & Hfr).
  destruct (Hfr f Hf) as (HfC & Hfj & Hfk).
  pose proof (wf_parentNode _ _ _ Hwf Hp) as Hnd.
  rewrite (insertBefore_container w b j c _ l x r Hnd Hs) in Hp1.
  unfold querySelector in Hq. apply head_nil_iff in Hq.
  rewrite descendants_Elem in Hq.
  assert (Hd1 : descendants (has_class CSS_CENSORED_WARNING_CLASS)
                  (Elem j c (l ++ w :: x :: r)) = [w]).
  { rewrite descendants_Elem. pose proof Hq as Hq'.
    rewrite concat_map_app in Hq' |- *. cbn [map concat] in Hq' |- *.
    apply app_eq_nil in Hq' as [Hl0 Hxr]. rewrite Hl0.
    change (collect (has_class CSS_CENSORED_WARNING_CLASS) w) with [w].
    cbn [app]. f_equal. exact Hxr. }
  split; [|split].
  - rewrite hasCensorshipWarning_flag, Hp1, Hd1. done.
  - unfold hideWarning. rewrite Hp1. unfold querySelector. rewrite Hd1.
    cbn [head w warning]. f_equal.
    rewrite Ed.
    rewrite insertBefore_plug; [|done|by cbn; rewrite bool_decide_eq_false_2].
    rewrite (insertBefore_container _ b j c _ l x r Hnd Hs).
    rewrite remove_plug; [|done|by cbn; rewrite bool_decide_eq_false_2].
    rewrite remove_Elem, rm_app.
    rewrite ids_of_app in Hfk. rewrite elem_of_app in Hfk.
    rewrite (rm_absent _ l) by tauto.
    rewrite rm_cons_drop by (cbn; by rewrite bool_decide_eq_true_2).
    rewrite (rm_absent _ (x :: r)) by tauto. done.
  - rewrite hasCensorshipWarning_flag, Hp, descendants_Elem, Hq. done.
Qed.

Lemma hideWarning_undoes_showWarning_witness :
  exists d1,
    showWarning 23 sample_document = Ok d1 /\
    hideWarning 23 d1 = Ok sample_document.
Proof.
  destruct (hideWarning_undoes_showWarning 23 sample_document _ wf_sample_document
              eq_refl eq_refl) as (d1 & H1 & _ & H2 & _).
  by exists d1.
Defined.

(** ** Decorations and the list of bubbles *)

Section Collected.
(** A test that looks at the classes of an element only. *)
Variable P : node -> bool.
Hypothesis P_classes : forall i c ks ks', P (Elem i c ks) = P (Elem i c ks').

Lemma collected_map (G : node -> node) ks :
  Forall (fun k => omap node_id (collect P (G k)) = omap node_id (collect P k)) ks ->
  omap node_id (concat (map (collect P) (map G ks)))
  = omap node_id (concat (map (collect P) ks)).
Proof.
  induction 1 as [|k r Hk _ IH]; [done|]. cbn [map concat].
  by rewrite !omap_app, Hk, IH.
Qed.

Lemma collected_insert_at w i ks :
  collect P w = [] ->
  concat (map (collect P) (insert_at w i ks)) = concat (map (collect P) ks).
Proof.
  intros Hw. unfold insert_at.
  destruct (split_at i ks) as [[[l x] r]|] eqn:E; [|done].
  apply split_at_spec in E as (-> & _ & _).
  rewrite !concat_map_app. cbn [map concat]. by rewrite Hw.
Qed.

Lemma collected_insertBefore w i n :
  collect P w = [] ->
  omap node_id (collect P (insertBefore w i n)) = omap node_id (collect P n).
Proof.
  intros Hw. induction n as [s|j c ks IH] using node_ind'; [done|].
  cbn [insertBefore collect]. rewrite !omap_app.
  rewrite (P_classes j c _ ks). f_equal; [by destruct (P _)|].
  rewrite collected_insert_at by done. by apply collected_map.
Qed.

Lemma collected_appendChild a w n :
  collect P w = [] ->
  omap node_id (collect P (appendChild a w n)) = omap node_id (collect P n).
Proof.
  intros Hw. induction n as [s|j c ks IH] using node_ind'; [done|].
  cbn [appendChild collect]. rewrite !omap_app.
  rewrite (P_classes j c _ ks). f_equal; [by destruct (P _)|].
  case_bool_decide; [|by apply collected_map].
  rewrite concat_map_app, omap_app.
  replace (concat (map (collect P) [w])) with (@nil node)
    by (cbn [map concat]; by rewrite Hw).
  change (omap node_id (@nil node)) with (@nil nat). rewrite app_nil_r.
  by apply collected_map.
Qed.

Lemma collected_map_sublist (G : node -> node) ks :
  Forall (fun k => omap node_id (collect P (G k)) `sublist_of` omap node_id (collect P k)) ks ->
  omap node_id (concat (map (collect P) (map G ks)))
  `sublist_of` omap node_id (concat (map (collect P) ks)).
Proof.
  induction 1 as [|k r Hk _ IH]; [done|]. cbn [map concat].
  rewrite !omap_app. by apply sublist_app.
Qed.

Lemma collected_set_kids i new n :
  concat (map (collect P) new) = [] ->
  omap node_id (collect P (set_kids i new n)) `sublist_of` omap node_id (collect P n).
Proof.
  intros Hnew. induction n as [s|j c ks IH] using node_ind'; [done|].
  cbn [set_kids]. case_bool_decide.
  - cbn [collect]. rewrite Hnew, (P_classes j c new ks), app_nil_r, omap_app.
    apply sublist_inserts_r. by destruct (P (Elem j c ks)).
  - cbn [collect]. rewrite (P_classes j c _ ks), !omap_app.
    apply sublist_app; [by destruct (P (Elem j c ks))|].
    by apply collected_map_sublist.
Qed.
End Collected.

Lemma bubble_test_classes i c ks ks' :
  forallb (fun x => has_class x (Elem i c ks)) chatBubbleSelector
  = forallb (fun x => has_class x (Elem i c ks')) chatBubbleSelector.
Proof. done. Qed.

Lemma bubbles_children d :
  bubbles d =
    omap node_id
      (concat (map (collect (fun m => forallb (fun c => has_class c m) chatBubbleSelector))
                   (children d))).
Proof. done. Qed.

Lemma bubbles_insertBefore w i d :
  collect (fun m => forallb (fun c => has_class c m) chatBubbleSelector) w = [] ->
  bubbles (insertBefore w i d) = bubbles d.
Proof.
  intros Hw. rewrite !bubbles_children. destruct d as [s|j c ks]; [done|].
  cbn [insertBefore children]. rewrite collected_insert_at by done.
  apply collected_map.
  apply Forall_forall. intros k _.
  by apply collected_insertBefore; [apply bubble_test_classes|].
Qed.

Lemma bubbles_appendChild a w d :
  collect (fun m => forallb (fun c => has_class c m) chatBubbleSelector) w = [] ->
  bubbles (appendChild a w d) = bubbles d.
Proof.
  intros Hw. rewrite !bubbles_children. destruct d as [s|j c ks]; [done|].
  cbn [appendChild children].
  assert (E : omap node_id (concat (map (collect (fun m => forallb (fun c => has_class c m) chatBubbleSelector))
                 (map (appendChild a w) ks)))
              = omap node_id (concat (map (collect (fun m => forallb (fun c => has_class c m) chatBubbleSelector)) ks))).
  { apply collected_map.
    apply Forall_forall. intros k _.
    by apply collected_appendChild; [apply bubble_test_classes|]. }
  case_bool_decide; [|done].
  rewrite concat_map_app, omap_app, E.
  replace (concat (map (collect (fun m => forallb (fun c => has_class c m) chatBubbleSelector)) [w]))
    with (@nil node) by (cbn [map concat]; by rewrite Hw).
  change (omap node_id (@nil node)) with (@nil nat). by rewrite app_nil_r.
Qed.

Lemma bubbles_set_kids i new d :
  concat (map (collect (fun m => forallb (fun c => has_class c m) chatBubbleSelector)) new) = [] ->
  bubbles (set_kids i new d) `sublist_of` bubbles d.
Proof.
  intros Hnew. rewrite !bubbles_children. destruct d as [s|j c ks]; [done|].
  cbn [set_kids]. case_bool_decide.
  - cbn [children]. rewrite Hnew. apply sublist_nil_l.
  - cbn [children]. apply collected_map_sublist.
    apply Forall_forall. intros k _.
    by apply collected_set_kids; [apply bubble_test_classes|].
Qed.

Lemma bubbles_set_innerText i text d :
  bubbles (set_innerText i text d) `sublist_of` bubbles d.
Proof. unfold set_innerText. apply bubbles_set_kids. by destruct text. Qed.

Lemma warning_no_bubble f :
  collect (fun m => forallb (fun c => has_class c m) chatBubbleSelector) (warning f) = [].
Proof. reflexivity. Qed.

Lemma button_no_bubble f :
  collect (fun m => forallb (fun c => has_class c m) chatBubbleSelector)
          (createExternalAiButton f) = [].
Proof. reflexivity. Qed.

Lemma bubbles_showWarning b d d1 : showWarning b d = Ok d1 -> bubbles d1 = bubbles d.
Proof.
  unfold showWarning. destruct (parentNode b d); [|done].
  destruct (querySelector _ _); intros [= <-]; [done|].
  apply bubbles_insertBefore, warning_no_bubble.
Qed.

Lemma appendExternalAiButton_cases b d d1 :
  appendExternalAiButton b d = Ok d1 ->
  exists t tc tks,
    nextSibling b d = Some (Elem t tc tks) /\
    (d1 = d /\
       (getElementsByClassName [ACTION_ICON_IDENTITY_CLASS] (Elem t tc tks) <> [] \/
        firstElementChild (Elem t tc tks) = None)
     \/ exists a ac ak,
          getElementsByClassName [ACTION_ICON_IDENTITY_CLASS] (Elem t tc tks) = [] /\
          firstElementChild (Elem t tc tks) = Some (Elem a ac ak) /\
          d1 = appendChild a (createExternalAiButton (fresh d)) d).
Proof.
  unfold appendExternalAiButton.
  destruct (nextSibling b d) as [[s|t tc tks]|] eqn:Hn; [done| |done].
  intros H. exists t, tc, tks. split; [done|].
  destruct (getElementsByClassName _ _) eqn:Hg.
  - destruct (firstElementChild _) as [[s|a ac ak]|] eqn:Hf.
    + exfalso. unfold firstElementChild in Hf.
      assert (Hin : Text s ∈ List.filter is_element (children (Elem t tc tks))).
      { by apply head_Some_elem_of. }
      apply list_elem_of_In, filter_In in Hin as [_ Hin]. done.
    + right. injection H as <-. by exists a, ac, ak.
    + left. injection H as <-. split; [done|by right].
  - left. injection H as <-. split; [done|by left].
Qed.

Lemma bubbles_appendExternalAiButton b d d1 :
  appendExternalAiButton b d = Ok d1 -> bubbles d1 = bubbles d.
Proof.
  intros (t & tc & tks & _ & [[-> _]|(a & ac & ak & _ & _ & ->)])%appendExternalAiButton_cases;
    [done|].
  apply bubbles_appendChild, button_no_bubble.
Qed.

(** X13: the banner and the retry control are put in without touching
    the list of chat bubbles: after [showWarning] and after
    [appendExternalAiButton] the document has the same bubbles at the
    same indices, so that the index a retry control posts still denotes
    its bubble. *)
Theorem decorations_keep_bubbles (b : nat) (d d1 : node) :
  showWarning b d = Ok d1 \/ appendExternalAiButton b d = Ok d1 ->
  bubbles d1 = bubbles d
  /\ forall b' i, ev_index <$> retry_click b' d = Some (Some i) ->
                  ev_index <$> retry_click b' d1 = Some (Some i).
Proof.
  intros H.
  assert (E : bubbles d1 = bubbles d).
  { destruct H; [by eapply bubbles_showWarning|by eapply bubbles_appendExternalAiButton]. }
  split; [done|]. intros b' i. unfold retry_click. rewrite E.
  by destruct (list_find _ (bubbles d)) as [[? ?]|].
Qed.

Lemma decorations_keep_bubbles_witness :
  exists d1, showWarning 23 sample_document = Ok d1 /\ bubbles d1 = [13; 23]%nat.
Proof.
  eexists. split; [reflexivity|].
  apply (decorations_keep_bubbles 23 sample_document _ (or_introl eq_refl)).
Defined.

(** ** The retry control *)

Lemma is_elem_fresh_button b d : b ∈ ids d -> b ∉ ids (createExternalAiButton (fresh d)).
Proof.
  intros Hb Hx%button_ids. apply max_id_ge in Hb. unfold fresh in Hx. lia.
Qed.

Lemma not_in_ids_is_elem b w : b ∉ ids w -> is_elem b w = false.
Proof.
  intros H. destruct (is_elem b w) eqn:E; [|done]. by apply is_elem_ids in E.
Qed.

Lemma has_child_snoc_absent b ks w :
  b ∉ ids w -> has_child b (ks ++ [w]) = has_child b ks.
Proof.
  intros H. rewrite has_child_app. cbn [has_child existsb].
  by rewrite (not_in_ids_is_elem b w H), !orb_false_r.
Qed.

(** Appending below [a] leaves the parent of [b] the parent of [b]. *)
Lemma parentNode_appendChild b a w n :
  b ∉ ids w ->
  parentNode b (appendChild a w n) = appendChild a w <$> parentNode b n.
Proof.
  intros Hw. induction n as [s|j c ks IH] using node_ind'; [done|].
  cbn [appendChild parentNode].
  assert (Hc : has_child b (if bool_decide (j = a)
                            then map (appendChild a w) ks ++ [w]
                            else map (appendChild a w) ks) = has_child b ks).
  { case_bool_decide; [rewrite has_child_snoc_absent by done|];
      by rewrite has_child_map by (intros; apply is_elem_appendChild). }
  rewrite Hc. destruct (has_child b ks) eqn:E; [done|].
  assert (Hm : first_some (map (parentNode b) (map (appendChild a w) ks))
               = appendChild a w <$> first_some (map (parentNode b) ks)).
  { rewrite map_map, <- first_some_fmap. by apply first_some_ext. }
  case_bool_decide; [|done].
  rewrite map_app, first_some_app, Hm.
  destruct (first_some (map (parentNode b) ks)); [done|].
  cbn. by rewrite parentNode_absent.
Qed.

Lemma split_at_map b (G : node -> node) ks l x r :
  (forall k, is_elem b (G k) = is_elem b k) ->
  split_at b ks = Some (l, x, r) ->
  split_at b (map G ks) = Some (map G l, G x, map G r).
Proof.
  intros HG. revert l. induction ks as [|k ks IH]; intros l; [done|].
  cbn [split_at map]. rewrite HG. destruct (is_elem b k).
  - by intros [= <- <- <-].
  - destruct (split_at b ks) as [[[l' x'] r']|]; [|done]. cbn.
    intros [= <- <- <-]. by rewrite (IH l' eq_refl).
Qed.

Lemma split_at_snoc b ks t l x r :
  split_at b ks = Some (l, x, r) -> split_at b (ks ++ t) = Some (l, x, r ++ t).
Proof.
  intros (-> & Hx & Hl)%split_at_spec. rewrite <- app_assoc. cbn [app].
  by apply split_at_app.
Qed.

Lemma nextSibling_appendChild b a w d t :
  b ∉ ids w -> nextSibling b d = Some t ->
  nextSibling b (appendChild a w d) = Some (appendChild a w t).
Proof.
  intros Hw. unfold nextSibling, siblings.
  rewrite parentNode_appendChild by done.
  destruct (parentNode b d) as [p|]; [|done]. cbn.
  destruct (split_at b (children p)) as [[[l x] r]|] eqn:Es; [|done]. cbn.
  destruct r as [|t' r]; [done|]. intros [= ->].
  destruct p as [s|j c ks]; [done|]. cbn [appendChild children] in *.
  pose proof (split_at_map b (appendChild a w) ks l x (t :: r)
                (fun k => is_elem_appendChild b a w k) Es) as Em.
  case_bool_decide.
  - by rewrite (split_at_snoc _ _ [w] _ _ _ Em).
  - by rewrite Em.
Qed.

Lemma is_element_appendChild a w n : is_element (appendChild a w n) = is_element n.
Proof. by destruct n. Qed.

Lemma collect_length P n :
  length (omap node_id (collect P n)) = length (collect P n).
Proof.
  assert (H : forall l : list node, Forall (fun m => is_element m = true) l ->
                length (omap node_id l) = length l).
  { induction 1 as [|m l Hm _ IH]; [done|]. destruct m; [done|]. cbn. by rewrite IH. }
  apply H, Forall_forall. intros m Hm. by apply collect_is_element in Hm as [? _].
Qed.

Lemma concat_collect_length P ks :
  length (omap node_id (concat (map (collect P) ks))) = length (concat (map (collect P) ks)).
Proof.
  induction ks as [|k ks IH]; [done|]. cbn [map concat].
  by rewrite omap_app, !length_app, collect_length, IH.
Qed.

Lemma button_test_classes i c ks ks' :
  forallb (fun x => has_class x (Elem i c ks)) [ACTION_ICON_IDENTITY_CLASS]
  = forallb (fun x => has_class x (Elem i c ks')) [ACTION_ICON_IDENTITY_CLASS].
Proof. done. Qed.

(** Appending never takes a control away. *)
Lemma collect_appendChild_grows P a w n :
  (forall i c ks ks', P (Elem i c ks) = P (Elem i c ks')) ->
  (length (collect P n) <= length (collect P (appendChild a w n)))%nat.
Proof.
  intros HP. induction n as [s|j c ks IH] using node_ind'; [done|].
  cbn [appendChild collect].
  set (ks' := if bool_decide (j = a) then _ else _).
  rewrite !length_app, (HP j c ks' ks).
  assert (H : (length (concat (map (collect P) ks))
               <= length (concat (map (collect P) (map (appendChild a w) ks))))%nat).
  { clear -IH. induction IH as [|k r Hk _ IHr]; [done|]. cbn [map concat].
    rewrite !length_app. lia. }
  assert (H' : (length (concat (map (collect P) ks))
                <= length (concat (map (collect P) ks')))%nat).
  { unfold ks'. case_bool_decide; [|done]. rewrite concat_map_app, length_app. lia. }
  destruct (P (Elem j c ks)); cbn [length]; lia.
Qed.

Lemma buttons_appendChild a w t : (buttons t <= buttons (appendChild a w t))%nat.
Proof.
  unfold buttons, getElementsByClassName, descendants.
  destruct t as [s|j c ks]; [done|]. cbn [appendChild children].
  assert (H : (length (concat (map (collect (fun m => forallb (fun c => has_class c m) [ACTION_ICON_IDENTITY_CLASS])) ks))
               <= length (concat (map (collect (fun m => forallb (fun c => has_class c m) [ACTION_ICON_IDENTITY_CLASS]))
                                      (map (appendChild a w) ks))))%nat).
  { induction ks as [|k r IHr]; [done|]. cbn [map concat]. rewrite !length_app.
    pose proof (collect_appendChild_grows
                  (fun m => forallb (fun c => has_class c m) [ACTION_ICON_IDENTITY_CLASS])
                  a w k button_test_classes). lia. }
  case_bool_decide; [|done]. rewrite concat_map_app, length_app. lia.
Qed.

(** The control is found below the node it was appended to. *)
Lemma collect_appendChild_root a w ac ak P :
  P w = true -> is_element w = true ->
  collect P (appendChild a w (Elem a ac ak)) <> [].
Proof.
  intros HP Hw. cbn [appendChild collect]. rewrite bool_decide_true by done.
  rewrite concat_map_app. cbn [map concat].
  destruct w as [s|j c ks]; [done|]. cbn [collect]. rewrite HP.
  intros E. apply app_eq_nil in E as [_ E]. apply app_eq_nil in E as [_ E].
  done.
Qed.

Lemma firstElementChild_child t k : firstElementChild t = Some k -> k ∈ children t.
Proof.
  unfold firstElementChild. intros H%head_Some_elem_of.
  by apply list_elem_of_In, filter_In in H as [H%list_elem_of_In _].
Qed.

Lemma buttons_after_append a ac ak w t :
  firstElementChild t = Some (Elem a ac ak) ->
  forallb (fun c => has_class c w) [ACTION_ICON_IDENTITY_CLASS] = true ->
  is_element w = true ->
  (0 < buttons (appendChild a w t))%nat.
Proof.
  intros Hf HP Hw. apply firstElementChild_child in Hf.
  destruct t as [s|j c ks]; [by apply elem_of_nil in Hf|]. cbn [children] in Hf.
  unfold buttons, getElementsByClassName.
  assert (Hne : descendants (fun m => forallb (fun c => has_class c m) [ACTION_ICON_IDENTITY_CLASS])
                  (appendChild a w (Elem j c ks)) <> []).
  { set (k' := appendChild a w (Elem a ac ak)).
    apply (descendants_child _ _ k').
    - assert (Hk : k' ∈ map (appendChild a w) ks)
        by (apply list_elem_of_fmap; by eexists).
      clearbody k'. cbn [appendChild children].
      case_bool_decide; [apply elem_of_app; by left|done].
    - by apply collect_appendChild_root. }
  destruct (descendants _ _); [done|]. cbn. lia.
Qed.

Lemma firstElementChild_None_appendChild a w t :
  is_element w = true ->
  forallb (fun c => has_class c w) [ACTION_ICON_IDENTITY_CLASS] = true ->
  firstElementChild t = None ->
  (0 < buttons (appendChild a w t) \/ firstElementChild (appendChild a w t) = None)%nat.
Proof.
  intros Hw HP Hf. destruct t as [s|j c ks]; [by right|].
  unfold firstElementChild in *. cbn [appendChild children] in *.
  assert (Hks : List.filter is_element (map (appendChild a w) ks) = []).
  { apply head_nil_iff in Hf. clear -Hf.
    induction ks as [|k ks IH]; [done|]. cbn [map List.filter] in *.
    rewrite is_element_appendChild. destruct (is_element k); [done|]. by apply IH. }
  case_bool_decide; [left|right; by rewrite Hks].
  unfold buttons, getElementsByClassName, descendants. cbn [children].
  rewrite concat_map_app, length_app. cbn [map concat].
  destruct w as [s|i ci ki]; [done|]. cbn [collect]. rewrite HP. cbn. lia.
Qed.

Lemma nextSibling_in b d t : nextSibling b d = Some t -> b ∈ ids d.
Proof.
  unfold nextSibling, siblings. destruct (parentNode b d) eqn:E; [|done].
  intros _. by eapply parentNode_in.
Qed.

Lemma button_is_control f :
  forallb (fun c => has_class c (createExternalAiButton f)) [ACTION_ICON_IDENTITY_CLASS] = true
  /\ is_element (createExternalAiButton f) = true.
Proof. done. Qed.

Lemma served_appendExternalAiButton b d d1 :
  appendExternalAiButton b d = Ok d1 -> served b d1.
Proof.
  intros (t & tc & tks & Hn & [[-> H]|(a & ac & ak & Hg & Hf & ->)])%appendExternalAiButton_cases.
  - exists (Elem t tc tks). split; [done|]. split; [done|].
    destruct H as [H|H]; [left|by right].
    unfold buttons. destruct (getElementsByClassName _ _); [done|]. cbn. lia.
  - destruct (button_is_control (fresh d)) as [HP Hw].
    eexists. split; [|split].
    + apply nextSibling_appendChild; [|done].
      apply is_elem_fresh_button. by eapply nextSibling_in.
    + done.
    + left. by eapply buttons_after_append.
Qed.

Lemma served_kept b b' d d1 :
  served b d -> appendExternalAiButton b' d = Ok d1 -> served b d1.
Proof.
  intros (t & Hn & Ht & H)
    (t' & tc & tks & _ & [[-> _]|(a & ac & ak & _ & _ & ->)])%appendExternalAiButton_cases.
  - by exists t.
  - destruct (button_is_control (fresh d)) as [HP Hw].
    exists (appendChild a (createExternalAiButton (fresh d)) t). split; [|split].
    + apply nextSibling_appendChild; [|done].
      apply is_elem_fresh_button. by eapply nextSibling_in.
    + by rewrite is_element_appendChild.
    + destruct H as [H|H].
      * left. pose proof (buttons_appendChild a (createExternalAiButton (fresh d)) t). lia.
      * by apply firstElementChild_None_appendChild.
Qed.

Lemma served_again b d : served b d -> appendExternalAiButton b d = Ok d.
Proof.
  intros (t & Hn & Ht & H). unfold appendExternalAiButton. rewrite Hn.
  destruct t as [s|t tc tks]; [done|].
  unfold buttons in H.
  destruct (getElementsByClassName _ _) eqn:Hg; [|done].
  destruct H as [H|H]; [cbn in H; lia|]. by rewrite H.
Qed.

(** X14: [appendExternalAiButton] is idempotent: once it has returned,
    the element is followed by an element that holds a retry control (or
    has no element child that could take one), and a second call changes
    nothing. *)
Theorem appendExternalAiButton_twice (b : nat) (d d1 : node) :
  appendExternalAiButton b d = Ok d1 ->
  served b d1 /\ appendExternalAiButton b d1 = Ok d1.
Proof.
  intros H. pose proof (served_appendExternalAiButton _ _ _ H) as Hs.
  split; [done|]. by apply served_again.
Qed.

Lemma appendExternalAiButton_twice_witness :
  exists d1,
    appendExternalAiButton 23 sample_document = Ok d1 /\
    d1 <> sample_document /\
    appendExternalAiButton 23 d1 = Ok d1.
Proof.
  eexists. split; [reflexivity|]. split; [discriminate|].
  apply (appendExternalAiButton_twice 23 sample_document _ eq_refl).
Defined.

Lemma increaseControlsUi_cons b bs pg r pg' :
  increaseControlsUi (b :: bs) pg = (r, pg') ->
  (exists e, appendExternalAiButton b (document pg) = Throw e /\ r = Throw e /\ pg' = pg)
  \/ exists d1, appendExternalAiButton b (document pg) = Ok d1 /\
                increaseControlsUi bs (Page d1 (store pg)) = (r, pg').
Proof.
  cbn [increaseControlsUi]. unfold mbind, script_bind, on_document.
  destruct (appendExternalAiButton b (document pg)) as [d1|e].
  - intros H. right. by exists d1.
  - intros [= <- <-]. left. by exists e.
Qed.

Lemma increaseControlsUi_Ok bs pg pg' :
  increaseControlsUi bs pg = (Ok (), pg') ->
  store pg' = store pg /\
  bubbles (document pg') = bubbles (document pg) /\
  (forall b, served b (document pg) -> served b (document pg')) /\
  (forall b, b ∈ bs -> served b (document pg')).
Proof.
  revert pg. induction bs as [|b bs IH]; intros pg.
  - intros [= <-]. split; [done|]. split; [done|]. split; [done|].
    by intros b ?%elem_of_nil.
  - intros [(e & _ & ? & _)|(d1 & Hb & Hrest)]%increaseControlsUi_cons; [done|].
    destruct (IH _ Hrest) as (Hst & Hbub & Hkeep & Hall). cbn in *.
    split; [done|]. split; [|split].
    + rewrite Hbub. by eapply bubbles_appendExternalAiButton.
    + intros b' Hb'. apply Hkeep. by eapply served_kept.
    + intros b' [->|Hin]%elem_of_cons; [|by apply Hall].
      apply Hkeep. by eapply served_appendExternalAiButton.
Qed.

Lemma increaseControlsUi_served bs pg :
  (forall b, b ∈ bs -> served b (document pg)) ->
  increaseControlsUi bs pg = (Ok (), pg).
Proof.
  induction bs as [|b bs IH]; intros H; [done|].
  cbn [increaseControlsUi]. unfold mbind, script_bind, on_document.
  rewrite served_again by (apply H; left).
  destruct pg as [d st]. cbn. apply IH. intros b' Hb'. apply H. by right.
Qed.

(** X15: when [increaseControlsUi] returns, every bubble of the list is
    followed by an element that holds a retry control (or has no element
    child that could take one); the list of bubbles and the store are as
    before, and a second run changes nothing. *)
Theorem increaseControlsUi_serves_all (bs : list nat) (pg pg' : page) :
  increaseControlsUi bs pg = (Ok (), pg') ->
  (forall b, b ∈ bs -> served b (document pg'))
  /\ bubbles (document pg') = bubbles (document pg)
  /\ store pg' = store pg
  /\ increaseControlsUi bs pg' = (Ok (), pg').
Proof.
  intros (Hst & Hbub & _ & Hall)%increaseControlsUi_Ok.
  split; [done|]. split; [done|]. split; [done|].
  by apply increaseControlsUi_served.
Qed.

Lemma increaseControlsUi_serves_all_witness :
  exists pg',
    increaseControlsUi [13; 23]%nat (Page sample_document sample_store) = (Ok (), pg') /\
    served 13 (document pg') /\ served 23 (document pg').
Proof.
  eexists. split; [reflexivity|].
  destruct (increaseControlsUi_serves_all [13; 23]%nat (Page sample_document sample_store)
              _ eq_refl) as (H & _).
  split; apply H; [left|right; left].
Defined.

(** ** Restoring a saved conversation *)

Lemma tame_ret {A} (a : A) : tame (mret a).
Proof. intros pg r pg' [= <- <-]. by split; [|split]. Qed.

Lemma tame_bind {A B} (m : script A) (f : A -> script B) :
  tame m -> (forall a, tame (f a)) -> tame (m ≫= f).
Proof.
  intros Hm Hf pg r pg'. unfold mbind, script_bind.
  destruct (m pg) as [[a|e] pg1] eqn:E.
  - intros H. destruct (Hm _ _ _ E) as (Hs1 & Hb1 & _).
    destruct (Hf a _ _ _ H) as (Hs2 & Hb2 & He).
    split; [congruence|]. split; [by etrans|done].
  - intros [= <- <-]. destruct (Hm _ _ _ E) as (Hs1 & Hb1 & He).
    split; [done|]. split; [done|]. intros e' [= <-]. by apply He.
Qed.

Lemma tame_bubble_at index property : tame (bubble_at index property).
Proof.
  intros pg r pg'. unfold bubble_at.
  destruct (bubbles (document pg) !! index); intros [= <- <-];
    (split; [done|]); (split; [done|]); [done|].
  intros e [= <-]. by eexists.
Qed.

Lemma tame_read {A} (f : node -> A) : tame (read f).
Proof. intros pg r pg' [= <- <-]. by split; [|split]. Qed.

Lemma tame_on_document (f : node -> result node) :
  (forall d d', f d = Ok d' -> bubbles d' `sublist_of` bubbles d) ->
  (forall d e, f d = Throw e -> exists reading, e = TypeError reading) ->
  tame (on_document f).
Proof.
  intros Hok Herr pg r pg'. unfold on_document.
  destruct (f (document pg)) as [d'|e] eqn:E; intros [= <- <-].
  - split; [done|]. split; [by apply Hok|done].
  - split; [done|]. split; [done|]. intros e' [= <-]. by eapply Herr.
Qed.

Lemma showWarning_TypeError b d e :
  showWarning b d = Throw e -> exists reading, e = TypeError reading.
Proof.
  unfold showWarning. destruct (parentNode b d); [by destruct (querySelector _ _)|].
  intros [= <-]. by eexists.
Qed.

Lemma tame_set_innerText b text :
  tame (on_document (fun d => Ok (set_innerText b text d))).
Proof.
  apply tame_on_document; [|done].
  intros d d' [= <-]. apply bubbles_set_innerText.
Qed.

Lemma tame_restore_turn index u a : tame (restore_turn index u a).
Proof.
  unfold restore_turn.
  apply tame_bind; [apply tame_bubble_at|intros b].
  apply tame_bind; [apply tame_set_innerText|intros _].
  apply tame_bind.
  { case_bool_decide; [|apply tame_ret].
    apply tame_bind; [apply tame_bubble_at|intros b'].
    apply tame_on_document; [|apply showWarning_TypeError].
    intros d d' ->%bubbles_showWarning. done. }
  intros _. apply tame_bind; [apply tame_bubble_at|intros b'].
  apply tame_bind; [apply tame_read|intros [x|]];
    [apply tame_set_innerText|apply tame_ret].
Qed.

Lemma list_pair_ind {A} (Q : list A -> Prop) :
  Q [] -> (forall x, Q [x]) -> (forall x y l, Q l -> Q (x :: y :: l)) ->
  forall l, Q l.
Proof.
  intros H0 H1 H2 l.
  assert (H : Q l /\ forall x, Q (x :: l)).
  { induction l as [|y l [IH1 IH2]]; [by split|]. split; [apply IH2|].
    intros x. by apply H2. }
  apply H.
Qed.

Lemma tame_restore_from index messages : tame (restore_from index messages).
Proof.
  revert index. induction messages as [|x|u a rest IH] using list_pair_ind;
    intros index; [apply tame_ret..|].
  cbn [restore_from]. apply tame_bind; [|intros _; apply IH].
  destruct (_ && _); [apply tame_restore_turn|apply tame_ret].
Qed.

Lemma restore_turn_no_bubble index u a pg :
  bubbles (document pg) !! index = None ->
  restore_turn index u a pg = (Throw (TypeError "innerText"), pg).
Proof.
  intros H. unfold restore_turn, mbind, script_bind, bubble_at. by rewrite H.
Qed.

Lemma restore_from_beyond n : forall index messages pg,
  map msg_role messages = concat (replicate n [User; Assistant]) ->
  (0 < n)%nat ->
  (length (bubbles (document pg)) < index + n)%nat ->
  exists reading pg',
    restore_from index messages pg = (Throw (TypeError reading), pg').
Proof.
  induction n as [|n IH]; intros index messages pg Hroles Hn Hlen; [lia|].
  destruct messages as [|u [|a rest]]; [done..|].
  cbn [replicate concat app map] in Hroles. injection Hroles as Hu Ha Hrest.
  cbn [restore_from]. rewrite Hu, Ha, !bool_decide_true by done. cbn [andb].
  unfold mbind, script_bind.
  destruct (restore_turn index u a pg) as [[[]|e] pg1] eqn:E.
  - destruct (tame_restore_turn _ _ _ _ _ _ E) as (_ & Hsub%sublist_length & _).
    destruct (bubbles (document pg) !! index) as [b|] eqn:Eb.
    + apply lookup_lt_Some in Eb. apply IH; [done|lia..].
    + rewrite restore_turn_no_bubble in E by done. done.
  - destruct (tame_restore_turn _ _ _ _ _ _ E) as (_ & _ & He).
    destruct (He e eq_refl) as [reading ->]. by eexists _, _.
Qed.

(** X16: restoring more turns than bubbles are rendered throws: for a
    saved history of [n] pairs of a user and an assistant message and a
    document with fewer than [n] chat bubbles, [restoreCensoredMessages]
    ends in a [TypeError] (the bubble at the index of the turn is
    undefined), whatever it has restored before; the store is not
    touched. *)
Theorem restore_beyond_bubbles (messages : list message) (n : nat) (pg : page) :
  map msg_role messages = concat (replicate n [User; Assistant]) ->
  (length (bubbles (document pg)) < n)%nat ->
  exists reading pg',
    restoreCensoredMessages messages pg = (Throw (TypeError reading), pg') /\
    store pg' = store pg.
Proof.
  intros Hroles Hlen.
  destruct (restore_from_beyond n 0 messages pg Hroles) as (reading & pg' & E); [lia..|].
  exists reading, pg'. split; [done|].
  by destruct (tame_restore_from _ _ _ _ _ E) as (? & _).
Qed.

Lemma restore_beyond_bubbles_witness :
  let messages :=
    [Message User (str "a") None; Message Assistant (str "b") (Some true);
     Message User (str "c") None; Message Assistant (str "d") (Some false);
     Message User (str "e") None; Message Assistant (str "f") (Some false)] in
  exists reading pg',
    restoreCensoredMessages messages (Page sample_document sample_store)
    = (Throw (TypeError reading), pg').
Proof.
  intros messages.
  destruct (restore_beyond_bubbles messages 3 (Page sample_document sample_store))
    as (reading & pg' & H & _); [reflexivity|vm_compute; lia|].
  by exists reading, pg'.
Defined.

(** ** The observer callback *)

Lemma increaseControlsUi_store bs pg r pg' :
  increaseControlsUi bs pg = (r, pg') -> store pg' = store pg.
Proof.
  revert pg. induction bs as [|b bs IH]; intros pg; [by intros [= _ <-]|].
  intros [(e & _ & _ & ->)|(d1 & _ & Hrest)]%increaseControlsUi_cons; [done|].
  by apply IH in Hrest.
Qed.

Lemma restore_step_store messages pg r pg' :
  match messages with
  | [] => mret ()
  | _ :: _ => restoreCensoredMessages messages
  end pg = (r, pg') ->
  store pg' = store pg.
Proof.
  destruct messages; [by intros [= _ <-]|].
  intros H. by destruct (tame_restore_from _ _ _ _ _ H) as (? & _).
Qed.

(** X17: the observer callback never writes the store, and it stops
    observing only after it has found a conversation id in the location,
    read the saved histories, found at least one chat bubble and seen
    every bubble followed by an element that holds a retry control (or
    has no element child to take one).  It goes on observing, without an
    exception, only when the location has no conversation id, in which
    case nothing is changed, or when no bubble is rendered. *)
Theorem on_mutation_outcomes (pg pg' : page) (r : result bool) :
  on_mutation pg = (r, pg') ->
  store pg' = store pg
  /\ (r = Ok true ->
      getChatIdFromUrl (pathname (store pg)) <> None /\
      localStorage (store pg) <> Some NotJson /\
      bubbles (document pg') <> [] /\
      forall b, b ∈ bubbles (document pg') -> served b (document pg'))
  /\ (r = Ok false ->
      (getChatIdFromUrl (pathname (store pg)) = None /\ pg' = pg) \/
      bubbles (document pg') = []).
Proof.
  unfold on_mutation.
  destruct (getChatIdFromUrl (pathname (store pg))) as [[|a c]|] eqn:Ec.
  - by apply getChatIdFromUrl_shape in Ec as [? _].
  - unfold mbind, script_bind.
    destruct (restoreHistory (Some (a :: c)) (store pg)) as [messages|e] eqn:Er.
    2:{ intros [= <- <-]. by split; [|split]. }
    assert (Hjson : localStorage (store pg) <> Some NotJson).
    { intros E. cbn in Er. by rewrite E in Er. }
    destruct (match messages with
              | [] => @mret script _ unit ()
              | _ :: _ => restoreCensoredMessages messages
              end pg) as [[[]|e] pg1] eqn:E1.
    2:{ intros [= <- <-]. split; [by eapply restore_step_store|]. by split. }
    apply restore_step_store in E1. unfold read.
    destruct (bubbles (document pg1)) as [|b bs] eqn:Eb.
    { intros [= <- <-]. rewrite Eb. split; [done|]. split; [done|]. by right. }
    destruct (increaseControlsUi (b :: bs) pg1) as [[[]|e] pg2] eqn:E2.
    2:{ intros [= <- <-]. apply increaseControlsUi_store in E2.
        split; [congruence|]. by split. }
    intros [= <- <-].
    destruct (increaseControlsUi_Ok _ _ _ E2) as (Hst & Hbub & _ & Hall).
    split; [congruence|]. split; [|done]. intros _.
    split; [done|]. split; [done|]. rewrite Hbub, Eb. by split.
  - intros [= <- <-]. split; [done|]. split; [done|]. intros _. by left.
Qed.

Lemma on_mutation_outcomes_witness :
  exists pg',
    on_mutation (Page sample_document sample_store) = (Ok true, pg') /\
    served 13 (document pg') /\ served 23 (document pg').
Proof.
  eexists. split; [reflexivity|].
  destruct (on_mutation_outcomes (Page sample_document sample_store) _ _ eq_refl)
    as (_ & H & _).
  destruct (H eq_refl) as (_ & _ & _ & Hs).
  split; apply Hs; apply (bool_decide_unpack _); by vm_compute.
Defined.

(** X18: a page that shows fewer chat bubbles than the history saved for
    its conversation has turns makes the observer callback end in a
    [TypeError], before it comes to the retry controls and without
    disconnecting the observer; the store is left as it is. *)
Theorem on_mutation_history_longer_than_page
    (pg : page) (c : jsstring) (chats : gmap jsstring (list message))
    (messages : list message) (n : nat) :
  getChatIdFromUrl (pathname (store pg)) = Some c ->
  localStorage (store pg) = Some (Chats chats) ->
  chats !! c = Some messages ->
  map msg_role messages = concat (replicate n [User; Assistant]) ->
  (length (bubbles (document pg)) < n)%nat ->
  exists reading pg',
    on_mutation pg = (Throw (TypeError reading), pg') /\
    restoreCensoredMessages messages pg = (Throw (TypeError reading), pg') /\
    store pg' = store pg.
Proof.
  intros Hc Hs Hm Hroles Hlen.
  destruct (restore_from_beyond n 0 messages pg Hroles) as (reading & pg' & E); [lia..|].
  exists reading, pg'. split; [|split; [done|]].
  - unfold on_mutation. rewrite Hc.
    destruct (getChatIdFromUrl_shape _ _ Hc) as [Hne _].
    destruct c as [|a c]; [done|].
    unfold mbind, script_bind.
    rewrite (restoreHistory_lookup (a :: c) (store pg) chats Hne Hs), Hm. cbn [default].
    destruct messages as [|m ms]; [destruct n; [lia|done]|].
    unfold restoreCensoredMessages. cbv beta iota delta [id]. by rewrite E.
  - by destruct (tame_restore_from _ _ _ _ _ E) as (? & _).
Qed.

Lemma on_mutation_history_longer_than_page_witness :
  let messages :=
    [Message User (str "a") None; Message Assistant (str "b") (Some true);
     Message User (str "c") None; Message Assistant (str "d") (Some false);
     Message User (str "e") None; Message Assistant (str "f") (Some false)] in
  let st := Storage (str "/a/chat/s/abc-123")
                    (Some (Chats {[ str "abc-123" := messages ]})) in
  exists reading pg',
    on_mutation (Page sample_document st) = (Throw (TypeError reading), pg').
Proof.
  intros messages st.
  destruct (on_mutation_history_longer_than_page (Page sample_document st)
              (str "abc-123") {[ str "abc-123" := messages ]} messages 3)
    as (reading & pg' & H & _).
  - reflexivity.
  - reflexivity.
  - apply lookup_singleton_eq.
  - reflexivity.
  - vm_compute. lia.
  - by exists reading, pg'.
Defined.

(** ** The branch taken for a response with a replacement *)

Lemma has_class_classes c i cs ks ks' :
  has_class c (Elem i cs ks) = has_class c (Elem i cs ks').
Proof. done. Qed.

Lemma ids_plug_row C pid pc l b bc bk t r x :
  x ∈ ids (row pid pc l b bc bk t r) -> x ∈ ids (plug C (row pid pc l b bc bk t r)).
Proof. intros H. rewrite ids_plug. apply elem_of_app. by right. Qed.

(** The document side of the branch: the banner, the retry control and
    the new text, in a row whose bubble holds no banner itself. *)
Lemma replaced_document b d p t replacement :
  wf d -> parentNode b d = Some p ->
  nextSibling b d = Some t -> is_element t = true ->
  replacement <> [] ->
  (forall bn, find b d = Some bn ->
              descendants (has_class CSS_CENSORED_WARNING_CLASS) bn = []) ->
  exists d1 d2 p3 t3,
    showWarning b d = Ok d1 /\
    appendExternalAiButton b d1 = Ok d2 /\
    innerText b (set_innerText b replacement d2) = replacement /\
    parentNode b (set_innerText b replacement d2) = Some p3 /\
    descendants (has_class CSS_CENSORED_WARNING_CLASS) p3 <> [] /\
    nextSibling b (set_innerText b replacement d2) = Some t3 /\
    is_element t3 = true /\
    (0 < buttons t3 \/ firstElementChild t3 = None)%nat /\
    (querySelector CSS_CENSORED_WARNING_CLASS p = None ->
     previousSibling b (set_innerText b replacement d2) = Some (warning (fresh d))).
Proof.
  intros Hwf Hp Hn Ht Hrep Hbn.
  destruct (row_shape _ _ _ _ Hwf Hp Hn)
    as (C & pid & pc & l & bc & bk & r & Ed & -> & Hnd & Hout).
  pose proof Hnd as Hnd0. rewrite ids_row in Hnd.
  apply five_disjoint in Hnd
    as ((Hpb & Hpl & Hpk & Hpt & Hpr) & (Hbl & Hbk & Hbt & Hbr) & HL & HT & HR).
  assert (Hrow : forall x, x ∈ ids (row pid pc l b bc bk t r) -> x ∈ ids d).
  { intros x Hx. rewrite Ed. by apply ids_plug_row. }
  assert (Hbrow : b ∈ ids (row pid pc l b bc bk t r)).
  { rewrite ids_row. rewrite !elem_of_cons, !elem_of_app, elem_of_cons. tauto. }
  assert (HbC : b ∉ ctx_ids C) by by apply Hout.
  assert (Hkids : concat (map (collect (has_class W)) bk) = []).
  { apply (Hbn (Elem b bc bk)). rewrite Ed. by apply row_find. }
  pose proof (fresh_not_in d) as Hf. revert Hf.
  assert (Hfd : exists f, f = fresh d) by by eexists.
  destruct Hfd as [f Ef]. rewrite <- Ef. intros Hf.
  assert (HfC : f ∉ ctx_ids C).
  { intros H. apply Hf. rewrite Ed, ids_plug. apply elem_of_app. by left. }
  assert (Hfrow : f ∉ ids (row pid pc l b bc bk t r)) by (intros H; by apply Hf, Hrow).
  (* the banner *)
  assert (HstepA : exists l1,
    showWarning b d = Ok (plug C (row pid pc l1 b bc bk t r)) /\
    (forall y, y ∈ ids_of l1 -> y ∈ ids_of l \/ y = f) /\
    (1 <= length (concat (map (collect (has_class W)) l1))
          + length (collect (has_class W) (Elem b bc bk))
          + length (collect (has_class W) t)
          + length (concat (map (collect (has_class W)) r)))%nat /\
    (querySelector W (row pid pc l b bc bk t r) = None -> l1 = l ++ [warning f])).
  { unfold showWarning. rewrite Hp.
    destruct (querySelector W (row pid pc l b bc bk t r)) as [m|] eqn:Hq.
    - exists l. split; [by rewrite Ed|]. split; [by left|]. split; [|done].
      unfold querySelector in Hq.
      destruct (descendants (has_class W) (row pid pc l b bc bk t r)) eqn:E; [done|].
      unfold row in E. rewrite descendants_Elem, concat_map_app in E.
      cbn [map concat] in E.
      apply (f_equal length) in E. rewrite !length_app in E. cbn [length] in E. lia.
    - exists (l ++ [warning f]). split; [|split; [|split; [|done]]].
      + f_equal. rewrite <- Ef. rewrite Ed.
        rewrite insertBefore_plug; [|done|by simpl; apply bool_decide_eq_false].
        f_equal. unfold row.
        rewrite (insertBefore_container _ b pid pc _ l (Elem b bc bk) (t :: r) Hnd0).
        * by rewrite <- app_assoc.
        * apply split_at_app; [by apply has_child_absent|].
          simpl. by rewrite bool_decide_true.
      + intros y. rewrite ids_of_app, elem_of_app. intros [H|H]; [by left|right].
        unfold ids_of in H. cbn in H. by apply list_elem_of_singleton in H.
      + rewrite concat_map_app, length_app.
        change (concat (map (collect (has_class W)) [warning f])) with [warning f].
        cbn [length]. lia. }
  destruct HstepA as (l1 & Hshow & Hl1 & Hone & Hnone).
  assert (Hbf : b <> f) by (intros ->; by apply Hfrow).
  assert (Hbl1 : b ∉ ids_of l1).
  { intros [H|H]%Hl1; [by apply Hbl|done]. }
  set (d1 := plug C (row pid pc l1 b bc bk t r)) in *.
  assert (Hbd1 : b ∈ ids d1).
  { unfold d1. apply ids_plug_row. rewrite ids_row.
    rewrite !elem_of_cons, !elem_of_app, elem_of_cons. tauto. }
  (* the retry control *)
  assert (HstepB : exists t2,
    appendExternalAiButton b d1 = Ok (plug C (row pid pc l1 b bc bk t2 r)) /\
    is_element t2 = true /\ (b ∉ ids t2) /\
    (0 < buttons t2 \/ firstElementChild t2 = None)%nat /\
    (length (collect (has_class W) t) <= length (collect (has_class W) t2))%nat).
  { unfold appendExternalAiButton, nextSibling.
    unfold d1 at 1. rewrite row_siblings by done. simpl.
    destruct t as [s|tid tc tk]; [done|].
    destruct (getElementsByClassName _ _) eqn:Hg.
    2:{ exists (Elem tid tc tk). split; [done|]. split; [done|]. split; [done|].
        split; [|done]. left. unfold buttons. rewrite Hg. cbn. lia. }
    destruct (firstElementChild (Elem tid tc tk)) as [[s|a ac ak]|] eqn:Hfc.
    - exfalso. unfold firstElementChild in Hfc. apply head_Some_elem_of in Hfc.
      apply list_elem_of_In, filter_In in Hfc as [_ Hfc]. done.
    - pose proof (firstElementChild_ids _ _ _ _ Hfc) as Ha.
      pose proof (HT a Ha) as (Hap & Hab & Hal & Hak & Har).
      assert (Haf : a <> f).
      { intros ->. apply Hfrow. rewrite ids_row.
        rewrite !elem_of_cons, !elem_of_app, elem_of_cons. tauto. }
      destruct (button_is_control (fresh d1)) as [HP Hw].
      exists (appendChild a (createExternalAiButton (fresh d1)) (Elem tid tc tk)).
      split; [|split; [|split; [|split]]].
      + f_equal. apply row_appendChild; try done.
        * apply Hout. rewrite ids_row.
          rewrite !elem_of_cons, !elem_of_app, elem_of_cons. tauto.
        * intros [H|H]%Hl1; [by apply Hal|done].
      + done.
      + intros [H|H]%ids_appendChild; [done|].
        by apply (is_elem_fresh_button b d1).
      + left. by eapply buttons_after_append.
      + by apply collect_appendChild_grows.
    - exists (Elem tid tc tk). split; [done|]. split; [done|]. split; [done|].
      split; [by right|done]. }
  destruct HstepB as (t2 & Happend & Ht2 & Hbt2 & Hserved & Hgrow).
  (* the new text *)
  set (new := match replacement with [] => [] | _ => [Text replacement] end).
  assert (Enew : new = [Text replacement]) by (unfold new; by destruct replacement).
  assert (Hset : set_innerText b replacement (plug C (row pid pc l1 b bc bk t2 r))
                 = plug C (row pid pc l1 b bc new t2 r)).
  { unfold set_innerText. fold new. by apply row_set_kids. }
  exists d1, (plug C (row pid pc l1 b bc bk t2 r)),
         (row pid pc l1 b bc new t2 r), t2.
  rewrite Hset.
  split; [done|]. split; [done|]. split; [|split; [|split; [|split; [|split; [|split]]]]].
  - unfold innerText. rewrite row_find by done. rewrite Enew. cbn.
    by rewrite app_nil_r.
  - by apply row_parentNode.
  - unfold row. rewrite descendants_Elem, concat_map_app. cbn [map concat].
    intros E. apply (f_equal length) in E. rewrite !length_app in E.
    assert (Hb1 : length (collect (has_class W) (Elem b bc new))
                  = length (collect (has_class W) (Elem b bc bk))).
    { cbn [collect]. rewrite (has_class_classes W b bc new bk), Hkids, Enew.
      by destruct (has_class W (Elem b bc bk)). }
    cbn [length] in E. lia.
  - unfold nextSibling. by rewrite row_siblings.
  - done.
  - done.
  - intros Hq. pose proof (Hnone Hq) as El. unfold previousSibling.
    rewrite row_siblings by done. rewrite El.
    cbn [mbind option_bind]. rewrite last_snoc. by rewrite Ef.
Qed.

(** X19: when the response carries a replacement (which includes every
    failure text of the background worker), and the bubble still sits in
    its row with an element after it and holds no banner inside itself,
    the callback returns normally: the bubble then shows the
    replacement, its row holds a banner, so that [hasCensorshipWarning]
    is [true] (with the banner right in front of the bubble if the row
    had none), the element after it holds the retry control (or has no
    element child to take one), and the history saved for the
    conversation is the one of the request with its last message
    replaced by the replacement, marked [censored: true]. *)
Theorem replaced_branch
    (ev : event) (d0 d1 : node) (rq : request) (k : pending)
    (response : option (option jsstring)) (replacement : jsstring) (pg : page)
    (b : nat) (p t : node) (c : jsstring) :
  on_message ev d0 = Sent d1 rq k ->
  last (chatBubbles k) = Some b ->
  replacement_of response = Some replacement ->
  wf (document pg) ->
  parentNode b (document pg) = Some p ->
  nextSibling b (document pg) = Some t ->
  is_element t = true ->
  (forall bn, find b (document pg) = Some bn ->
              descendants (has_class CSS_CENSORED_WARNING_CLASS) bn = []) ->
  getChatIdFromUrl (pathname (store pg)) = Some c ->
  localStorage (store pg) <> Some NotJson ->
  exists pg',
    on_response k response pg = (Ok (), pg') /\
    innerText b (document pg') = replacement /\
    hasCensorshipWarning b false (document pg') = true /\
    (querySelector CSS_CENSORED_WARNING_CLASS p = None ->
     previousSibling b (document pg') = Some (warning (fresh (document pg)))) /\
    served b (document pg') /\
    restoreHistory (Some c) (store pg') =
      Ok (but_last (history rq) ++ [Message Assistant replacement (Some true)]).
Proof.
  intros Hsent Hlast Hrep Hwf Hp Hn Ht Hbn Hc Hs.
  destruct (on_message_Sent _ _ _ _ _ Hsent) as (b' & Hlast' & _ & _ & _ & Hhist & _).
  assert (Hne : replacement <> []).
  { unfold replacement_of in Hrep. destruct (mjoin response) as [[|x y]|]; [done| |done].
    by injection Hrep as <-. }
  destruct (replaced_document b (document pg) p t replacement Hwf Hp Hn Ht Hne Hbn)
    as (d1' & d2 & p3 & t3 & Hshow & Happend & Htext & Hp3 & Hban & Hn3 & Ht3 & Hserved & Hprev).
  destruct (getChatIdFromUrl_shape _ _ Hc) as [Hcne _].
  set (M := but_last (promptsFlatten k) ++ [Message Assistant replacement (Some true)]).
  destruct (saveHistory_stored (store pg) c M Hc Hs) as (parsed & Hparsed & Hsave).
  eexists (Page (set_innerText b replacement d2) _).
  split; [|split; [|split; [|split; [|split]]]].
  - unfold on_response. rewrite Hlast, Hrep.
    unfold mbind, script_bind, on_document, on_store. cbn [document store].
    rewrite Hshow. cbn [document store]. rewrite Happend. cbn [document store].
    fold M. by rewrite Hsave.
  - done.
  - cbn [document]. rewrite hasCensorshipWarning_flag, Hp3.
    by rewrite bool_decide_true.
  - done.
  - by exists t3.
  - cbn [store]. erewrite restoreHistory_lookup; [|done|done].
    rewrite lookup_insert_eq. cbn. unfold M. by rewrite Hhist.
Qed.

Lemma replaced_branch_witness :
  let d1 := set_innerText 23 checking_text sample_document in
  exists rq k pg',
    on_message sample_event sample_document = Sent d1 rq k /\
    on_response k (Some (Some (str "Full answer."))) (Page d1 sample_store) = (Ok (), pg') /\
    innerText 23 (document pg') = str "Full answer." /\
    hasCensorshipWarning 23 false (document pg') = true.
Proof.
  intros d1.
  assert (Hwf : wf d1) by (apply (bool_decide_unpack _); by vm_compute).
  destruct (replaced_branch sample_event sample_document d1 _ _
              (Some (Some (str "Full answer."))) (str "Full answer.")
              (Page d1 sample_store) 23 _ _ (str "abc-123")
              eq_refl eq_refl eq_refl Hwf eq_refl eq_refl eq_refl)
    as (pg' & H1 & H2 & H3 & _).
  - intros bn. vm_compute. by intros [= <-].
  - reflexivity.
  - discriminate.
  - eexists _, _, pg'. split; [reflexivity|]. split; [exact H1|]. split; [exact H2|exact H3].
Defined.

(** ** Restoring one turn *)

Lemma first_some_elem {A B} (f : B -> option A) ks k :
  k ∈ ks -> is_Some (f k) -> is_Some (first_some (map f ks)).
Proof.
  intros Hk Hf. induction ks as [|k' ks IH]; [by apply elem_of_nil in Hk|].
  cbn [map first_some]. destruct (f k') eqn:E; [by eexists|].
  apply elem_of_cons in Hk as [->|Hk]; [|by apply IH].
  rewrite E in Hf. by destruct Hf.
Qed.

(** An element below the root has a parent. *)
Lemma parentNode_below i n :
  i ∈ ids n -> is_elem i n = false -> is_Some (parentNode i n).
Proof.
  induction n as [s|j c ks IH] using node_ind'; [by intros ?%elem_of_nil|].
  rewrite ids_Elem. intros [->|Hi]%elem_of_cons Hroot.
  { cbn in Hroot. by rewrite bool_decide_true in Hroot. }
  cbn [parentNode]. destruct (has_child i ks) eqn:Hc; [by eexists|].
  apply elem_of_ids_of in Hi as (k & Hk & Hik).
  apply (first_some_elem _ ks k Hk).
  rewrite Forall_forall in IH. apply IH; [done..|].
  destruct (is_elem i k) eqn:E; [|done].
  assert (has_child i ks = true); [|congruence].
  unfold has_child. apply existsb_exists. exists k. split; [by apply list_elem_of_In|done].
Qed.

Lemma bubbles_below d b : b ∈ bubbles d -> b ∈ ids_of (children d).
Proof.
  unfold bubbles, getElementsByClassName, descendants.
  intros (m & Hm & Hb)%list_elem_of_omap.
  eapply collect_ids_of; [done|]. destruct m; [done|].
  cbn in Hb. injection Hb as ->. cbn. by rewrite bool_decide_true.
Qed.

Lemma bubble_has_parent d b : wf d -> b ∈ bubbles d -> is_Some (parentNode b d).
Proof.
  intros Hwf Hb%bubbles_below. destruct d as [s|j c ks]; [by apply elem_of_nil in Hb|].
  apply parentNode_below; [rewrite ids_Elem; by right|].
  cbn. apply bool_decide_eq_false. intros ->.
  unfold wf in Hwf. rewrite ids_Elem in Hwf. by apply NoDup_cons in Hwf as [? _].
Qed.

Lemma ids_of_map_sublist (G : node -> node) ks :
  Forall (fun k => ids (G k) `sublist_of` ids k) ks ->
  ids_of (map G ks) `sublist_of` ids_of ks.
Proof.
  induction 1 as [|k r Hk _ IH]; [done|]. rewrite !ids_of_cons. by apply sublist_app.
Qed.

Lemma ids_set_kids_sublist i new n :
  ids_of new = [] -> ids (set_kids i new n) `sublist_of` ids n.
Proof.
  intros Hnew. induction n as [s|j c ks IH] using node_ind'; [done|].
  cbn [set_kids]. case_bool_decide; rewrite !ids_Elem.
  - rewrite Hnew. apply sublist_skip, sublist_nil_l.
  - apply sublist_skip. by apply ids_of_map_sublist.
Qed.

Lemma wf_set_innerText b text d : wf d -> wf (set_innerText b text d).
Proof.
  intros Hwf. unfold wf, set_innerText.
  eapply sublist_NoDup; [exact Hwf|]. apply ids_set_kids_sublist. by destruct text.
Qed.

Section Around.
Variable P : node -> bool.
Hypothesis P_classes : forall i c ks ks', P (Elem i c ks) = P (Elem i c ks').

Lemma collected_ids_of ks x :
  x ∈ omap node_id (concat (map (collect P) ks)) -> x ∈ ids_of ks.
Proof.
  intros (m & Hm & Hx)%list_elem_of_omap.
  eapply collect_ids_of; [done|]. destruct m; [done|].
  cbn in Hx. injection Hx as ->. cbn. by rewrite bool_decide_true.
Qed.

(** What is collected around the hole of a context does not depend on
    what fills the hole. *)
Lemma collected_plug C :
  exists pre post,
    (forall x, x ∈ pre ++ post -> x ∈ ctx_ids C) /\
    forall n, omap node_id (collect P (plug C n))
              = pre ++ omap node_id (collect P n) ++ post.
Proof.
  induction C as [|j c l C (pre & post & Hin & IH) r].
  - exists [], []. split; [by intros x ?%elem_of_nil|]. intros n. cbn.
    by rewrite app_nil_r.
  - exists ((if P (Elem j c []) then [j] else [])
            ++ omap node_id (concat (map (collect P) l)) ++ pre),
           (post ++ omap node_id (concat (map (collect P) r))).
    split.
    + intros x. cbn [ctx_ids]. rewrite !elem_of_app, elem_of_cons, !elem_of_app.
      intros [[H|[H|H]]|[H|H]].
      * left. destruct (P _); [by apply list_elem_of_singleton in H|by apply elem_of_nil in H].
      * right. left. by apply collected_ids_of.
      * right. right. left. apply Hin, elem_of_app. by left.
      * right. right. left. apply Hin, elem_of_app. by right.
      * right. right. right. by apply collected_ids_of.
    + intros n. cbn [plug collect]. rewrite (P_classes j c _ []).
      rewrite concat_map_app. cbn [map concat].
      rewrite !omap_app, IH, <- !app_assoc. f_equal. by destruct (P _).
Qed.

Lemma descendants_plug j c l C r :
  exists pre post,
    (forall x, x ∈ pre ++ post -> x ∈ ids_of l ++ ctx_ids C ++ ids_of r) /\
    forall n, omap node_id (descendants P (plug (Frame j c l C r) n))
              = pre ++ omap node_id (collect P n) ++ post.
Proof.
  destruct (collected_plug C) as (pre & post & Hin & IH).
  exists (omap node_id (concat (map (collect P) l)) ++ pre),
         (post ++ omap node_id (concat (map (collect P) r))).
  split.
  - intros x. rewrite !elem_of_app. intros [[H|H]|[H|H]].
    + left. by apply collected_ids_of.
    + right. left. apply Hin, elem_of_app. by left.
    + right. left. apply Hin, elem_of_app. by right.
    + right. right. by apply collected_ids_of.
  - intros n. cbn [plug]. rewrite descendants_Elem, concat_map_app. cbn [map concat].
    by rewrite !omap_app, IH, <- !app_assoc.
Qed.
End Around.

Lemma bubbles_descendants d :
  bubbles d
  = omap node_id
      (descendants (fun m => forallb (fun c => has_class c m) chatBubbleSelector) d).
Proof. done. Qed.

(** The live collection keeps a bubble at its index when the children of
    that bubble are replaced by nodes that hold no bubble. *)
Lemma bubble_index_set_kids b new d index :
  wf d ->
  concat (map (collect (fun m => forallb (fun c => has_class c m) chatBubbleSelector)) new) = [] ->
  bubbles d !! index = Some b ->
  bubbles (set_kids b new d) !! index = Some b.
Proof.
  intros Hwf Hnew Hidx.
  pose proof (bubbles_NoDup d Hwf) as Hnd.
  assert (Hb : b ∈ bubbles d) by by eapply list_elem_of_lookup_2.
  destruct (find_present b d (bubbles_in _ _ Hb)) as [n Hn].
  pose proof (find_Some_elem _ _ _ Hn) as (bc & bk & ->)%is_elem_true.
  destruct (find_context _ _ _ Hn) as [C Ed]. subst d.
  pose proof (wf_plug _ _ Hwf) as (Hndn & _ & Hdisj).
  assert (HbC : b ∉ ctx_ids C) by (apply Hdisj; rewrite ids_Elem; left).
  rewrite set_kids_plug by done. cbn [set_kids]. rewrite bool_decide_true by done.
  rewrite ids_Elem in Hndn. apply NoDup_cons in Hndn as [Hbk _].
  destruct C as [|j c l C r].
  { exfalso. apply Hbk. by apply bubbles_below in Hb. }
  destruct (descendants_plug
              (fun m => forallb (fun c => has_class c m) chatBubbleSelector)
              bubble_test_classes j c l C r) as (pre & post & Hin & E).
  rewrite bubbles_descendants, E in Hidx, Hb, Hnd |- *.
  assert (Hout : b ∉ pre ++ post).
  { intros H%Hin. apply HbC. cbn [ctx_ids]. by right. }
  rewrite elem_of_app in Hout.
  cbn [collect] in Hidx, Hb, Hnd |- *. rewrite Hnew.
  rewrite (bubble_test_classes b bc new bk).
  rewrite omap_app in Hidx, Hb, Hnd.
  set (inner := omap node_id (concat (map (collect _) bk))) in *.
  assert (Hinner : b ∉ inner).
  { intros H. apply Hbk. by eapply collected_ids_of. }
  destruct (forallb _ chatBubbleSelector) eqn:EP.
  - change (omap node_id [Elem b bc bk]) with [b] in Hidx, Hnd.
    change (omap node_id ([Elem b bc new] ++ [])) with [b].
    rewrite <- app_assoc in Hidx, Hnd. cbn [app] in Hidx, Hnd |- *.
    assert (Ei : index = length pre).
    { eapply NoDup_lookup; [exact Hnd|exact Hidx|]. by apply list_lookup_middle. }
    subst index. by apply list_lookup_middle.
  - exfalso. change (omap node_id (@nil node)) with (@nil nat) in Hb.
    cbn [app] in Hb. rewrite !elem_of_app in Hb. tauto.
Qed.

Lemma bubble_index_set_innerText b text d index :
  wf d -> bubbles d !! index = Some b ->
  bubbles (set_innerText b text d) !! index = Some b.
Proof.
  intros Hwf H. unfold set_innerText. apply bubble_index_set_kids; [done| |done].
  by destruct text.
Qed.

Lemma find_warning b f : b <> f -> find b (warning f) = None.
Proof. intros H. cbn. by rewrite bool_decide_false by done. Qed.

(** The document once the banner [warning f] is in, for a new identity
    [f]. *)
Lemma insertBefore_warning b d p f :
  wf d -> parentNode b d = Some p -> f ∉ ids d ->
  wf (insertBefore (warning f) b d) /\
  find b (insertBefore (warning f) b d) = find b d /\
  exists p1,
    parentNode b (insertBefore (warning f) b d) = Some p1 /\
    descendants (has_class CSS_CENSORED_WARNING_CLASS) p1 <> [].
Proof.
  intros Hwf Hp Hf.
  destruct (parent_shape b d p Hwf Hp)
    as (C & j & c & l & x & r & Ed & -> & Hs & HbC & Hbj & Hfr).
  destruct (Hfr f Hf) as (HfC & Hfj & Hfk).
  pose proof (wf_parentNode _ _ _ Hwf Hp) as Hnd.
  assert (Hbf : b <> f).
  { intros ->. apply Hf. by eapply parentNode_in. }
  assert (Ei : insertBefore (warning f) b d
               = plug C (Elem j c (l ++ warning f :: x :: r))).
  { rewrite Ed. rewrite insertBefore_plug; [|done|by cbn; rewrite bool_decide_eq_false_2].
    by rewrite (insertBefore_container _ b j c _ l x r Hnd Hs). }
  pose proof (split_at_spec _ _ _ _ _ Hs) as (_ & Hx & Hl).
  split; [|split].
  - rewrite Ei. unfold wf in *. rewrite Ed in Hwf, Hf.
    rewrite ids_plug in Hwf, Hf |- *.
    rewrite !ids_Elem, !ids_of_app, !ids_of_cons in Hwf, Hf |- *.
    change (ids (warning f)) with [f]. cbn [app].
    assert (E : ctx_ids C ++ j :: ids_of l ++ f :: ids x ++ ids_of r
                ≡ₚ f :: ctx_ids C ++ j :: ids_of l ++ ids x ++ ids_of r).
    { rewrite (app_comm_cons (ids_of l)), !app_assoc.
      rewrite <- Permutation_middle. by rewrite <- !app_assoc. }
    rewrite E. by apply NoDup_cons.
  - rewrite Ei, Ed, !find_plug by done. cbn [find].
    rewrite !bool_decide_false by done.
    rewrite !map_app, !first_some_app. cbn [map first_some].
    by rewrite find_warning by done.
  - exists (Elem j c (l ++ warning f :: x :: r)). split.
    + rewrite <- (insertBefore_container (warning f) b j c _ l x r Hnd Hs).
      by rewrite parentNode_insertBefore, Hp.
    + apply (descendants_child _ _ (warning f)); [|done].
      cbn [children]. apply elem_of_app. right. left.
Qed.

Lemma showWarning_wf b d d1 :
  wf d -> showWarning b d = Ok d1 ->
  wf d1 /\ find b d1 = find b d /\
  exists p1,
    parentNode b d1 = Some p1 /\
    descendants (has_class CSS_CENSORED_WARNING_CLASS) p1 <> [].
Proof.
  intros Hwf. unfold showWarning.
  destruct (parentNode b d) as [p|] eqn:Hp; [|done].
  destruct (querySelector _ p) as [m|] eqn:Hq; intros [= <-].
  - split; [done|]. split; [done|]. exists p. split; [done|].
    apply querySelector_Some_iff. by rewrite Hq.
  - by apply (insertBefore_warning b d p), fresh_not_in.
Qed.

Lemma ids_set_kids_text x new n y :
  ids_of new = [] -> y ∈ ids (set_kids x new n) -> y ∈ ids n.
Proof.
  intros Hnew [H|H]%ids_set_kids; [done|]. rewrite Hnew in H. by apply elem_of_nil in H.
Qed.

(** Replacing the children of an element that is neither in the parent of
    [b] nor around [b] leaves that parent the parent of [b]. *)
Lemma parentNode_set_kids_elsewhere x new b p n :
  NoDup (ids n) -> ids_of new = [] ->
  parentNode b n = Some p -> x ∉ ids p ->
  (forall m, find x n = Some m -> b ∉ ids m) ->
  parentNode b (set_kids x new n) = Some p.
Proof.
  intros Hnd Hnew. induction n as [s|j c ks IH] using node_ind'; [done|].
  intros Hp Hx Hanc. cbn [set_kids]. case_bool_decide as Ej.
  { exfalso. subst j. apply (Hanc (Elem x c ks)).
    - cbn. by rewrite bool_decide_true.
    - by eapply parentNode_in. }
  cbn [parentNode] in Hp |- *.
  rewrite has_child_map by (intros; apply is_elem_set_kids).
  destruct (has_child b ks) eqn:Hc.
  { injection Hp as <-. rewrite ids_Elem, not_elem_of_cons in Hx.
    by rewrite (map_absent _ x) by (by destruct Hx; auto using set_kids_absent). }
  apply first_some_split in Hp as (l & k & r & -> & Hk & Hl).
  rewrite ids_Elem in Hnd. apply NoDup_cons in Hnd as [_ Hnd].
  rewrite ids_of_app, ids_of_cons in Hnd.
  apply NoDup_app in Hnd as (_ & Hlk & Hnd).
  apply NoDup_app in Hnd as (Hndk & _ & _).
  assert (Hbk : b ∈ ids k) by by eapply parentNode_in.
  rewrite !map_app, first_some_app.
  rewrite first_some_all_None.
  2:{ apply Forall_forall. intros k' [k0 [-> Hk0]]%list_elem_of_fmap.
      apply parentNode_absent. intros H%(ids_set_kids_text _ _ _ _ Hnew).
      apply (Hlk b); [|apply elem_of_app; by left].
      apply elem_of_ids_of. by exists k0. }
  cbn [map first_some].
  rewrite Forall_forall in IH. rewrite (IH k); [done| | |done|done|].
  - apply elem_of_app. right. left.
  - done.
  - intros m Hm. apply Hanc. cbn [find]. rewrite bool_decide_false by done.
    rewrite map_app, first_some_app, first_some_all_None; [by cbn; rewrite Hm|].
    apply Forall_forall. intros k' Hk'. apply find_absent. intros H.
    apply (Hlk x); [apply elem_of_ids_of; by exists k'|].
    apply elem_of_app. left. destruct (decide (x ∈ ids k)) as [|Hn]; [done|].
    by rewrite (find_absent _ _ Hn) in Hm.
Qed.

(** The element that holds the user's text stands apart from the
    bubble: it is not in the parent of the bubble, and the bubble is not
    below it. *)
Lemma user_element_apart b d p x :
  wf d -> parentNode b d = Some p -> user_element b d = Some x ->
  (x ∉ ids p) /\ x <> b /\ x ∈ ids d /\
  forall m, find x d = Some m -> b ∉ ids m.
Proof.
  intros Hwf Hp Hu. unfold user_element, parentElement in Hu. rewrite Hp in Hu.
  cbn [mbind option_bind] in Hu.
  pose proof (parentNode_has_child _ _ _ Hp) as (pid & pc & pks & -> & Hbc).
  assert (Hbp : b ∈ ids (Elem pid pc pks)).
  { rewrite ids_Elem. right. by apply has_child_ids. }
  assert (Hfp : find pid d = Some (Elem pid pc pks)).
  { destruct (parentNode_context _ _ _ Hp) as [C ->].
    pose proof (wf_plug _ _ Hwf) as (_ & _ & Hdis).
    rewrite find_plug by (apply Hdis; rewrite ids_Elem; left).
    cbn. by rewrite bool_decide_true. }
  destruct d as [s|rid rc rks]; [done|].
  destruct (bool_decide (pid = rid)); [done|]. cbn [node_id mbind option_bind] in Hu.
  set (d := Elem rid rc rks) in *.
  unfold previousElementSibling, siblings in Hu.
  destruct (parentNode pid d) as [g|] eqn:Hg; [|done]. cbn [mbind option_bind] in Hu.
  destruct (parent_shape pid d g Hwf Hg)
    as (Cg & gid & gc & L & xx & R & Ed & -> & Hs & HpC & Hpg & _).
  cbn [children] in Hu. rewrite Hs in Hu. cbn [mbind option_bind] in Hu.
  destruct (last (List.filter is_element L)) as [q|] eqn:Hq; [|done].
  cbn [mbind option_bind] in Hu.
  destruct (firstElementChild q) as [[s|x' xc xk]|] eqn:Hfc; [done| |done].
  cbn in Hu. injection Hu as ->.
  pose proof (firstElementChild_ids _ _ _ _ Hfc) as Hxq.
  assert (HqL : q ∈ L).
  { apply last_elem_of in Hq.
    by apply list_elem_of_In, filter_In in Hq as [?%list_elem_of_In _]. }
  apply list_elem_of_split in HqL as (L1 & L2 & ->).
  pose proof (split_at_spec _ _ _ _ _ Hs) as (_ & Hxx & _).
  pose proof (wf_plug _ _ ltac:(rewrite <- Ed; exact Hwf)) as (Hndg & _ & Hdis).
  rewrite ids_Elem in Hndg. apply NoDup_cons in Hndg as [Hgid Hndg].
  rewrite <- app_assoc in Hndg, Hgid. cbn [app] in Hndg, Hgid.
  rewrite ids_of_app, ids_of_cons, ids_of_app, ids_of_cons in Hndg, Hgid.
  apply NoDup_app in Hndg as (_ & H1 & Hndg).
  apply NoDup_app in Hndg as (_ & H2 & Hndg).
  apply NoDup_app in Hndg as (_ & H3 & _).
  assert (Hxg : x ∈ ids (Elem gid gc ((L1 ++ q :: L2) ++ xx :: R))).
  { rewrite ids_Elem, ids_of_app, ids_of_app, ids_of_cons, !elem_of_cons, !elem_of_app.
    tauto. }
  assert (Hpxx : pid ∈ ids xx) by by apply is_elem_ids.
  assert (Hfxx : find pid d = Some xx).
  { rewrite Ed, find_plug by done. cbn [find].
    rewrite bool_decide_false by done.
    rewrite !map_app, !first_some_app. cbn [map first_some].
    rewrite (first_some_all_None (find pid) L1).
    2:{ apply Forall_forall. intros k Hk. apply find_absent. intros H.
        apply (H1 pid); [apply elem_of_ids_of; by exists k|].
        rewrite !elem_of_app. tauto. }
    rewrite (find_absent pid q).
    2:{ intros H. apply (H2 pid H). rewrite !elem_of_app. tauto. }
    rewrite (first_some_all_None (find pid) L2).
    2:{ apply Forall_forall. intros k Hk. apply find_absent. intros H.
        apply (H3 pid); [apply elem_of_ids_of; by exists k|].
        rewrite !elem_of_app. tauto. }
    apply is_elem_true in Hxx as (? & ? & ->). cbn [find].
    by rewrite bool_decide_true. }
  rewrite Hfp in Hfxx. injection Hfxx as <-.
  assert (Hxp : x ∉ ids (Elem pid pc pks)).
  { intros H. apply (H2 x Hxq). rewrite !elem_of_app. tauto. }
  split; [done|]. split; [by intros ->|]. split.
  { rewrite Ed, ids_plug. apply elem_of_app. by right. }
  intros m Hm Hbm.
  assert (Hxm : find x q = Some m).
  { rewrite Ed, find_plug in Hm by by apply Hdis.
    cbn [find] in Hm. rewrite bool_decide_false in Hm.
    2:{ intros ->. apply Hgid. rewrite !elem_of_app. tauto. }
    rewrite !map_app, !first_some_app in Hm. cbn [map first_some] in Hm.
    rewrite first_some_all_None in Hm.
    2:{ apply Forall_forall. intros k Hk. apply find_absent. intros H.
        apply (H1 x); [apply elem_of_ids_of; by exists k|].
        rewrite !elem_of_app. tauto. }
    destruct (find_present x q Hxq) as [m' Hm']. rewrite Hm' in Hm |- *. done. }
  apply (H2 b); [by eapply find_Some_ids|].
  rewrite !elem_of_app. tauto.
Qed.

Lemma find_in_parent b d p n y :
  wf d -> parentNode b d = Some p -> find b d = Some n -> y ∈ ids n -> y ∈ ids p.
Proof.
  intros Hwf Hp Hn Hy.
  destruct (parent_shape b d p Hwf Hp)
    as (C & j & c & l & x & r & Ed & -> & Hs & HbC & Hbj & _).
  pose proof (split_at_spec _ _ _ _ _ Hs) as (_ & Hx & Hl).
  rewrite Ed, find_plug in Hn by done. cbn [find] in Hn.
  rewrite bool_decide_false in Hn by done.
  rewrite map_app, first_some_app in Hn. cbn [map first_some] in Hn.
  destruct (first_some (map (find b) l)) as [m|] eqn:El.
  - injection Hn as ->. apply first_some_split in El as (l1 & k & l2 & -> & Hk & _).
    rewrite ids_Elem, !ids_of_app, ids_of_cons. right.
    rewrite !elem_of_app. left. right. left. by eapply find_Some_ids.
  - apply is_elem_true in Hx as (xc & xk & ->). cbn [find] in Hn.
    rewrite bool_decide_true in Hn by done. injection Hn as <-.
    rewrite ids_Elem, ids_of_app, ids_of_cons. right. rewrite !elem_of_app. tauto.
Qed.

Lemma script_bind_Ok {A B} (m : script A) (f : A -> script B) pg a pg1 :
  m pg = (Ok a, pg1) -> (m ≫= f) pg = f a pg1.
Proof. intros H. unfold mbind, script_bind. by rewrite H. Qed.

Lemma innerText_find b d d' : find b d' = find b d -> innerText b d' = innerText b d.
Proof. unfold innerText. by intros ->. Qed.

(** X20: restoring one saved turn on a document with distinct nodes: for
    the bubble that stands at the index of the turn, the loop body
    returns normally, after which the bubble shows the saved assistant
    text and, if that message was saved as censored, a banner stands in
    the row of the bubble, so that [hasCensorshipWarning] is [true];
    writing the user's text does not touch the bubble.  The store is not
    written to and the nodes stay distinct. *)
Theorem restore_turn_shows (index : nat) (u a : message) (pg : page) (b : nat) :
  wf (document pg) ->
  bubbles (document pg) !! index = Some b ->
  exists pg',
    restore_turn index u a pg = (Ok (), pg') /\
    store pg' = store pg /\
    wf (document pg') /\
    innerText b (document pg') = content a /\
    (censored a = Some true -> hasCensorshipWarning b false (document pg') = true).
Proof.
  intros Hwf Hidx. destruct pg as [d0 st]. cbn [document store] in *.
  assert (Hb0 : is_Some (find b d0)).
  { apply find_present, bubbles_in. by eapply list_elem_of_lookup_2. }
  (* the assistant text *)
  set (d1 := set_innerText b (content a) d0).
  assert (Hwf1 : wf d1) by by apply wf_set_innerText.
  assert (Hidx1 : bubbles d1 !! index = Some b) by by apply bubble_index_set_innerText.
  assert (Ht1 : innerText b d1 = content a) by by apply innerText_set_innerText.
  (* the banner *)
  assert (Hstep2 : exists d2,
    (if bool_decide (censored a = Some true)
     then b' ← bubble_at index "parentNode"; on_document (showWarning b')
     else mret ()) (Page d1 st) = (Ok (), Page d2 st) /\
    wf d2 /\ bubbles d2 = bubbles d1 /\ find b d2 = find b d1 /\
    (censored a = Some true ->
     exists p2, parentNode b d2 = Some p2 /\
                descendants (has_class CSS_CENSORED_WARNING_CLASS) p2 <> [])).
  { case_bool_decide as Hc.
    - unfold mbind, script_bind, bubble_at, on_document. cbn [document store].
      rewrite Hidx1. cbn [document store].
      destruct (bubble_has_parent d1 b Hwf1) as [p1 Hp1];
        [by eapply list_elem_of_lookup_2|].
      destruct (showWarning b d1) as [d2|e] eqn:Es.
      2:{ unfold showWarning in Es. rewrite Hp1 in Es. by destruct (querySelector _ p1). }
      destruct (showWarning_wf b d1 d2 Hwf1 Es) as (Hwf2 & Hf2 & Hban).
      exists d2. split; [done|]. split; [done|].
      split; [by eapply bubbles_showWarning|]. by split.
    - exists d1. split; [done|]. split; [done|]. split; [done|]. by split. }
  destruct Hstep2 as (d2 & Hrun2 & Hwf2 & Hbub2 & Hf2 & Hban).
  assert (Hidx2 : bubbles d2 !! index = Some b) by by rewrite Hbub2.
  destruct (bubble_has_parent d2 b Hwf2) as [p2 Hp2];
    [by eapply list_elem_of_lookup_2|].
  (* the user's text *)
  assert (Hstep3 : exists d3,
    match user_element b d2 with
    | Some x => on_document (fun d => Ok (set_innerText x (content u) d))
    | None => mret ()
    end (Page d2 st) = (Ok (), Page d3 st) /\
    wf d3 /\ find b d3 = find b d2 /\ parentNode b d3 = Some p2).
  { destruct (user_element b d2) as [x|] eqn:Hx.
    - destruct (user_element_apart b d2 p2 x Hwf2 Hp2 Hx) as (Hxp & Hxb & Hxd & Hanc).
      exists (set_innerText x (content u) d2). split; [done|].
      split; [by apply wf_set_innerText|]. unfold set_innerText.
      assert (Hnew : ids_of (match content u with [] => [] | _ :: _ => [Text (content u)] end) = [])
        by by destruct (content u).
      split.
      + apply set_kids_apart; [done|by intros ->| |by rewrite Hnew; apply not_elem_of_nil].
        split; [done|]. intros n Hn Hxn. apply Hxp. by eapply find_in_parent.
      + by apply parentNode_set_kids_elsewhere.
    - exists d2. by split. }
  destruct Hstep3 as (d3 & Hrun3 & Hwf3 & Hf3 & Hp3).
  exists (Page d3 st). split; [|split; [done|split; [done|split]]].
  - assert (H1 : bubble_at index "innerText" (Page d0 st) = (Ok b, Page d0 st))
      by (unfold bubble_at; cbn [document]; by rewrite Hidx).
    assert (H4 : bubble_at index "parentElement" (Page d2 st) = (Ok b, Page d2 st))
      by (unfold bubble_at; cbn [document]; by rewrite Hidx2).
    unfold restore_turn.
    rewrite (script_bind_Ok _ _ _ _ _ H1).
    rewrite (script_bind_Ok _ _ _ () (Page d1 st)) by done.
    rewrite (script_bind_Ok _ _ _ _ _ Hrun2).
    rewrite (script_bind_Ok _ _ _ _ _ H4).
    rewrite (script_bind_Ok _ _ _ (user_element b d2) (Page d2 st)) by done.
    exact Hrun3.
  - cbn [document]. by rewrite (innerText_find b d2 d3), (innerText_find b d1 d2).
  - intros Hc. destruct (Hban Hc) as (p2' & Hp2' & Hne).
    rewrite Hp2 in Hp2'. injection Hp2' as <-.
    cbn [document]. rewrite hasCensorshipWarning_flag, Hp3.
    by rewrite bool_decide_true.
Qed.

Lemma restore_turn_shows_witness :
  exists pg',
    restore_turn 1 (Message User (str "And Z?") None)
      (Message Assistant (str "Full answer.") (Some true))
      (Page sample_document sample_store) = (Ok (), pg') /\
    innerText 23 (document pg') = str "Full answer." /\
    hasCensorshipWarning 23 false (document pg') = true.
Proof.
  destruct (restore_turn_shows 1 (Message User (str "And Z?") None)
              (Message Assistant (str "Full answer.") (Some true))
              (Page sample_document sample_store) 23 wf_sample_document eq_refl)
    as (pg' & H1 & _ & _ & H2 & H3).
  exists pg'. split; [exact H1|]. split; [exact H2|]. by apply H3.
Defined.

(** ** The retry click and the flags of a manual request *)

(** X21: a click on a retry control posts nothing exactly when its
    bubble is no longer among the chat bubbles of the document; otherwise
    it posts an event that the message listener accepts with a scope
    that is not empty and ends in that bubble: a click never makes the
    listener throw, and the request it sends is a manual one. *)
Theorem retry_click_is_safe (b : nat) (d : node) :
  (retry_click b d = None <-> b ∉ bubbles d)
  /\ forall ev,
       retry_click b d = Some ev ->
       exists d1 rq k,
         on_message ev d = Sent d1 rq k /\
         last (chatBubbles k) = Some b /\
         req_manual rq = true /\
         d1 = set_innerText b checking_text d.
Proof.
  unfold retry_click.
  destruct (list_find (fun e => e = b) (bubbles d)) as [[i e]|] eqn:E.
  - apply list_find_Some in E as (Hi & -> & _). split.
    + split; [done|]. intros H. exfalso. apply H. by eapply list_elem_of_lookup_2.
    + intros ev [= <-]. rewrite on_message_accepted by done.
      cbn [ev_index ev_manual ev_content]. rewrite scope_of_index.
      rewrite (last_take_S _ _ _ Hi). eexists _, _, _. split; [done|].
      cbn [chatBubbles req_manual]. split; [by apply last_take_S|done].
  - split; [|done]. split; [|done]. intros _ Hb.
    apply list_find_None in E. rewrite Forall_forall in E. by apply (E b).
Qed.

Lemma turns_manual d l :
  Forall (fun m => msg_role m = Assistant -> censored m = Some true)
         (concat (map (turn true d) l)).
Proof.
  induction l as [|b l IH]; cbn [map concat]; [constructor|].
  unfold turn at 1. cbn [app]. constructor; [done|]. constructor; [|done].
  intros _. done.
Qed.

(** X22: in the request of a manual retry every assistant message of
    the history is flagged [censored: true], whether its turn shows a
    banner or not, and the messages before the last one are what the
    response callback saves; in the request of an automatic detection
    the flag of a turn tells whether the parent of its bubble holds a
    banner. *)
Theorem manual_request_flags (ev : event) (d d1 : node) (rq : request) (k : pending) :
  on_message ev d = Sent d1 rq k ->
  (ev_manual ev = true ->
   Forall (fun m => msg_role m = Assistant -> censored m = Some true) (history rq))
  /\ (ev_manual ev = false ->
      history rq =
        concat (map (fun b =>
          [Message User (cleanText (user_text b d)) None;
           Message Assistant (cleanText (innerText b d))
             (Some match parentNode b d with
                   | Some p =>
                       bool_decide
                         (descendants (has_class CSS_CENSORED_WARNING_CLASS) p <> [])
                   | None => false
                   end)]) (chatBubbles k))).
Proof.
  intros (b & _ & _ & Hp & _ & Hh & _)%on_message_Sent. rewrite Hh, Hp. split.
  - intros ->. apply turns_manual.
  - intros ->. f_equal. apply map_ext. intros b'. unfold turn.
    by rewrite hasCensorshipWarning_flag.
Qed.

Lemma manual_request_flags_witness :
  let ev := Event true (str "DEEPSEEK_CENSORSHIP") (str "x") (Some 1%Z) true in
  exists d1 rq k,
    on_message ev sample_document = Sent d1 rq k /\
    Forall (fun m => msg_role m = Assistant -> censored m = Some true) (history rq).
Proof.
  intros ev. eexists _, _, _. split; [reflexivity|].
  apply (manual_request_flags ev sample_document _ _ _ eq_refl). reflexivity.
Defined.
